(** * Train-schedule dataset scripts: coverage, schedule expansion, alignment

    A shallow embedding of the Python scripts under [src/scripts]:
    the hour-by-hour coverage histogram ([Mapcheck_coverage.py],
    [check_minimal_coverage.py], [Mapultra_optimize_trains.py]), the
    schedule expansion ([Mapcreate_minimal_trains.py] and siblings), the
    coordinate reduction of the optimizers, and the route alignment
    scripts ([fix_train_alignment.py], [fix_alignment.py],
    [fix_train_routes.py]); further the scoring and the selection of the
    optimizers, the bounding-box verifier ([Mapverify_alignment.py]) and
    the grouping of stops by train ([build_routes.py]).

    Conventions.  Python [str] values are modelled as [string] (ASCII
    text), Python [float] as the kernel's binary64 [float], Python lists
    as [list], an exception that leaves a function as [None] in [option].
    The float operations that the kernel's floats do not have (sin,
    cos, atan2 of Python's [math] module and the power [x ** 2]) are an
    interface, [MathLib]; a JSON [null] where a number is read is
    [None] in the field that holds it. *)

From Stdlib Require Import ZArith Ascii String PrimFloat.
From Stdlib Require FloatAxioms SpecFloat DecimalString.
From stdpp Require Import base option list sorting.

Local Open Scope nat_scope.

(** ** Times of day and [datetime.strptime] / [strftime] *)

Module Clock.

(** [datetime.time]: hour, minute, second (microseconds are always 0 here). *)
Record time := Time { hour : nat; minute : nat; second : nat }.

Definition valid_time (t : time) : Prop :=
  hour t < 24 ∧ minute t < 60 ∧ second t < 60.

Definition digit_of (c : ascii) : option nat :=
  let n := nat_of_ascii c in
  if (48 <=? n) && (n <=? 57) then Some (n - 48) else None.

Definition digit_char (n : nat) : ascii := ascii_of_nat (48 + n).

(** The regular expression [_strptime] builds for ['%H:%M:%S'] is
    [(2[0-3]|[0-1]\d|\d):([0-5]\d|\d):(6[0-1]|[0-5]\d|\d)].  A directive
    is modelled by the list of its alternatives in the order the
    backtracking matcher tries them, each with the text left over. *)
Definition two_digits (ok : nat → nat → bool) (s : string) : list (nat * string) :=
  match s with
  | String c1 (String c2 r) =>
      match digit_of c1, digit_of c2 with
      | Some a, Some b => if ok a b then [(10 * a + b, r)] else []
      | _, _ => []
      end
  | _ => []
  end.

Definition one_digit (s : string) : list (nat * string) :=
  match s with
  | String c r => match digit_of c with Some a => [(a, r)] | None => [] end
  | EmptyString => []
  end.

Definition directive_H (s : string) : list (nat * string) :=
  two_digits (λ a b, (a =? 2) && (b <=? 3)) s
  ++ two_digits (λ a _, a <=? 1) s ++ one_digit s.

Definition directive_M (s : string) : list (nat * string) :=
  two_digits (λ a _, a <=? 5) s ++ one_digit s.

Definition directive_S (s : string) : list (nat * string) :=
  two_digits (λ a b, (a =? 6) && (b <=? 1)) s
  ++ two_digits (λ a _, a <=? 5) s ++ one_digit s.

Definition colon (s : string) : list string :=
  match s with
  | String c r => if Ascii.eqb c ":" then [r] else []
  | EmptyString => []
  end.

(** [format_regex.match(data_string)]: the first match in backtracking
    order, with the unmatched rest of the text. *)
Definition regex_match (s : string) : option (nat * nat * nat * string) :=
  head ('(h, r1) ← directive_H s; r2 ← colon r1;
        '(m, r3) ← directive_M r2; r4 ← colon r3;
        '(x, r5) ← directive_S r4; [(h, m, x, r5)]).

(** [datetime.strptime(s, '%H:%M:%S').time()].  [None] stands for the
    [ValueError] raised when the text does not match, when unconverted
    data remains, or when [datetime(...)] refuses a second of 60 or 61. *)
Definition strptime (s : string) : option time :=
  match regex_match s with
  | Some (h, m, x, rest) =>
      if negb (String.eqb rest "") then None
      else if 59 <? x then None
      else Some (Time h m x)
  | None => None
  end.

(** [f"{n:02d}"] for [n < 100], which is what ['%H'], ['%M'], ['%S'] print. *)
Definition two (n : nat) : string :=
  String (digit_char (n / 10)) (String (digit_char (n mod 10)) EmptyString).

(** [t.strftime('%H:%M:%S')]. *)
Definition strftime (t : time) : string :=
  (two (hour t) ++ ":" ++ two (minute t) ++ ":" ++ two (second t))%string.

(** A [datetime] on or after the reference day is modelled by the number
    of seconds since that day's midnight; a [timedelta] by a number of
    seconds, possibly negative. *)
Definition datetime := Z.
Definition timedelta := Z.

Definition seconds_of (t : time) : Z :=
  Z.of_nat (hour t) * 3600 + Z.of_nat (minute t) * 60 + Z.of_nat (second t).

(** [datetime.combine(day, t)], [day] being the reference day. *)
Definition combine (t : time) : datetime := seconds_of t.

(** [dt.time()]. *)
Definition dt_time (dt : datetime) : time :=
  let s := (dt mod 86400)%Z in
  Time (Z.to_nat (s / 3600)) (Z.to_nat ((s / 60) mod 60)) (Z.to_nat (s mod 60)).

(** [timedelta(hours=h)] and [timedelta(days=1)]. *)
Definition hours (h : Z) : timedelta := (h * 3600)%Z.
Definition one_day : timedelta := 86400%Z.

End Clock.

(** ** The coverage histogram *)

Module Coverage.
Import Clock.

(** A published train entry, as the coverage checkers read it. *)
Record train_entry := TrainEntry { departure : string; arrival : string }.

(** [hourly_coverage[h] += 1]. *)
Definition incr (h : nat) (cov : list nat) : list nat := alter S h cov.

(** [for h in range(start, stop): hourly_coverage[h] += 1]. *)
Definition for_range (start stop : nat) (cov : list nat) : list nat :=
  foldl (λ c h, incr h c) cov (seq start (stop - start)).

(** The body of the loop over trains, after the two hours are read. *)
Definition mark_hours (dep_hour arr_hour : nat) (cov : list nat) : list nat :=
  if arr_hour <=? dep_hour then
    for_range 0 (arr_hour + 1) (for_range dep_hour 24 cov)
  else
    for_range dep_hour (arr_hour + 1) cov.

(** One iteration for a train: both times are parsed (a [ValueError]
    leaves the function), then the hours are marked. *)
Definition mark_train (cov : list nat) (dep arr : string) : option (list nat) :=
  dep_time ← strptime dep;
  arr_time ← strptime arr;
  Some (mark_hours (hour dep_time) (hour arr_time) cov).

(** [[0] * 24]. *)
Definition zeros : list nat := replicate 24 0.

(** [for train in trains: ...], from the histogram built so far
    ([None] once an exception was raised). *)
Definition coverage_from (acc : option (list nat)) (trains : list train_entry)
  : option (list nat) :=
  foldl (λ acc t, cov ← acc; mark_train cov (departure t) (arrival t)) acc trains.

(** [check_coverage] of [Mapcheck_coverage.py], [check_minimal_coverage]
    and [check_ultra_coverage]: the histogram they compute before printing. *)
Definition check_coverage (trains : list train_entry) : option (list nat) :=
  coverage_from (Some zeros) trains.

End Coverage.

(** ** Schedule expansion *)

Module Expansion.
Import Clock Coverage.

(** An entry of the [schedules] list built by the timing functions. *)
Record schedule := Schedule {
  s_departure : string;
  s_arrival : string;
  schedule_id : nat
}.

(** The local [parse_time] of [create_minimal_timing_strategy],
    [create_smart_timing], [create_continuous_timing] and
    [create_continuous_schedule] (the same text in the four scripts):
    [try: strptime(time_str) except: strptime('06:00:00')]. *)
Definition parse_time (time_str : string) : option time :=
  match strptime time_str with
  | Some t => Some t
  | None => strptime "06:00:00"
  end.

(** "Calculate journey duration": the departure as a [datetime] of the
    reference day and the duration, a day added to the arrival when it
    is not after the departure. *)
Definition journey (base_departure base_arrival : string)
  : option (datetime * timedelta) :=
  dep_time ← parse_time base_departure;
  arr_time ← parse_time base_arrival;
  let dep_dt := combine dep_time in
  let arr_dt := combine arr_time in
  let arr_dt := if (arr_dt <=? dep_dt)%Z then (arr_dt + one_day)%Z else arr_dt in
  Some (dep_dt, (arr_dt - dep_dt)%Z).

(** [for i, offset in enumerate(intervals): ... schedules.append(...)]. *)
Definition expand (dep_dt : datetime) (duration : timedelta)
    (intervals : list Z) : list schedule :=
  imap (λ i offset,
          let new_dep_dt := (dep_dt + hours offset)%Z in
          let new_arr_dt := (new_dep_dt + duration)%Z in
          Schedule (strftime (dt_time new_dep_dt))
                   (strftime (dt_time new_arr_dt)) (i + 1)) intervals.

(** [Mapcreate_minimal_trains.py]. *)
Definition minimal_intervals (efficiency_level : string) : list Z :=
  if String.eqb efficiency_level "maximum" then [0; 4; 8; 12; 16; 20]%Z
  else if String.eqb efficiency_level "high" then [0; 6; 12; 18]%Z
  else if String.eqb efficiency_level "medium" then [0; 8; 16]%Z
  else [0; 12]%Z.

Definition create_minimal_timing_strategy
    (base_departure base_arrival efficiency_level : string)
  : option (list schedule) :=
  '(dep_dt, duration) ← journey base_departure base_arrival;
  Some (expand dep_dt duration (minimal_intervals efficiency_level)).

(** [Mapultra_optimize_trains.py]. *)
Definition smart_intervals (train_priority : string) : list Z :=
  if String.eqb train_priority "ultra_high" then [0; 6; 12; 18]%Z
  else if String.eqb train_priority "high" then [0; 8; 16]%Z
  else if String.eqb train_priority "medium" then [0; 12]%Z
  else [0]%Z.

Definition create_smart_timing
    (base_departure base_arrival train_priority : string)
  : option (list schedule) :=
  '(dep_dt, duration) ← journey base_departure base_arrival;
  Some (expand dep_dt duration (smart_intervals train_priority)).

(** [optimize_trains.py]. *)
Definition continuous_intervals (frequency : string) : list Z :=
  if String.eqb frequency "high" then [0; 4; 8; 12; 16; 20]%Z
  else if String.eqb frequency "medium" then [0; 8; 16]%Z
  else [0]%Z.

Definition create_continuous_timing
    (base_departure base_arrival frequency : string)
  : option (list schedule) :=
  '(dep_dt, duration) ← journey base_departure base_arrival;
  Some (expand dep_dt duration (continuous_intervals frequency)).

(** [create_always_running.py], [create_continuous_schedule]: the times
    of the entries it builds.  The intervals come from the train's name
    (a policy outside this development) and are a parameter here; both
    times are shifted by the offset, no duration is computed. *)
Definition create_continuous_schedule
    (base_departure base_arrival : string) (intervals : list Z)
  : option (list (string * string)) :=
  dep_time ← parse_time base_departure;
  arr_time ← parse_time base_arrival;
  Some ((λ offset,
           (strftime (dt_time (combine dep_time + hours offset)%Z),
            strftime (dt_time (combine arr_time + hours offset)%Z)))
          <$> intervals).

(** The entries an optimizer publishes for one route: one per schedule,
    with the schedule's times. *)
Definition published (schedules : list schedule) : list train_entry :=
  (λ s, TrainEntry (s_departure s) (s_arrival s)) <$> schedules.

End Expansion.

(** ** Gap analysis and backfill of the ultra optimizer *)

Module Backfill.
Import Clock Coverage Expansion.

(** An element of [trains_with_schedules]; the [train] dictionary it
    also carries is not read by [ensure_24x7_coverage]. *)
Record train_data := TrainData {
  schedules : list schedule;
  priority_score : Z
}.

(** "Count trains active at each hour": the nested loop over trains and
    their schedules. *)
Definition hourly_coverage (trains_with_schedules : list train_data)
  : option (list nat) :=
  foldl (λ acc td,
           foldl (λ acc s, cov ← acc; mark_train cov (s_departure s) (s_arrival s))
                 acc (schedules td))
        (Some zeros) trains_with_schedules.

Definition min_coverage_needed : nat := 15.

(** [[h for h in range(24) if hourly_coverage[h] < min_coverage_needed]]. *)
Definition gap_hours_of (cov : list nat) : list nat :=
  filter (λ h, default 0 (cov !! h) < min_coverage_needed) (seq 0 24).

(** One pass of [for gap_hour in gap_hours[:2]] for a train:
    [additional] is the list built so far. *)
Definition gap_schedule (td : train_data) (additional : list schedule)
    (gap_hour : nat) : option schedule :=
  let gap_dep_time := (two gap_hour ++ ":00:00")%string in
  first ← head (schedules td);
  base_dep ← combine <$> strptime (s_departure first);
  base_arr ← combine <$> strptime (s_arrival first);
  let duration := (base_arr - base_dep)%Z in
  let duration := if (duration <? 0)%Z then (duration + one_day)%Z else duration in
  gap_dep_dt ← combine <$> strptime gap_dep_time;
  let gap_arr_dt := (gap_dep_dt + duration)%Z in
  Some (Schedule (strftime (dt_time gap_dep_dt)) (strftime (dt_time gap_arr_dt))
                 (length (schedules td) + length additional + 1)).

Definition additional_schedules (td : train_data) (gap_hours : list nat)
  : option (list schedule) :=
  foldl (λ acc gap_hour,
           additional ← acc;
           s ← gap_schedule td additional gap_hour;
           Some (additional ++ [s]))
        (Some []) (take 2 gap_hours).

(** [for train_data in ...: if train_data['priority_score'] > 140: ...
    train_data['schedules'].extend(additional_schedules); break].  The
    list is updated in place; the model returns the updated list. *)
Fixpoint add_to_first_premium (trains : list train_data) (gap_hours : list nat)
  : option (list train_data) :=
  match trains with
  | [] => Some []
  | td :: rest =>
      if (140 <? priority_score td)%Z then
        extra ← additional_schedules td gap_hours;
        Some (TrainData (schedules td ++ extra) (priority_score td) :: rest)
      else
        rest' ← add_to_first_premium rest gap_hours;
        Some (td :: rest')
  end.

(** [ensure_24x7_coverage]: what it returns ([None]: an exception left it). *)
Definition ensure_24x7_coverage (trains_with_schedules : list train_data)
  : option (list train_data) :=
  cov ← hourly_coverage trains_with_schedules;
  match gap_hours_of cov with
  | [] => Some trains_with_schedules
  | gap_hours =>
      top ← add_to_first_premium (take 10 trains_with_schedules) gap_hours;
      Some (top ++ drop 10 trains_with_schedules)
  end.

End Backfill.

(** ** Coordinate reduction of the optimizers *)

Module Reduction.

(** The elements at positions [skip], [skip + step], [skip + 2 * step], ...
    for [step >= 1]. *)
Fixpoint every_nth {A} (step skip : nat) (l : list A) : list A :=
  match l with
  | [] => []
  | x :: l' =>
      match skip with
      | 0 => x :: every_nth step (step - 1) l'
      | S skip' => every_nth step skip' l'
      end
  end.

(** [l[::step]]; Python raises [ValueError] for a step of zero. *)
Definition slice_step {A} (step : nat) (l : list A) : option (list A) :=
  if step =? 0 then None else Some (every_nth step 0 l).

(** [if len(route_coords) > cap: step = len(route_coords) // k;
    route_coords = route_coords[::step]]. *)
Definition reduce_coords {A} (cap k : nat) (route_coords : list A)
  : option (list A) :=
  if cap <? length route_coords then
    slice_step (length route_coords / k) route_coords
  else Some route_coords.

(** [create_ultra_optimized_trains], [create_minimal_maximal_trains] and
    [create_optimized_trains]. *)
Definition ultra_route_coords {A} : list A → option (list A) := reduce_coords 15 12.
Definition minimal_route_coords {A} : list A → option (list A) := reduce_coords 10 8.
Definition optimized_route_coords {A} : list A → option (list A) := reduce_coords 30 25.

End Reduction.

(** ** Geometry shared by the alignment scripts *)

Module Geometry.
Local Open Scope float_scope.

(** A JSON coordinate array, [[lon, lat]] when well formed. *)
Abbreviation lonlat := (list float).

(** The [geometry] of a GeoJSON feature, by its [type]. *)
Inductive geometry :=
| LineString (coordinates : list lonlat)
| MultiLineString (coordinates : list (list lonlat))
| OtherGeometry (type : string).

(** A loop whose body may raise: the state is threaded through [option]. *)
Definition fold_opt {S X} (body : S → X → option S) (init : S) (l : list X)
  : option S :=
  foldl (λ acc x, st ← acc; body st x) (Some init) l.

(** The builtins [min(a, b)] and [max(a, b)]: the first argument is kept
    unless the second compares strictly below (above) it. *)
Definition py_min (a b : float) : float := if b <? a then b else a.
Definition py_max (a b : float) : float := if a <? b then b else a.

(** The operations of Python's floats that the kernel's floats lack:
    the functions of the [math] module and the power [x ** 2], which is
    the [pow(x, 2.0)] of the C library.  [math.sin] and [math.cos] raise
    [ValueError] on an infinity, [x ** 2] raises [OverflowError] when
    the square of a finite [x] is out of range.  Nothing else is
    assumed of them. *)
Class MathLib := {
  math_sin : float → option float;
  math_cos : float → option float;
  math_atan2 : float → float → float;
  pow_2 : float → option float
}.

Definition math_pi : float := 0x1.921fb54442d18p+1.

(** [math.radians]. *)
Definition math_radians (x : float) : float := x * (math_pi / 180).

(** [math.sqrt]: a [ValueError] below zero. *)
Definition math_sqrt (x : float) : option float :=
  if x <? 0 then None else Some (sqrt x).

(** [haversine_distance] of [fix_train_routes.py]; [distance_km] of
    [fix_alignment.py] is the same expression. *)
Definition haversine_distance `{MathLib} (lat1 lon1 lat2 lon2 : float)
  : option float :=
  let R := 6371 in
  let lat1_rad := math_radians lat1 in
  let lat2_rad := math_radians lat2 in
  let delta_lat := math_radians (lat2 - lat1) in
  let delta_lon := math_radians (lon2 - lon1) in
  s_lat ← math_sin (delta_lat / 2);
  c1 ← math_cos lat1_rad;
  c2 ← math_cos lat2_rad;
  s_lon ← math_sin (delta_lon / 2);
  let a := s_lat * s_lat + c1 * c2 * s_lon * s_lon in
  r1 ← math_sqrt a;
  r2 ← math_sqrt (1 - a);
  let c := 2 * math_atan2 r1 r2 in
  Some (R * c).

(** The scan of [find_nearest_track_point] ([fix_train_routes.py]) and of
    [find_nearest_railway_point] ([fix_alignment.py]) over the points:
    [if dist < min_dist and dist <= max_distance_km: ...]. *)
Definition nearest_scan {P} (dist : P → option float) (max_distance_km : float)
    (points : list P) : option (option P * float) :=
  fold_opt (λ '(nearest, min_dist) point,
              d ← dist point;
              if (d <? min_dist) && (d <=? max_distance_km)
              then Some (Some point, d)
              else Some (nearest, min_dist))
           (None, infinity) points.

End Geometry.

(** ** [fix_train_alignment.py]: snapping onto the nearest segment *)

Module TrainAlignment.
Import Geometry.
Local Open Scope float_scope.

(** [x, y = point]: exactly two components, or a [ValueError]. *)
Definition unpack2 (c : lonlat) : option (float * float) :=
  match c with
  | [x; y] => Some (x, y)
  | _ => None
  end.

(** The clamped parameter of the projection of [(x0, y0)] on a segment. *)
Definition projection_t (x0 y0 x1 y1 x2 y2 line_length_squared : float) : float :=
  py_max 0 (py_min 1
    (((x0 - x1) * (x2 - x1) + (y0 - y1) * (y2 - y1)) / line_length_squared)).

(** [(x2 - x1)**2 + (y2 - y1)**2]: the left square is taken first. *)
Definition squared_length `{MathLib} (dx dy : float) : option float :=
  a ← pow_2 dx;
  b ← pow_2 dy;
  Some (a + b).

Definition distance_point_to_line `{MathLib} (point line_start line_end : lonlat)
  : option float :=
  '(x0, y0) ← unpack2 point;
  '(x1, y1) ← unpack2 line_start;
  '(x2, y2) ← unpack2 line_end;
  line_length_squared ← squared_length (x2 - x1) (y2 - y1);
  if line_length_squared =? 0 then
    s ← squared_length (x0 - x1) (y0 - y1);
    math_sqrt s
  else
    let t := projection_t x0 y0 x1 y1 x2 y2 line_length_squared in
    let projection_x := x1 + t * (x2 - x1) in
    let projection_y := y1 + t * (y2 - y1) in
    s ← squared_length (x0 - projection_x) (y0 - projection_y);
    math_sqrt s.

(** "Find the closest point on the line segment". *)
Definition closest_on_segment `{MathLib} (lon lat : float)
    (start_point end_point : lonlat) : option lonlat :=
  '(x1, y1) ← unpack2 start_point;
  '(x2, y2) ← unpack2 end_point;
  line_length_squared ← squared_length (x2 - x1) (y2 - y1);
  if line_length_squared =? 0 then Some start_point
  else
    let t := projection_t lon lat x1 y1 x2 y2 line_length_squared in
    Some [x1 + t * (x2 - x1); y1 + t * (y2 - y1)].

(** [for i in range(len(line_coords) - 1)]: the pairs
    [(line_coords[i], line_coords[i + 1])]. *)
Definition segments_of (line_coords : list lonlat) : list (lonlat * lonlat) :=
  zip line_coords (drop 1 line_coords).

(** The body of the innermost loop; the state is
    [(min_distance, best_point)]. *)
Definition visit_segment `{MathLib} (lon lat : float) (st : float * lonlat)
    (seg : lonlat * lonlat) : option (float * lonlat) :=
  let '(min_distance, best_point) := st in
  let '(start_point, end_point) := seg in
  distance ← distance_point_to_line [lon; lat] start_point end_point;
  if distance <? min_distance then
    best ← closest_on_segment lon lat start_point end_point;
    Some (distance, best)
  else Some st.

Definition visit_feature `{MathLib} (lon lat : float) (st : float * lonlat)
    (feature : geometry) : option (float * lonlat) :=
  match feature with
  | MultiLineString lines =>
      fold_opt (λ st line_coords,
                  fold_opt (visit_segment lon lat) st (segments_of line_coords))
               st lines
  | _ => Some st
  end.

Definition find_nearest_railway_point `{MathLib} (train_point : lonlat)
    (railway_lines : list geometry) : option lonlat :=
  '(lon, lat) ← unpack2 train_point;
  snd <$> fold_opt (visit_feature lon lat) (infinity, train_point) railway_lines.

(** [create_railway_aligned_routes], for one train: the
    [route_coordinates] of the entry appended to [fixed_trains]. *)
Definition aligned_route `{MathLib} (original_coords : list lonlat)
    (railway_lines : list geometry) : option (list lonlat) :=
  match original_coords with
  | [] => Some original_coords
  | _ =>
      aligned_coords ←
        fold_opt (λ aligned_coords coord,
                    if (2 <=? length coord)%nat then
                      aligned_point ← find_nearest_railway_point coord railway_lines;
                      Some (aligned_coords ++ [aligned_point])
                    else Some aligned_coords)
                 [] original_coords;
      match aligned_coords with
      | [] => Some original_coords
      | _ => Some aligned_coords
      end
  end.

End TrainAlignment.

(** ** [fix_alignment.py]: snapping onto the nearest network vertex *)

Module Alignment.
Import Geometry.
Local Open Scope float_scope.

(** [railway_points.append([coord[1], coord[0]])  # [lat, lng]]. *)
Definition vertex (c : lonlat) : list (float * float) :=
  match c with
  | lng :: lat :: _ => [(lat, lng)]
  | _ => []
  end.

Definition load_railway_network (features : list geometry)
  : list (float * float) :=
  features ≫= λ geom,
    match geom with
    | LineString coords => coords ≫= vertex
    | MultiLineString lines => lines ≫= λ line, line ≫= vertex
    | OtherGeometry _ => []
    end.

Definition find_nearest_railway_point `{MathLib} (target_lat target_lng : float)
    (railway_points : list (float * float)) (max_distance_km : float)
  : option (option (float * float) * float) :=
  match railway_points with
  | [] => Some (None, infinity)
  | _ =>
      nearest_scan (λ point, haversine_distance target_lat target_lng point.1 point.2)
                   max_distance_km railway_points
  end.

Definition snap_threshold_km : float := 2.0.
Definition max_distance_km : float := 5.

(** The body of [for coord in route_coords]; the state is
    [(aligned_coords, alignment_improved)]. *)
Definition align_coord `{MathLib} (railway_points : list (float * float))
    (st : list lonlat * bool) (coord : lonlat) : option (list lonlat * bool) :=
  let '(aligned_coords, alignment_improved) := st in
  match coord with
  | lng :: lat :: _ =>
      '(nearest, dist) ← find_nearest_railway_point lat lng railway_points max_distance_km;
      match nearest with
      | Some point =>
          if dist <? snap_threshold_km then
            Some (aligned_coords ++ [[point.2; point.1]],
                  if 0.1 <? dist then true else alignment_improved)
          else Some (aligned_coords ++ [coord], alignment_improved)
      | None => Some (aligned_coords ++ [coord], alignment_improved)
      end
  | _ => Some st
  end.

Definition aligned_coords_of `{MathLib} (railway_points : list (float * float))
    (route_coords : list lonlat) : option (list lonlat * bool) :=
  fold_opt (align_coord railway_points) ([], false) route_coords.

(** [align_train_routes], for one train: its [route_coordinates]
    afterwards. *)
Definition align_train_route `{MathLib} (railway_points : list (float * float))
    (route_coords : list lonlat) : option (list lonlat) :=
  match route_coords with
  | [] => Some route_coords
  | _ =>
      match aligned_coords_of railway_points route_coords with
      | Some (aligned_coords, alignment_improved) =>
          if alignment_improved then Some aligned_coords else Some route_coords
      | None => None
      end
  end.

End Alignment.

(** ** [fix_train_routes.py]: densifying sparse routes and snapping *)

Module TrainRoutes.
Import Geometry.
Local Open Scope float_scope.

(** [{'lat': coord[1], 'lon': coord[0]}]. *)
Record track_point := TrackPoint { lat : float; lon : float }.

Definition track_vertex (c : lonlat) : list track_point :=
  match c with
  | lon :: lat :: _ => [TrackPoint lat lon]
  | _ => []
  end.

Definition load_railway_network (features : list geometry) : list track_point :=
  features ≫= λ geom,
    match geom with
    | LineString coords => coords ≫= track_vertex
    | MultiLineString lines => lines ≫= λ line, line ≫= track_vertex
    | OtherGeometry _ => []
    end.

Definition find_nearest_track_point `{MathLib} (lat0 lon0 : float)
    (track_points : list track_point) (max_distance_km : float)
  : option (option track_point * float) :=
  nearest_scan (λ tp, haversine_distance lat0 lon0 (lat tp) (lon tp))
               max_distance_km track_points.

(** The body of [for coord in route_coordinates] in
    [snap_route_to_tracks]. *)
Definition snap_coord `{MathLib} (track_points : list track_point)
    (snapped_route : list lonlat) (coord : lonlat) : option (list lonlat) :=
  match coord with
  | original_lon :: original_lat :: _ =>
      match find_nearest_track_point original_lat original_lon track_points 20 with
      | Some (Some nearest_track, _) =>
          Some (snapped_route ++ [[lon nearest_track; lat nearest_track]])
      | Some (None, _) => Some (snapped_route ++ [coord])
      | None => None
      end
  | _ => Some snapped_route
  end.

Definition snap_route_to_tracks `{MathLib} (route_coordinates : list lonlat)
    (track_points : list track_point) : option (list lonlat) :=
  fold_opt (snap_coord track_points) [] route_coordinates.

(** The conversion of a small Python [int] to [float] (exact). *)
Fixpoint float_of_nat (n : nat) : float :=
  match n with
  | O => 0
  | S n' => float_of_nat n' + 1
  end.

(** The interpolated point of step [i], before it is snapped:
    [(interp_lon, interp_lat)]. *)
Definition interpolate `{MathLib} (start_lat start_lon end_lat end_lon : float)
    (num_points i : nat) : option (float * float) :=
  let ratio := float_of_nat i / float_of_nat (num_points + 1) in
  let interp_lat := start_lat + ratio * (end_lat - start_lat) in
  let interp_lon := start_lon + ratio * (end_lon - start_lon) in
  s ← math_sin (ratio * math_pi);
  let curve_factor := 0.3 * s in
  let interp_lat := interp_lat + curve_factor * (end_lat - start_lat) * 0.1 in
  let interp_lon := interp_lon + curve_factor * (end_lon - start_lon) * 0.1 in
  Some (interp_lon, interp_lat).

(** The body of [for i in range(1, num_points + 1)]. *)
Definition intermediate_point `{MathLib} (start_lat start_lon end_lat end_lon : float)
    (track_points : list track_point) (num_points i : nat) : option lonlat :=
  match interpolate start_lat start_lon end_lat end_lon num_points i with
  | Some (interp_lon, interp_lat) =>
      match find_nearest_track_point interp_lat interp_lon track_points 15 with
      | Some (Some nearest_track, _) => Some [lon nearest_track; lat nearest_track]
      | Some (None, _) => Some [interp_lon; interp_lat]
      | None => None
      end
  | None => None
  end.

Definition create_realistic_intermediate_points `{MathLib}
    (start_coord end_coord : lonlat) (track_points : list track_point)
    (num_points : nat) : option (list lonlat) :=
  match start_coord, end_coord with
  | start_lon :: start_lat :: _, end_lon :: end_lat :: _ =>
      fold_opt (λ intermediate_points i,
                  p ← intermediate_point start_lat start_lon end_lat end_lon
                        track_points num_points i;
                  Some (intermediate_points ++ [p]))
               [] (seq 1 num_points)
  | _, _ => Some []
  end.

(** [fix_train_routes], for one train: its [route_coordinates]
    afterwards. *)
Definition fix_route `{MathLib} (route_coords : list lonlat)
    (track_points : list track_point) : option (list lonlat) :=
  if (length route_coords <? 2)%nat then Some route_coords
  else if (length route_coords <? 8)%nat then
    match head route_coords, last route_coords with
    | Some start_coord, Some end_coord =>
        intermediate_points ←
          create_realistic_intermediate_points start_coord end_coord track_points 6;
        snap_route_to_tracks ([start_coord] ++ intermediate_points ++ [end_coord])
                             track_points
    | _, _ => None
    end
  else snap_route_to_tracks route_coords track_points.

End TrainRoutes.

(** ** Notions used to state the properties *)

Module Notions.
Import Clock Coverage Expansion Backfill Geometry.

(** [hourly_coverage[h]]. *)
Definition bucket (cov : list nat) (h : nat) : nat := default 0 (cov !! h).

(** Hour [h] lies in the span of an instance leaving in hour [d] and
    arriving in hour [a]: [d..a] when [a > d], else [d..23] and [0..a]. *)
Definition in_span (d a h : nat) : Prop :=
  (d < a ∧ d ≤ h ∧ h ≤ a) ∨ (a ≤ d ∧ ((d ≤ h ∧ h ≤ 23) ∨ h ≤ a)).

(** 1 when [start <= h < stop], else 0. *)
Definition in_range (start stop h : nat) : nat :=
  if bool_decide (start ≤ h ∧ h < stop) then 1 else 0.

(** How many times one instance increments bucket [h]. *)
Definition hits (d a h : nat) : nat :=
  if a <=? d then in_range d 24 h + in_range 0 (a + 1) h
  else in_range d (a + 1) h.


(** The bucket-wise sum of two histograms. *)
Definition add_histograms (c1 c2 : list nat) : list nat := zip_with Nat.add c1 c2.

Definition add_results (r1 r2 : option (list nat)) : option (list nat) :=
  c1 ← r1; c2 ← r2; Some (add_histograms c1 c2).

(** All the entries the nested loop of [ensure_24x7_coverage] visits,
    in its order. *)
Definition all_entries (tws : list train_data) : list train_entry :=
  tws ≫= λ td, published (schedules td).

(** [extra] holds one schedule per gap hour of [gaps], in that order,
    each leaving at its gap hour sharp, and all of them parse. *)
Definition added_for (gaps : list nat) (extra : list schedule) : Prop :=
  s_departure <$> extra = (λ g, (two g ++ ":00:00")%string) <$> gaps
  ∧ Forall (λ s, is_Some (strptime (s_departure s)) ∧ is_Some (strptime (s_arrival s)))
           extra
  ∧ ∀ g, g ∈ gaps →
      ∃ s, s ∈ extra ∧ strptime (s_departure s) = Some (Time g 0 0).

(** [out] is the stride slice [coords[::step]]: element [i] of [out] is
    element [i * step] of [coords], so [out] keeps the order of
    [coords] and starts with its first element. *)
Definition stride_slice_of {A} (step : nat) (coords out : list A) : Prop :=
  1 ≤ step
  ∧ (∀ i, out !! i = coords !! (i * step))
  ∧ out `sublist_of` coords
  ∧ head out = head coords.

(** The lines of a network: the coordinate list of a [LineString], each
    coordinate list of a [MultiLineString]. *)
Definition network_lines (features : list geometry) : list (list lonlat) :=
  features ≫= λ geom,
    match geom with
    | LineString coords => [coords]
    | MultiLineString lines => lines
    | OtherGeometry _ => []
    end.

(** [[lng, lat]] starts a coordinate array of some line of the network. *)
Definition network_vertex (features : list geometry) (lng lat : float) : Prop :=
  ∃ line rest, line ∈ network_lines features ∧ (lng :: lat :: rest) ∈ line.

(** The segments [fix_train_alignment.py] scans: consecutive coordinates
    of the lines of the [MultiLineString] features. *)
Definition multiline_segments (features : list geometry)
  : list (lonlat * lonlat) :=
  features ≫= λ geom,
    match geom with
    | MultiLineString lines => lines ≫= TrainAlignment.segments_of
    | _ => []
    end.


(** A coordinate array with at least two components. *)
Definition well_formed (c : lonlat) : Prop := 2 ≤ length c.


(** A coordinate array of exactly two components. *)
Definition two_components (c : lonlat) : Prop := length c = 2.



(** The distance from [(lat0, lon0)] to a track point. *)
Definition track_distance `{MathLib} (lat0 lon0 : float)
    (tp : TrainRoutes.track_point) : option float :=
  haversine_distance lat0 lon0 (TrainRoutes.lat tp) (TrainRoutes.lon tp).

(** [tp] is a track point nearest to [(lat0, lon0)] within [radius]: it
    is at distance [d], within the radius, and no track point within
    the radius is strictly nearer. *)
Definition nearest_track `{MathLib} (tracks : list TrainRoutes.track_point)
    (radius lat0 lon0 : float) (tp : TrainRoutes.track_point) (d : float) : Prop :=
  tp ∈ tracks
  ∧ track_distance lat0 lon0 tp = Some d
  ∧ PrimFloat.leb d radius = true
  ∧ ∀ tp' d', tp' ∈ tracks → track_distance lat0 lon0 tp' = Some d' →
      PrimFloat.leb d' radius = true → PrimFloat.ltb d' d = false.

(** No track point lies within [radius] of [(lat0, lon0)]. *)
Definition no_track_within `{MathLib} (tracks : list TrainRoutes.track_point)
    (radius lat0 lon0 : float) : Prop :=
  ∀ tp' d', tp' ∈ tracks → track_distance lat0 lon0 tp' = Some d' →
    PrimFloat.leb d' radius = false.

(** [q] is what snapping the route point [coord] gives with search
    radius [radius]: a nearest track point within the radius when there
    is one, and [coord] itself when no track point lies within the
    radius. *)
Definition snapped_to_track `{MathLib} (tracks : list TrainRoutes.track_point)
    (radius : float) (coord q : lonlat) : Prop :=
  ∃ lon0 lat0 rest,
    coord = lon0 :: lat0 :: rest
    ∧ ((∃ tp d, nearest_track tracks radius lat0 lon0 tp d
                ∧ q = [TrainRoutes.lon tp; TrainRoutes.lat tp])
       ∨ (no_track_within tracks radius lat0 lon0 ∧ q = coord)).

(** The point synthesized at step [i] of [num_points] between a start
    and an end: the linear interpolation at [ratio = i / (num_points + 1)]
    moved by [0.3 * sin(ratio * pi) * (end - start) * 0.1] in each
    coordinate. *)
Definition interpolated `{MathLib} (start_lat start_lon end_lat end_lon : float)
    (num_points i : nat) (ilon ilat : float) : Prop :=
  let ratio :=
    (TrainRoutes.float_of_nat i / TrainRoutes.float_of_nat (num_points + 1))%float in
  ∃ s, math_sin (ratio * math_pi)%float = Some s
       ∧ ilat = (start_lat + ratio * (end_lat - start_lat)
                 + 0.3 * s * (end_lat - start_lat) * 0.1)%float
       ∧ ilon = (start_lon + ratio * (end_lon - start_lon)
                 + 0.3 * s * (end_lon - start_lon) * 0.1)%float.

(** The intermediate point of step [i]: the track point nearest to the
    interpolated point within 15 km when there is one, else the
    interpolated point. *)
Definition synthesized `{MathLib} (start_coord end_coord : lonlat)
    (tracks : list TrainRoutes.track_point) (num_points i : nat) (q : lonlat) : Prop :=
  ∃ start_lon start_lat r1 end_lon end_lat r2 ilon ilat,
    start_coord = start_lon :: start_lat :: r1
    ∧ end_coord = end_lon :: end_lat :: r2
    ∧ interpolated start_lat start_lon end_lat end_lon num_points i ilon ilat
    ∧ snapped_to_track tracks 15 [ilon; ilat] q.

(** No distance from the route point [coord] to a track point raises
    (nothing is computed for a coordinate of fewer than two
    components). *)
Definition distances_defined `{MathLib} (tracks : list TrainRoutes.track_point)
    (coord : lonlat) : Prop :=
  match coord with
  | lon0 :: lat0 :: _ => Forall (λ tp, is_Some (track_distance lat0 lon0 tp)) tracks
  | _ => True
  end.

(** Nothing raises while the route from [start_coord] to [end_coord] is
    densified: each of the six interpolated points is computed
    ([math.sin] returns at its ratio) and the distances to the track
    points are defined from it, from the two ends and from the track
    points themselves. *)
Definition densify_defined `{MathLib} (start_coord end_coord : lonlat)
    (tracks : list TrainRoutes.track_point) : Prop :=
  distances_defined tracks start_coord
  ∧ distances_defined tracks end_coord
  ∧ Forall (λ tp, distances_defined tracks [TrainRoutes.lon tp; TrainRoutes.lat tp])
           tracks
  ∧ match start_coord, end_coord with
    | start_lon :: start_lat :: _, end_lon :: end_lat :: _ =>
        Forall (λ i, ∃ ilon ilat,
                  TrainRoutes.interpolate start_lat start_lon end_lat end_lon 6 i
                  = Some (ilon, ilat)
                  ∧ distances_defined tracks [ilon; ilat])
               (seq 1 6)
    | _, _ => True
    end.

(** No distance from the train point [coord] to a segment of the
    network raises in [fix_train_alignment.py]. *)
Definition segment_distances_defined `{MathLib} (railway_lines : list geometry)
    (coord : lonlat) : Prop :=
  Forall (λ seg, is_Some (TrainAlignment.distance_point_to_line coord seg.1 seg.2))
         (multiline_segments railway_lines).

(** An instance of [MathLib] to run the definitions on examples: the
    first terms of the series of sine, cosine and arc tangent (for a
    positive second argument), good for differences of a few degrees,
    and the product [x * x], out of range when it is infinite for a
    finite [x]. *)
Definition series_sin (x : float) : float :=
  (x - x * x * x / 6 + x * x * x * x * x / 120)%float.
Definition series_cos (x : float) : float :=
  (1 - x * x / 2 + x * x * x * x / 24)%float.
Definition series_atan2 (y x : float) : float :=
  let z := (y / x)%float in (z - z * z * z / 3)%float.

Definition product_pow_2 (x : float) : option float :=
  let y := (x * x)%float in
  if is_infinity y && negb (is_infinity x) then None else Some y.

#[export] Instance series_math : MathLib := {|
  math_sin x := Some (series_sin x);
  math_cos x := Some (series_cos x);
  math_atan2 := series_atan2;
  pow_2 := product_pow_2
|}.

End Notions.

(** ** Scoring and selection of the optimizers *)

Module Selection.
Import Clock Coverage Expansion Backfill.

(** The fields of a train entry the optimizers read.  [train_number] is
    [train.get('train_number')], [None] when the key is missing; the
    texts and the lists are the values after the default of their
    [get] (an empty text, an empty list); [distance] is
    [train_entry.get('distance', 0)], a whole number of kilometres (0
    when the key is missing) or [None] when the entry holds a JSON
    [null], which the scripts meet ([optimize_trains.py] guards it with
    [distance or 0]); the two times are [None] when their key is
    missing. *)
Record train := Train {
  train_number : option string;
  train_name : string;
  train_type : string;
  distance : option Z;
  stations : list string;
  route_coordinates : list (list float);
  from_station_name : string;
  to_station_name : string;
  train_departure : option string;
  train_arrival : option string
}.

(** [str.upper()] on ASCII text. *)
Definition upper_char (c : ascii) : ascii :=
  let n := nat_of_ascii c in
  if (97 <=? n) && (n <=? 122) then ascii_of_nat (n - 32) else c.

Fixpoint upper (s : string) : string :=
  match s with
  | EmptyString => EmptyString
  | String c s' => String (upper_char c) (upper s')
  end.

(** [x in s] for two texts. *)
Fixpoint contains (x s : string) : bool :=
  String.prefix x s
  || match s with
     | EmptyString => false
     | String _ s' => contains x s'
     end.

(** [any(x in s for x in xs)]. *)
Definition any_in (xs : list string) (s : string) : bool :=
  existsb (λ x, contains x s) xs.

Definition major_cities : list string :=
  ["DELHI"; "MUMBAI"; "KOLKATA"; "CHENNAI"; "BANGALORE"; "HYDERABAD";
   "PUNE"; "AHMEDABAD"; "KANPUR"; "LUCKNOW"; "NAGPUR"; "BHOPAL";
   "JAIPUR"; "SURAT"; "PATNA"; "INDORE"; "VADODARA"; "GUWAHATI"]%string.



(** Equality of dictionary keys. *)
#[export] Instance string_eq_dec : EqDecision string := String.string_dec.

(** "Get unique trains": the values of [trains_dict] in insertion
    order, the dictionary as the list of its values. *)
Definition unique_trains (trains : list train) : list train :=
  foldl (λ trains_dict train,
           if bool_decide (train_number train ∈ train_number <$> trains_dict)
           then trains_dict
           else trains_dict ++ [train])
        [] trains.

(** [for train in unique_trains: score = ...; if score >= threshold:
    scored_trains.append((score, train))]. *)
Definition scored_trains (score : train → Z) (threshold : Z) (trains : list train)
  : list (Z * train) :=
  trains ≫= λ train,
    let s := score train in
    if (threshold <=? s)%Z then [(s, train)] else [].


(** [scored_trains.sort(key=lambda x: x[0], reverse=True)]: the sort is
    stable, entries of equal score keep their order.  The stable
    sorted arrangement of a list is unique; it is computed here by
    insertion. *)
Fixpoint insert_by_score (x : Z * train) (l : list (Z * train)) : list (Z * train) :=
  match l with
  | [] => [x]
  | y :: l' => if (x.1 <? y.1)%Z then y :: insert_by_score x l' else x :: l
  end.

Definition sort_by_score (l : list (Z * train)) : list (Z * train) :=
  foldr insert_by_score [] l.

(** [scored_trains[:n]] after the sort. *)
Definition top_trains (score : train → Z) (threshold : Z) (n : nat)
    (trains : list train) : list (Z * train) :=
  take n (sort_by_score (scored_trains score threshold trains)).










(** The decimal text of a non-negative [int]. *)
Definition decimal (n : nat) : string :=
  DecimalString.NilZero.string_of_uint (Nat.to_uint n).


Definition format_03d (n : nat) : string :=
  if n <? 10 then ("00" ++ decimal n)%string
  else if n <? 100 then ("0" ++ decimal n)%string
  else decimal n.

Definition optimized_train_id (i : nat) : string := ("OPT" ++ format_03d (i + 1))%string.
Definition always_train_id (i : nat) : string := ("T" ++ format_03d (i + 1))%string.

(** The [id] of an output entry:
    [f"{train_id}_{schedule['schedule_id']}" if schedule['schedule_id']
    > 1 else train_id]. *)
Definition entry_id (train_id : string) (schedule_id : nat) : string :=
  if 1 <? schedule_id then (train_id ++ "_" ++ decimal schedule_id)%string
  else train_id.



(** [calculate_route_score] of [optimize_trains.py]; its
    [distance = distance or 0] turns a [None] distance into 0. *)
Definition calculate_route_score (train_entry : train) : Z :=
  let train_name := upper (train_name train_entry) in
  let train_type := upper (train_type train_entry) in
  let distance := default 0%Z (distance train_entry) in
  let stations := stations train_entry in
  let route_coords := route_coordinates train_entry in
  let score := 0%Z in
  let score :=
    if any_in ["RAJDHANI"; "SHATABDI"; "VANDE BHARAT"; "TEJAS"]%string train_name
    then (score + 100)%Z
    else if any_in ["DURONTO"; "GARIB RATH"; "HUMSAFAR"]%string train_name
    then (score + 90)%Z
    else if contains "SUPERFAST" train_name || contains "SF" train_name
    then (score + 80)%Z
    else if contains "EXPRESS" train_name then (score + 70)%Z
    else if any_in ["PASSENGER"; "LOCAL"]%string train_name then (score + 50)%Z
    else if any_in ["EMU"; "DEMU"; "MEMU"]%string train_type then (score + 60)%Z
    else score in
  let score :=
    if (1000 <? distance)%Z then (score + 30)%Z
    else if (500 <? distance)%Z then (score + 20)%Z
    else if (200 <? distance)%Z then (score + 10)%Z
    else score in
  let station_count := length stations in
  let score :=
    if 15 <? station_count then (score + 25)%Z
    else if 10 <? station_count then (score + 15)%Z
    else if 5 <? station_count then (score + 10)%Z
    else score in
  let score :=
    if 20 <? length route_coords then (score + 20)%Z
    else if 10 <? length route_coords then (score + 10)%Z
    else if 5 <? length route_coords then (score + 5)%Z
    else score in
  let major_cities :=
    ["DELHI"; "MUMBAI"; "KOLKATA"; "CHENNAI"; "BANGALORE"; "HYDERABAD";
     "PUNE"; "AHMEDABAD"; "KANPUR"; "LUCKNOW"; "NAGPUR"; "BHOPAL"]%string in
  let from_station := upper (from_station_name train_entry) in
  let to_station := upper (to_station_name train_entry) in
  if existsb (λ city, contains city from_station || contains city to_station)
             major_cities
  then (score + 15)%Z
  else score.

(** "Determine frequency based on train type". *)
Definition optimized_frequency (train_name : string) : string :=
  if any_in ["LOCAL"; "PASSENGER"; "EMU"; "DEMU"]%string train_name then "high"%string
  else if any_in ["EXPRESS"; "SUPERFAST"]%string train_name then "medium"%string
  else "daily"%string.

(** The schedules of one selected train in [create_optimized_trains]. *)
Definition optimized_schedule (train_entry : train)
  : option (train * list schedule) :=
  let train_name := upper (train_name train_entry) in
  let frequency := optimized_frequency train_name in
  let base_departure := default "06:00:00"%string (train_departure train_entry) in
  let base_arrival := default "18:00:00"%string (train_arrival train_entry) in
  schedules ← create_continuous_timing base_departure base_arrival frequency;
  Some (train_entry, schedules).

(** [create_optimized_trains]: the selected trains with the schedules
    the output entries are built from, one entry per schedule. *)
Definition optimized_routes (trains : list train)
  : option (list (train * list schedule)) :=
  let selected_trains := snd <$> top_trains calculate_route_score 70 150 trains in
  mapM optimized_schedule selected_trains.

Definition optimized_train_ids (routes : list (train * list schedule)) : list string :=
  mjoin (imap (λ i route,
                 (λ schedule, entry_id (optimized_train_id i) (schedule_id schedule))
                   <$> route.2)
              routes).

(** [get_train_priority] of [create_always_running.py]. *)
Definition get_train_priority (train_entry : train) : Z :=
  let train_name := upper (train_name train_entry) in
  let train_type := upper (train_type train_entry) in
  let score := 0%Z in
  let score :=
    if any_in ["RAJDHANI"; "SHATABDI"; "DURONTO"; "VANDE BHARAT"]%string train_name
    then (score + 100)%Z
    else if any_in ["SUPERFAST"; "SF"]%string train_name then (score + 80)%Z
    else if contains "EXPRESS" train_name then (score + 60)%Z
    else if any_in ["PASSENGER"; "LOCAL"]%string train_name then (score + 30)%Z
    else if any_in ["EMU"; "DEMU"; "MEMU"]%string train_type then (score + 40)%Z
    else score in
  let station_count := length (stations train_entry) in
  let score :=
    if 10 <? station_count then (score + 20)%Z
    else if 5 <? station_count then (score + 10)%Z
    else score in
  if 5 <? length (route_coordinates train_entry) then (score + 15)%Z else score.

(** The offsets of [create_continuous_schedule], from the train's name. *)
Definition always_intervals (train_name : string) : list Z :=
  if any_in ["LOCAL"; "EMU"; "PASSENGER"]%string train_name
  then [0; 2; 4; 6; 8; 10; 12; 14; 16; 18; 20; 22]%Z
  else if any_in ["EXPRESS"; "SUPERFAST"]%string train_name then [0; 12]%Z
  else [0]%Z.

(** [create_continuous_schedule(train_entry, train_id)]: the times of
    the entries of one train. *)
Definition always_schedule (train_entry : train)
  : option (train * list (string * string)) :=
  let base_departure := default "06:00:00"%string (train_departure train_entry) in
  let base_arrival := default "18:00:00"%string (train_arrival train_entry) in
  times ← create_continuous_schedule base_departure base_arrival
            (always_intervals (upper (train_name train_entry)));
  Some (train_entry, times).

(** [create_always_running_trains]: every train is scored, the first
    200 of the sorted list get their schedules. *)
Definition always_running (trains : list train)
  : option (list (train * list (string * string))) :=
  let scored_trains := (λ t, (get_train_priority t, t)) <$> trains in
  let top_trains := snd <$> take 200 (sort_by_score scored_trains) in
  mapM always_schedule top_trains.

(** [schedule_id = f"{train_id}_{i+1}" if i > 0 else train_id], for the
    train of index [i] and its entry of index [j]. *)
Definition always_ids (routes : list (train * list (string * string))) : list string :=
  mjoin (imap (λ i route, imap (λ j _, entry_id (always_train_id i) (j + 1)) route.2)
              routes).


End Selection.

(** ** [Mapverify_alignment.py]: the bounding box of the network *)

Module VerifyAlignment.
Import Geometry.
Local Open Scope float_scope.

(** The running bounds and the count of points. *)
Record bounds := Bounds {
  min_lat : float; max_lat : float;
  min_lng : float; max_lng : float;
  total_points : nat
}.

(** The body of [for coord in coords]. *)
Definition visit_coord (b : bounds) (coord : lonlat) : bounds :=
  match coord with
  | lng :: lat :: _ =>
      Bounds (py_min (min_lat b) lat) (py_max (max_lat b) lat)
             (py_min (min_lng b) lng) (py_max (max_lng b) lng)
             (total_points b + 1)
  | _ => b
  end.

Definition visit_geometry (b : bounds) (geom : geometry) : bounds :=
  match geom with
  | LineString coords => foldl visit_coord b coords
  | MultiLineString lines => foldl (λ b line, foldl visit_coord b line) b lines
  | OtherGeometry _ => b
  end.

(** "Extract railway bounds". *)
Definition railway_bounds (features : list geometry) : bounds :=
  foldl visit_geometry (Bounds infinity neg_infinity infinity neg_infinity 0) features.

(** [lat < min_lat or lat > max_lat or lng < min_lng or lng > max_lng]. *)
Definition off_bounds (b : bounds) (lng lat : float) : bool :=
  (lat <? min_lat b) || (max_lat b <? lat) || (lng <? min_lng b) || (max_lng b <? lng).

(** The count of one train. *)
Definition off_track_points (b : bounds) (route_coords : list lonlat) : nat :=
  foldl (λ off_track_points coord,
           match coord with
           | lng :: lat :: _ =>
               if off_bounds b lng lat then (off_track_points + 1)%nat
               else off_track_points
           | _ => off_track_points
           end)
        0%nat route_coords.

(** An entry of [off_track_trains] (without the name). *)
Record report := Report { off_track : nat; total : nat }.

(** [for i, train in enumerate(trains[:10])], a train given by its
    [route_coordinates]. *)
Definition off_track_trains (b : bounds) (trains : list (list lonlat)) : list report :=
  take 10 trains ≫= λ route_coords,
    match route_coords with
    | [] => []
    | _ =>
        let off_track_points := off_track_points b route_coords in
        if (0 <? off_track_points)%nat
        then [Report off_track_points (length route_coords)]
        else []
    end.

(** [(train['off_track_points'] / train['total_points']) * 100], a
    [ZeroDivisionError] when the total is 0. *)
Definition percentage (r : report) : option float :=
  if (total r =? 0)%nat then None
  else Some (TrainRoutes.float_of_nat (off_track r)
             / TrainRoutes.float_of_nat (total r) * 100).

End VerifyAlignment.

(** ** [build_routes.py]: grouping the stops by train *)

Module BuildRoutes.
Import Selection.

(** An entry of [stations.json]; [st["code"]] is required. *)
Record station := Station {
  code : string;
  name : option string;
  st_lat : option float;
  st_lng : option float
}.

(** An entry of [schedules.json]: the values of its [get] calls, [None]
    for a missing key. *)
Record stop := Stop {
  stop_train_number : option string;
  stop_train_name : option string;
  station_code : option string;
  station_name : option string;
  stop_arrival : option string;
  stop_departure : option string;
  day : option string
}.

(** The [stop_data] dictionary. *)
Record stop_data := StopData {
  sd_station_code : option string;
  sd_station_name : option string;
  sd_lat : option float;
  sd_lon : option float;
  sd_arrival : option string;
  sd_departure : option string;
  sd_day : option string
}.

(** An entry of [final]. *)
Record route := Route {
  r_train_number : string;
  r_train_name : string;
  r_route : list stop_data
}.

(** The truth value of a text that may be missing: [None] and the
    empty text are false. *)
Definition truthy (v : option string) : option string :=
  match v with
  | Some EmptyString => None
  | _ => v
  end.

(** [station_map.get(code)] for [station_map = {st["code"]: st for st
    in stations}]: a later station of the same code replaces an
    earlier one. *)
Definition station_map_get (stations : list station) (c : option string)
  : option station :=
  foldl (λ found st, if bool_decide (Some (code st) = c) then Some st else found)
        None stations.

(** The [stop_data] of a stop. *)
Definition stop_data_of (stations : list station) (s : stop) : stop_data :=
  let st_info := station_map_get stations (station_code s) in
  StopData (station_code s)
           (match st_info with
            | Some st => match name st with Some n => Some n | None => station_name s end
            | None => station_name s
            end)
           (st_info ≫= st_lat) (st_info ≫= st_lng)
           (stop_arrival s) (stop_departure s) (day s).

(** [routes[tn].append(stop_data)] on the dictionary [routes], kept as
    the list of its items in insertion order. *)
Definition routes_append (routes : list (string * list stop_data)) (tn : string)
    (sd : stop_data) : list (string * list stop_data) :=
  if bool_decide (tn ∈ routes.*1) then
    (λ kv, if bool_decide (kv.1 = tn) then (kv.1, kv.2 ++ [sd]) else kv) <$> routes
  else routes ++ [(tn, [sd])].

(** [train_names.get(tn)] on the dictionary kept as the list of its
    items. *)
Definition names_get (train_names : list (string * string)) (tn : string)
  : option string :=
  snd <$> head (filter (λ kv, kv.1 = tn) train_names).

(** The body of [for stop in schedules]; the state is
    [(routes, train_names)]. *)
Definition visit_stop (stations : list station)
    (st : list (string * list stop_data) * list (string * string)) (s : stop)
  : list (string * list stop_data) * list (string * string) :=
  let '(routes, train_names) := st in
  match truthy (stop_train_number s) with
  | None => st
  | Some tn =>
      let train_names :=
        match names_get train_names tn, truthy (stop_train_name s) with
        | None, Some n => train_names ++ [(tn, n)]
        | _, _ => train_names
        end in
      (routes_append routes tn (stop_data_of stations s), train_names)
  end.

(** The list [final] the script writes. *)
Definition build_routes (stations : list station) (schedules : list stop)
  : list route :=
  let '(routes, train_names) := foldl (visit_stop stations) ([], []) schedules in
  (λ kv, Route kv.1 (default "Unknown"%string (names_get train_names kv.1)) kv.2)
    <$> routes.

End BuildRoutes.

(** ** Further notions *)

Module MoreNotions.
Import Clock Coverage Expansion Backfill Geometry Notions Selection.

(** The number of bucket increments of one instance leaving in hour [d]
    and arriving in hour [a]. *)
Definition span_length (d a : nat) : nat :=
  if a <=? d then (24 - d) + (a + 1) else a + 1 - d.

(** The gap in hours between the departures of a tier: 24 hours over
    the number of its offsets. *)
Definition spacing_of (intervals : list Z) : nat := 24 / length intervals.

(** For every departure hour [H] and every arrival [e] hours of the
    clock later, [spacing <= e <= 24], every hour [h] is reached by the
    instance of some offset. *)
Definition day_covered (intervals : list Z) : bool :=
  forallb (λ H,
    forallb (λ e,
      forallb (λ h,
        existsb (λ o, 0 <? hits ((H + o) mod 24) ((H + e + o) mod 24) h)
                (Z.to_nat <$> intervals))
        (seq 0 24))
      (seq (spacing_of intervals) (25 - spacing_of intervals)))
    (seq 0 24).

(** [sum(hourly_coverage)], the total the checkers divide by 24 for
    their "average trains per hour". *)
Definition coverage_total (cov : list nat) : nat := sum_list cov.

(** The number of increments the loop body makes for an entry whose
    two times parse. *)
Definition entry_span (t : train_entry) : nat :=
  match strptime (departure t), strptime (arrival t) with
  | Some td, Some ta => span_length (hour td) (hour ta)
  | _, _ => 0
  end.

(** The state [(min_distance, best_point)] of the scan of
    [fix_train_alignment.py] for the train point [p = [lon, lat]]:
    nothing was taken yet, or the best point is the closest point of a
    segment of the network at the running minimum. *)
Definition scan_state `{MathLib} (lon lat : float) (p : lonlat)
    (railway_lines : list geometry) (st : float * lonlat) : Prop :=
  st = (infinity, p)
  ∨ ∃ seg, seg ∈ multiline_segments railway_lines
           ∧ TrainAlignment.distance_point_to_line [lon; lat] seg.1 seg.2 = Some st.1
           ∧ TrainAlignment.closest_on_segment lon lat seg.1 seg.2 = Some st.2.







(** A list of scored trains in descending order of score. *)
Definition descending (l : list (Z * train)) : Prop :=
  StronglySorted (λ a b, (b.1 ≤ a.1)%Z) l.

(** The point [(lng, lat)] lies within the bounds. *)
Definition inside (lng lat : float) (b : VerifyAlignment.bounds) : Prop :=
  PrimFloat.ltb lat (VerifyAlignment.min_lat b) = false
  ∧ PrimFloat.ltb (VerifyAlignment.max_lat b) lat = false
  ∧ PrimFloat.ltb lng (VerifyAlignment.min_lng b) = false
  ∧ PrimFloat.ltb (VerifyAlignment.max_lng b) lng = false.

(** A route coordinate the verifier cannot count: one with fewer than
    two components, or one that starts like a vertex of the network. *)
Definition on_network (features : list geometry) (coord : lonlat) : Prop :=
  ¬ well_formed coord
  ∨ ∃ lng lat rest, coord = lng :: lat :: rest ∧ network_vertex features lng lat.

(** The distinct elements of a list in the order of their first
    occurrence. *)
Fixpoint first_seen (l : list string) : list string :=
  match l with
  | [] => []
  | x :: l' => x :: filter (λ y, y ≠ x) (first_seen l')
  end.

(** The train numbers of the stops that have one. *)
Definition train_numbers (schedules : list BuildRoutes.stop) : list string :=
  omap (λ s, BuildRoutes.truthy (BuildRoutes.stop_train_number s)) schedules.

(** The stops of train [tn], in the order of the input. *)
Definition stops_of (tn : string) (schedules : list BuildRoutes.stop)
  : list BuildRoutes.stop :=
  filter (λ s, BuildRoutes.truthy (BuildRoutes.stop_train_number s) = Some tn) schedules.

(** The first name given to train [tn] by one of its stops. *)
Definition first_name (tn : string) (schedules : list BuildRoutes.stop)
  : option string :=
  head (omap (λ s, BuildRoutes.truthy (BuildRoutes.stop_train_name s))
             (stops_of tn schedules)).

(** The ids a file of at most [m] routes of at most [b] schedules each
    can hold, in the order of the output loop, for the train ids
    [train_id]. *)
Definition possible_ids (train_id : nat → string) (m b : nat) : list string :=
  mjoin ((λ i, entry_id (train_id i) <$> seq 1 b) <$> seq 0 m).

(** What [entry_id] appends to the train id. *)
Definition id_suffix (schedule_id : nat) : string :=
  if 1 <? schedule_id then ("_" ++ decimal schedule_id)%string else EmptyString.




End MoreNotions.

(** * Properties *)

(** ** Parsing and printing times *)

Module ClockFacts.
Import Clock.

Lemma digit_of_lt c a : digit_of c = Some a → a < 10.
Proof.
  unfold digit_of. case_match; [|done]. intros [= <-].
  apply andb_prop in H as [_ H2]. apply Nat.leb_le in H2. lia.
Qed.

Lemma two_digits_bound ok bound s v r :
  (∀ a b, a < 10 → b < 10 → ok a b = true → 10 * a + b < bound) →
  (v, r) ∈ two_digits ok s → v < bound.
Proof.
  intros Hok. unfold two_digits.
  destruct s as [|c1 [|c2 s]]; try (intros []%not_elem_of_nil).
  destruct (digit_of c1) as [a|] eqn:Ha; try (intros []%not_elem_of_nil).
  destruct (digit_of c2) as [b|] eqn:Hb; try (intros []%not_elem_of_nil).
  destruct (ok a b) eqn:Hab; try (intros []%not_elem_of_nil).
  intros [= -> ->]%list_elem_of_singleton.
  eauto using digit_of_lt.
Qed.

Lemma one_digit_bound s v r : (v, r) ∈ one_digit s → v < 10.
Proof.
  unfold one_digit. destruct s as [|c s]; try (intros []%not_elem_of_nil).
  destruct (digit_of c) as [a|] eqn:Ha; try (intros []%not_elem_of_nil).
  intros [= -> ->]%list_elem_of_singleton. eauto using digit_of_lt.
Qed.

Lemma directive_H_bound s v r : (v, r) ∈ directive_H s → v < 24.
Proof.
  unfold directive_H. rewrite !elem_of_app. intros [H|[H|H]].
  - eapply two_digits_bound; [|done]. intros a b _ _ [Ha Hb]%andb_prop.
    apply Nat.eqb_eq in Ha. apply Nat.leb_le in Hb. lia.
  - eapply two_digits_bound; [|done]. intros a b _ Hb Ha%Nat.leb_le. lia.
  - apply one_digit_bound in H. lia.
Qed.

Lemma directive_M_bound s v r : (v, r) ∈ directive_M s → v < 60.
Proof.
  unfold directive_M. rewrite !elem_of_app. intros [H|H].
  - eapply two_digits_bound; [|done]. intros a b _ Hb Ha%Nat.leb_le. lia.
  - apply one_digit_bound in H. lia.
Qed.

Lemma regex_match_bound s h m x r :
  regex_match s = Some (h, m, x, r) → h < 24 ∧ m < 60.
Proof.
  unfold regex_match. intros Hhd%head_Some_elem_of.
  apply list_elem_of_bind in Hhd as ([h' r1] & Hhd & HH).
  apply list_elem_of_bind in Hhd as (r2 & Hhd & _).
  apply list_elem_of_bind in Hhd as ([m' r3] & Hhd & HM).
  apply list_elem_of_bind in Hhd as (r4 & Hhd & _).
  apply list_elem_of_bind in Hhd as ([x' r5] & Hhd & _).
  apply list_elem_of_singleton in Hhd as [= -> -> -> ->].
  eauto using directive_H_bound, directive_M_bound.
Qed.

(** A time that [strptime] returns is a time of day. *)
Lemma strptime_valid s t : strptime s = Some t → valid_time t.
Proof.
  unfold strptime, valid_time.
  destruct (regex_match s) as [[[[h m] x] r]|] eqn:Hm; [|done].
  apply regex_match_bound in Hm as [Hh Hmi].
  destruct (negb _); [done|].
  destruct (59 <? x) eqn:Hx; [done|]. intros [= <-]. simpl.
  apply Nat.ltb_ge in Hx. lia.
Qed.

End ClockFacts.

Module RoundTrip.
Import Clock ClockFacts.

Lemma directive_H_two h rest :
  h < 24 → ∃ l, directive_H (two h ++ rest) = (h, rest) :: l.
Proof.
  intros Hh. do 24 (destruct h as [|h]; [vm_compute; eexists; reflexivity|]). lia.
Qed.

Lemma directive_M_two m rest :
  m < 60 → ∃ l, directive_M (two m ++ rest) = (m, rest) :: l.
Proof.
  intros Hm. do 60 (destruct m as [|m]; [vm_compute; eexists; reflexivity|]). lia.
Qed.

Lemma directive_S_two x rest :
  x < 60 → ∃ l, directive_S (two x ++ rest) = (x, rest) :: l.
Proof.
  intros Hx. do 60 (destruct x as [|x]; [vm_compute; eexists; reflexivity|]). lia.
Qed.

Lemma regex_match_strftime t :
  valid_time t →
  regex_match (strftime t) = Some (hour t, minute t, second t, EmptyString).
Proof.
  intros (Hh & Hm & Hx). unfold regex_match, strftime.
  destruct (directive_H_two (hour t) (":" ++ two (minute t) ++ ":" ++ two (second t)) Hh)
    as [lh ->].
  rewrite bind_cons. cbn [colon append Ascii.eqb Bool.eqb].
  rewrite bind_cons. cbn [mbind list_bind app].
  destruct (directive_M_two (minute t) (String ":" (two (second t))) Hm) as [lm ->].
  rewrite bind_cons. cbn [colon append Ascii.eqb Bool.eqb].
  rewrite bind_cons. cbn [mbind list_bind app].
  destruct (directive_S_two (second t) "" Hx) as [lx Hlx].
  replace (two (second t) ++ "")%string with (two (second t)) in Hlx by reflexivity.
  rewrite Hlx. reflexivity.
Qed.

(** Printing a time of day and parsing it again gives the time back. *)
Lemma strptime_strftime t : valid_time t → strptime (strftime t) = Some t.
Proof.
  intros Ht. unfold strptime. rewrite regex_match_strftime by done.
  destruct Ht as (_ & _ & Hx). simpl.
  destruct (59 <? second t) eqn:E; [apply Nat.ltb_lt in E; lia|].
  by destruct t.
Qed.

Lemma dt_time_valid dt : valid_time (dt_time dt).
Proof.
  unfold dt_time, valid_time. simpl.
  pose proof (Z.mod_pos_bound dt 86400 eq_refl) as Hs.
  set (s := (dt mod 86400)%Z) in *.
  assert (0 ≤ s / 3600 < 24)%Z.
  { split; [apply Z.div_pos; lia|apply Z.div_lt_upper_bound; lia]. }
  pose proof (Z.mod_pos_bound (s / 60) 60 eq_refl).
  pose proof (Z.mod_pos_bound s 60 eq_refl).
  lia.
Qed.

Lemma seconds_of_dt_time dt : seconds_of (dt_time dt) = (dt mod 86400)%Z.
Proof.
  unfold dt_time, seconds_of. simpl.
  pose proof (Z.mod_pos_bound dt 86400 eq_refl) as Hs.
  set (s := (dt mod 86400)%Z) in *.
  rewrite !Z2Nat.id.
  - pose proof (Z.div_mod s 60 ltac:(lia)) as E1.
    pose proof (Z.div_mod (s / 60) 60 ltac:(lia)) as E2.
    rewrite Z.div_div in E2 by lia. change (60 * 60)%Z with 3600%Z in E2. lia.
  - apply Z.mod_pos_bound; lia.
  - apply Z.mod_pos_bound; lia.
  - apply Z.div_pos; lia.
Qed.

End RoundTrip.

(** ** The coverage histogram *)

Module CoverageFacts.
Import Clock ClockFacts Coverage Notions.

Lemma foldl_incr_lookup n start cov h :
  foldl (λ c k, incr k c) cov (seq start n) !! h
  = (λ v, v + in_range start (start + n) h) <$> cov !! h.
Proof.
  revert start cov. induction n as [|n IH]; intros start cov; simpl.
  - unfold in_range. rewrite bool_decide_eq_false_2 by lia.
    destruct (cov !! h); simpl; f_equal; lia.
  - rewrite IH. unfold incr. rewrite list_lookup_alter.
    unfold in_range. destruct (decide (start = h)) as [->|Hne].
    + rewrite bool_decide_eq_false_2 by lia. rewrite bool_decide_eq_true_2 by lia.
      destruct (cov !! h); simpl; f_equal; lia.
    + destruct (cov !! h) as [v|]; simpl; [|done]. f_equal.
      repeat case_bool_decide; lia.
Qed.

Lemma for_range_lookup start stop cov h :
  for_range start stop cov !! h = (λ v, v + in_range start stop h) <$> cov !! h.
Proof.
  unfold for_range. rewrite foldl_incr_lookup.
  destruct (cov !! h) as [v|]; simpl; [|done]. f_equal.
  unfold in_range. repeat case_bool_decide; lia.
Qed.

(** Bucket [h] grows by the number of times the two loops reach it. *)
Lemma mark_hours_lookup d a cov h :
  mark_hours d a cov !! h = (λ v, v + hits d a h) <$> cov !! h.
Proof.
  unfold mark_hours, hits. destruct (a <=? d).
  - rewrite !for_range_lookup. destruct (cov !! h); simpl; f_equal; lia.
  - apply for_range_lookup.
Qed.

Lemma mark_hours_length d a cov : length (mark_hours d a cov) = length cov.
Proof.
  assert (∀ l c, length (foldl (λ c k, incr k c) c l) = length c) as Hlen.
  { induction l as [|k l IH]; intros c; simpl; [done|].
    rewrite IH. apply length_alter. }
  unfold mark_hours, for_range. destruct (a <=? d); by rewrite !Hlen.
Qed.

Lemma bucket_mark_hours d a cov h :
  h < length cov → bucket (mark_hours d a cov) h = bucket cov h + hits d a h.
Proof.
  intros Hh. unfold bucket. rewrite mark_hours_lookup.
  destruct (lookup_lt_is_Some_2 cov h Hh) as [v ->]. done.
Qed.

(** An instance reaches hour [h] exactly when [h] lies in its span. *)
Lemma hits_in_span d a h : d < 24 → a < 24 → 0 < hits d a h ↔ in_span d a h.
Proof.
  intros Hd Ha. unfold hits, in_span, in_range.
  destruct (a <=? d) eqn:E; [apply Nat.leb_le in E|apply Nat.leb_gt in E];
    repeat case_bool_decide; lia.
Qed.

Lemma hits_le_2 d a h : hits d a h ≤ 2.
Proof.
  unfold hits, in_range. destruct (a <=? d); repeat case_bool_decide; lia.
Qed.

Lemma mark_hours_comm d1 a1 d2 a2 cov :
  mark_hours d1 a1 (mark_hours d2 a2 cov) = mark_hours d2 a2 (mark_hours d1 a1 cov).
Proof.
  apply list_eq. intros h. rewrite !mark_hours_lookup.
  destruct (cov !! h); simpl; f_equal; lia.
Qed.

Lemma mark_hours_add d a c x :
  mark_hours d a (add_histograms c x) = add_histograms c (mark_hours d a x).
Proof.
  apply list_eq. intros h. unfold add_histograms.
  rewrite mark_hours_lookup, !lookup_zip_with, mark_hours_lookup.
  destruct (c !! h), (x !! h); simpl; f_equal; lia.
Qed.

Lemma coverage_from_None trains : coverage_from None trains = None.
Proof. induction trains as [|t l IH]; [done|]. exact IH. Qed.

Lemma coverage_from_cons acc t l :
  coverage_from acc (t :: l)
  = coverage_from (cov ← acc; mark_train cov (departure t) (arrival t)) l.
Proof. done. Qed.

Lemma coverage_from_length trains c c' :
  coverage_from (Some c) trains = Some c' → length c' = length c.
Proof.
  revert c. induction trains as [|t l IH]; intros c.
  - by intros [= ->].
  - rewrite coverage_from_cons. simpl. unfold mark_train.
    destruct (strptime (departure t)) as [td|]; simpl;
      [|by rewrite (coverage_from_None l)].
    destruct (strptime (arrival t)) as [ta|]; simpl;
      [|by rewrite (coverage_from_None l)].
    intros H%IH. by rewrite mark_hours_length in H.
Qed.

Lemma check_coverage_length trains c :
  check_coverage trains = Some c → length c = 24.
Proof. intros H%coverage_from_length. done. Qed.

Lemma coverage_from_add trains c x :
  coverage_from (Some (add_histograms c x)) trains
  = add_histograms c <$> coverage_from (Some x) trains.
Proof.
  revert x. induction trains as [|t l IH]; intros x; [done|].
  rewrite !coverage_from_cons. simpl. unfold mark_train.
  destruct (strptime (departure t)) as [td|]; simpl;
    [|by rewrite !(coverage_from_None l)].
  destruct (strptime (arrival t)) as [ta|]; simpl;
    [|by rewrite !(coverage_from_None l)].
  rewrite mark_hours_add. apply IH.
Qed.

Lemma add_histograms_zeros c : length c = 24 → add_histograms c zeros = c.
Proof.
  intros Hc. apply list_eq. intros h. unfold add_histograms, zeros.
  rewrite lookup_zip_with. destruct (c !! h) as [v|] eqn:E; [|done].
  apply lookup_lt_Some in E. rewrite lookup_replicate_2 by lia. simpl. f_equal. lia.
Qed.

Lemma coverage_from_perm acc l1 l2 :
  l1 ≡ₚ l2 → coverage_from acc l1 = coverage_from acc l2.
Proof.
  intros Hp. revert acc. induction Hp as [|t l1 l2 _ IH|t1 t2 l|l1 l2 l3 _ IH1 _ IH2];
    intros acc.
  - done.
  - apply IH.
  - rewrite !coverage_from_cons. f_equal.
    destruct acc as [c|]; simpl; [|done]. unfold mark_train.
    destruct (strptime (departure t1)), (strptime (arrival t1)),
      (strptime (departure t2)), (strptime (arrival t2)); simpl; try done.
    f_equal. apply mark_hours_comm.
  - by rewrite IH1.
Qed.

Lemma check_coverage_app A B :
  check_coverage (A ++ B) = add_results (check_coverage A) (check_coverage B).
Proof.
  unfold check_coverage. unfold coverage_from at 1. rewrite foldl_app.
  fold (coverage_from (Some zeros) A). fold (coverage_from (coverage_from (Some zeros) A) B).
  destruct (coverage_from (Some zeros) A) as [c|] eqn:EA.
  - pose proof (coverage_from_length _ _ _ EA) as Hc.
    rewrite <- (add_histograms_zeros c) at 1 by done.
    rewrite coverage_from_add. simpl.
    by destruct (coverage_from (Some zeros) B).
  - apply coverage_from_None.
Qed.

End CoverageFacts.

(** ** Marking one instance; additivity *)

Module HistogramClaims.
Import Clock ClockFacts Coverage Expansion Backfill Notions CoverageFacts.

Lemma mark_train_spec cov0 dep arr td ta :
  strptime dep = Some td → strptime arr = Some ta → length cov0 = 24 →
  mark_train cov0 dep arr = Some (mark_hours (hour td) (hour ta) cov0)
  ∧ length (mark_hours (hour td) (hour ta) cov0) = 24
  ∧ ∀ h, h < 24 →
      bucket (mark_hours (hour td) (hour ta) cov0) h
      = bucket cov0 h + hits (hour td) (hour ta) h.
Proof.
  intros Hd Ha Hlen. unfold mark_train. rewrite Hd, Ha. simpl.
  split; [done|]. split; [by rewrite mark_hours_length|].
  intros h Hh. apply bucket_mark_hours. lia.
Qed.

(** C1.  For an instance whose departure is in clock hour [d] and whose
    arrival is in clock hour [a], one pass of the histogram loop
    increments exactly the buckets of the span: [d..a] when [a > d],
    and [d..23] together with [0..a] when [a <= d]; every other bucket
    keeps its count.  In particular the instance 23:00:00 -> 02:00:00
    marks the hours 23, 0, 1, 2 and no other hour, in the checkers and
    in the nested loop of the ultra optimizer. *)
Theorem span_marked_exactly cov0 dep arr td ta :
  strptime dep = Some td → strptime arr = Some ta → length cov0 = 24 →
  (∃ cov, mark_train cov0 dep arr = Some cov ∧ length cov = 24 ∧
     ∀ h, h < 24 →
       (bucket cov0 h < bucket cov h ↔ in_span (hour td) (hour ta) h)
       ∧ (¬ in_span (hour td) (hour ta) h → bucket cov h = bucket cov0 h))
  ∧ check_coverage [TrainEntry "23:00:00" "02:00:00"]
    = Some [1; 1; 1; 0; 0; 0; 0; 0; 0; 0; 0; 0; 0; 0; 0; 0; 0; 0; 0; 0; 0; 0; 0; 1]
  ∧ ∀ score, hourly_coverage [TrainData [Schedule "23:00:00" "02:00:00" 1] score]
    = Some [1; 1; 1; 0; 0; 0; 0; 0; 0; 0; 0; 0; 0; 0; 0; 0; 0; 0; 0; 0; 0; 0; 0; 1].
Proof.
  intros Hd Ha Hlen. split; [|split; [reflexivity|intros score; reflexivity]].
  destruct (mark_train_spec _ _ _ _ _ Hd Ha Hlen) as (Hm & Hl & Hb).
  eexists. split; [exact Hm|]. split; [exact Hl|].
  intros h Hh. rewrite (Hb h Hh).
  destruct (strptime_valid _ _ Hd) as (Hdh & _).
  destruct (strptime_valid _ _ Ha) as (Hah & _).
  pose proof (hits_in_span (hour td) (hour ta) h Hdh Hah) as [H1 H2]. split.
  - split; [intros; apply H1; lia|intros Hs%H2; lia].
  - intros Hn. destruct (hits (hour td) (hour ta) h); [lia|].
    destruct Hn. apply H1. lia.
Qed.

Lemma span_marked_exactly_witness :
  (∃ cov, mark_train zeros "23:15:00" "02:40:00" = Some cov ∧ length cov = 24 ∧
     ∀ h, h < 24 →
       (bucket zeros h < bucket cov h ↔ in_span 23 2 h)
       ∧ (¬ in_span 23 2 h → bucket cov h = bucket zeros h))
  ∧ check_coverage [TrainEntry "23:00:00" "02:00:00"]
    = Some [1; 1; 1; 0; 0; 0; 0; 0; 0; 0; 0; 0; 0; 0; 0; 0; 0; 0; 0; 0; 0; 0; 0; 1]
  ∧ ∀ score, hourly_coverage [TrainData [Schedule "23:00:00" "02:00:00" 1] score]
    = Some [1; 1; 1; 0; 0; 0; 0; 0; 0; 0; 0; 0; 0; 0; 0; 0; 0; 0; 0; 0; 0; 0; 0; 1].
Proof.
  apply (span_marked_exactly zeros "23:15:00" "02:40:00" (Time 23 15 0) (Time 2 40 0));
    reflexivity.
Defined.

(** The instance 08:00:00 -> 08:00:00 takes the [arr_hour <= dep_hour]
    branch: it marks every hour, hour 8 twice, so it is not the case
    that only hour 8 is marked. *)
Lemma same_hour_instance_marks_all_day :
  check_coverage [TrainEntry "08:00:00" "08:00:00"]
  = Some [1; 1; 1; 1; 1; 1; 1; 1; 2; 1; 1; 1; 1; 1; 1; 1; 1; 1; 1; 1; 1; 1; 1; 1]
  ∧ ¬ (∀ cov, check_coverage [TrainEntry "08:00:00" "08:00:00"] = Some cov →
         ∀ h, h < 24 → 0 < bucket cov h ↔ h = 8).
Proof.
  split; [reflexivity|]. intros H.
  specialize (H _ eq_refl 9 ltac:(lia)). vm_compute in H. destruct H as [H _].
  specialize (H ltac:(lia)). lia.
Qed.

(** C2, as the code has it.  An instance whose departure and arrival
    fall in the same clock hour is handled by the midnight-spanning
    branch ([arr_hour <= dep_hour]): one pass of the histogram loop
    increments every one of the 24 buckets; so does the instance
    08:00:00 -> 08:00:00. *)
Theorem same_hour_instance_spans_day cov0 dep arr td ta :
  strptime dep = Some td → strptime arr = Some ta → hour td = hour ta →
  length cov0 = 24 →
  (∃ cov, mark_train cov0 dep arr = Some cov ∧ length cov = 24 ∧
     ∀ h, h < 24 → bucket cov0 h < bucket cov h)
  ∧ ∃ cov, check_coverage [TrainEntry "08:00:00" "08:00:00"] = Some cov ∧
      ∀ h, h < 24 → 0 < bucket cov h.
Proof.
  intros Hd Ha Heq Hlen. split.
  - destruct (mark_train_spec _ _ _ _ _ Hd Ha Hlen) as (Hm & Hl & Hb).
    eexists. split; [exact Hm|]. split; [exact Hl|].
    intros h Hh. rewrite (Hb h Hh).
    destruct (strptime_valid _ _ Hd) as (Hdh & _).
    destruct (strptime_valid _ _ Ha) as (Hah & _).
    assert (0 < hits (hour td) (hour ta) h); [|lia].
    apply hits_in_span; [done..|]. unfold in_span. lia.
  - eexists. split; [reflexivity|]. intros h Hh.
    do 24 (destruct h as [|h]; [vm_compute; lia|]). lia.
Qed.

Lemma same_hour_instance_spans_day_witness :
  (∃ cov, mark_train zeros "08:05:00" "08:50:00" = Some cov ∧ length cov = 24 ∧
     ∀ h, h < 24 → bucket zeros h < bucket cov h)
  ∧ ∃ cov, check_coverage [TrainEntry "08:00:00" "08:00:00"] = Some cov ∧
      ∀ h, h < 24 → 0 < bucket cov h.
Proof.
  apply (same_hour_instance_spans_day zeros "08:05:00" "08:50:00"
           (Time 8 5 0) (Time 8 50 0)); reflexivity.
Defined.

End HistogramClaims.

(** ** Schedule expansion *)

Module ExpansionFacts.
Import Clock ClockFacts RoundTrip Coverage Notions Expansion.

Lemma dt_time_seconds_of t : valid_time t → dt_time (seconds_of t) = t.
Proof.
  intros (Hh & Hm & Hx). destruct t as [h m x]. simpl in *.
  unfold dt_time, seconds_of. simpl.
  set (s := (Z.of_nat h * 3600 + Z.of_nat m * 60 + Z.of_nat x)%Z).
  assert (s mod 86400 = s)%Z as -> by (apply Z.mod_small; lia).
  assert (s / 3600 = Z.of_nat h)%Z as ->.
  { symmetry. apply (Z.div_unique s 3600 _ (Z.of_nat m * 60 + Z.of_nat x)); lia. }
  assert (s / 60 = Z.of_nat h * 60 + Z.of_nat m)%Z as ->.
  { symmetry. apply (Z.div_unique s 60 _ (Z.of_nat x)); lia. }
  assert ((Z.of_nat h * 60 + Z.of_nat m) mod 60 = Z.of_nat m)%Z as ->.
  { symmetry. apply (Z.mod_unique _ 60 (Z.of_nat h)); lia. }
  assert (s mod 60 = Z.of_nat x)%Z as ->.
  { symmetry. apply (Z.mod_unique s 60 (Z.of_nat h * 60 + Z.of_nat m)); lia. }
  by rewrite !Nat2Z.id.
Qed.

(** [parse_time] always returns: the fallback text parses. *)
Lemma parse_time_total s : ∃ t, parse_time s = Some t ∧ valid_time t.
Proof.
  unfold parse_time. destruct (strptime s) as [t|] eqn:E.
  - exists t. eauto using strptime_valid.
  - exists (Time 6 0 0). split; [reflexivity|]. unfold valid_time. simpl. lia.
Qed.

Lemma journey_total base_departure base_arrival :
  ∃ td ta, parse_time base_departure = Some td ∧ parse_time base_arrival = Some ta
    ∧ valid_time td ∧ valid_time ta
    ∧ journey base_departure base_arrival
      = Some (seconds_of td,
              if (seconds_of ta <=? seconds_of td)%Z
              then (seconds_of ta + 86400 - seconds_of td)%Z
              else (seconds_of ta - seconds_of td)%Z).
Proof.
  destruct (parse_time_total base_departure) as (td & Hd & Vd).
  destruct (parse_time_total base_arrival) as (ta & Ha & Va).
  exists td, ta. repeat (split; [done|]).
  unfold journey. rewrite Hd, Ha. simpl. unfold combine, one_day.
  by destruct (seconds_of ta <=? seconds_of td)%Z.
Qed.

Lemma expand_length dep_dt duration intervals :
  length (expand dep_dt duration intervals) = length intervals.
Proof. apply length_imap. Qed.

Lemma expand_lookup dep_dt duration intervals i offset :
  intervals !! i = Some offset →
  expand dep_dt duration intervals !! i
  = Some (Schedule (strftime (dt_time (dep_dt + 3600 * offset)%Z))
                   (strftime (dt_time (dep_dt + 3600 * offset + duration)%Z))
                   (i + 1)).
Proof.
  intros Hi. unfold expand. rewrite list_lookup_imap, Hi. simpl.
  unfold hours. by rewrite (Z.mul_comm offset).
Qed.

(** What an expanded schedule says when it is read back. *)
Lemma expand_times dep_dt duration intervals i offset :
  intervals !! i = Some offset →
  ∃ s dep_i arr_i,
    expand dep_dt duration intervals !! i = Some s
    ∧ schedule_id s = i + 1
    ∧ strptime (s_departure s) = Some dep_i
    ∧ seconds_of dep_i = ((dep_dt + 3600 * offset) mod 86400)%Z
    ∧ strptime (s_arrival s) = Some arr_i
    ∧ seconds_of arr_i = ((dep_dt + 3600 * offset + duration) mod 86400)%Z.
Proof.
  intros Hi. eexists _, _, _. split; [by apply expand_lookup|]. simpl.
  split; [done|].
  split; [apply strptime_strftime, dt_time_valid|].
  split; [apply seconds_of_dt_time|].
  split; [apply strptime_strftime, dt_time_valid|apply seconds_of_dt_time].
Qed.

End ExpansionFacts.

(** ** Texts that [strptime] accepts *)

Module Canonical.
Import Clock ClockFacts RoundTrip Notions.











End Canonical.

(** ** Expansion of a base trip; unparseable times *)

Module ExpansionClaims.
Import Clock ClockFacts RoundTrip Canonical Coverage Notions Expansion ExpansionFacts.





(** C3.  The base trip 06:00:00 -> 18:00:00 expanded in the medium tier
    gives the three instances 06:00 -> 18:00, 14:00 -> 02:00 and
    22:00 -> 10:00, and their histogram has every bucket at least 1.
    In general the instance of offset [o] leaves at (base departure +
    [o] hours) mod 24 h and arrives at (base departure + [o] hours +
    duration) mod 24 h, the duration being arrival - departure, a day
    longer when that is not positive. *)
Theorem medium_tier_expansion :
  create_minimal_timing_strategy "06:00:00" "18:00:00" "medium"
  = Some [Schedule "06:00:00" "18:00:00" 1; Schedule "14:00:00" "02:00:00" 2;
          Schedule "22:00:00" "10:00:00" 3]
  ∧ (∃ cov,
       check_coverage (published [Schedule "06:00:00" "18:00:00" 1;
                                  Schedule "14:00:00" "02:00:00" 2;
                                  Schedule "22:00:00" "10:00:00" 3]) = Some cov
       ∧ length cov = 24 ∧ ∀ h, h < 24 → 1 ≤ bucket cov h)
  ∧ ∀ base_departure base_arrival level,
      ∃ td ta duration schedules,
        parse_time base_departure = Some td ∧ parse_time base_arrival = Some ta
        ∧ duration = (if (seconds_of ta <=? seconds_of td)%Z
                      then seconds_of ta + 86400 - seconds_of td
                      else seconds_of ta - seconds_of td)%Z
        ∧ create_minimal_timing_strategy base_departure base_arrival level
          = Some schedules
        ∧ length schedules = length (minimal_intervals level)
        ∧ ∀ i offset, minimal_intervals level !! i = Some offset →
            ∃ s dep_i arr_i,
              schedules !! i = Some s ∧ schedule_id s = i + 1
              ∧ strptime (s_departure s) = Some dep_i
              ∧ seconds_of dep_i = ((seconds_of td + 3600 * offset) mod 86400)%Z
              ∧ strptime (s_arrival s) = Some arr_i
              ∧ seconds_of arr_i
                = ((seconds_of td + 3600 * offset + duration) mod 86400)%Z.
Proof.
  split; [reflexivity|]. split.
  - eexists. split; [reflexivity|]. split; [reflexivity|].
    intros h Hh. do 24 (destruct h as [|h]; [vm_compute; lia|]). lia.
  - intros base_departure base_arrival level.
    destruct (journey_total base_departure base_arrival)
      as (td & ta & Hd & Ha & Vd & Va & Hj).
    eexists td, ta, _, _. split; [done|]. split; [done|]. split; [done|].
    unfold create_minimal_timing_strategy. rewrite Hj. simpl.
    split; [done|]. split; [apply expand_length|].
    intros i offset Hi. by apply expand_times.
Qed.

End ExpansionClaims.

(** ** Gap analysis and backfill *)

Module BackfillFacts.
Import Clock ClockFacts RoundTrip Coverage Notions CoverageFacts Expansion
       ExpansionFacts Backfill.

Lemma coverage_from_app acc l1 l2 :
  coverage_from acc (l1 ++ l2) = coverage_from (coverage_from acc l1) l2.
Proof. unfold coverage_from. apply foldl_app. Qed.

Lemma schedules_loop acc (ss : list schedule) :
  foldl (λ acc s, cov ← acc; mark_train cov (s_departure s) (s_arrival s)) acc ss
  = coverage_from acc (published ss).
Proof.
  revert acc. induction ss as [|s ss IH]; intros acc; [done|].
  simpl. rewrite IH. done.
Qed.

Lemma hourly_coverage_flat tws :
  hourly_coverage tws = check_coverage (all_entries tws).
Proof.
  unfold hourly_coverage, check_coverage, all_entries.
  generalize (Some zeros). induction tws as [|td tws IH]; intros acc; [done|].
  rewrite bind_cons, coverage_from_app. simpl. rewrite IH.
  by rewrite schedules_loop.
Qed.

Lemma coverage_from_mono l c c' h :
  coverage_from (Some c) l = Some c' → bucket c h ≤ bucket c' h.
Proof.
  revert c. induction l as [|t l IH]; intros c.
  - by intros [= ->].
  - rewrite coverage_from_cons. simpl. unfold mark_train.
    destruct (strptime (departure t)) as [td|]; simpl;
      [|by rewrite coverage_from_None].
    destruct (strptime (arrival t)) as [ta|]; simpl;
      [|by rewrite coverage_from_None].
    intros H%IH. etrans; [|exact H]. unfold bucket.
    rewrite mark_hours_lookup. destruct (c !! h); simpl; lia.
Qed.

(** An instance leaving in hour [g] is counted in bucket [g]. *)
Lemma coverage_from_member l c c' t td ta :
  coverage_from (Some c) l = Some c' → t ∈ l →
  strptime (departure t) = Some td → strptime (arrival t) = Some ta →
  hour td < length c → bucket c (hour td) < bucket c' (hour td).
Proof.
  revert c. induction l as [|t' l IH]; intros c Hc Hin Hd Ha Hlen.
  - by apply elem_of_nil in Hin.
  - rewrite coverage_from_cons in Hc. simpl in Hc. unfold mark_train in Hc.
    destruct (strptime (departure t')) as [td'|] eqn:Hd'; simpl in Hc;
      [|by rewrite coverage_from_None in Hc].
    destruct (strptime (arrival t')) as [ta'|] eqn:Ha'; simpl in Hc;
      [|by rewrite coverage_from_None in Hc].
    apply elem_of_cons in Hin as [->|Hin].
    + rewrite Hd in Hd'. rewrite Ha in Ha'. injection Hd' as <-. injection Ha' as <-.
      eapply Nat.lt_le_trans; [|by eapply coverage_from_mono].
      rewrite bucket_mark_hours by done.
      pose proof (strptime_valid _ _ Hd) as (? & _).
      pose proof (strptime_valid _ _ Ha) as (? & _).
      assert (0 < hits (hour td) (hour ta) (hour td)); [|lia].
      apply hits_in_span; [done..|]. unfold in_span. lia.
    + eapply Nat.le_lt_trans; [|eapply (IH _ Hc Hin Hd Ha)].
      * rewrite bucket_mark_hours by done. lia.
      * by rewrite mark_hours_length.
Qed.

Lemma two_gap_hour g : (two g ++ ":00:00")%string = strftime (Time g 0 0).
Proof. reflexivity. Qed.

(** The schedule added for a gap hour leaves at that hour sharp. *)
Lemma gap_schedule_spec td additional g first :
  head (schedules td) = Some first →
  is_Some (strptime (s_departure first)) → is_Some (strptime (s_arrival first)) →
  g < 24 →
  ∃ s arr, gap_schedule td additional g = Some s
    ∧ s_departure s = (two g ++ ":00:00")%string
    ∧ strptime (s_departure s) = Some (Time g 0 0)
    ∧ strptime (s_arrival s) = Some arr
    ∧ schedule_id s = length (schedules td) + length additional + 1.
Proof.
  intros Hf [bd Hbd] [ba Hba] Hg. unfold gap_schedule.
  assert (valid_time (Time g 0 0)) as Vg by (unfold valid_time; simpl; lia).
  rewrite Hf. cbn [mbind option_bind]. rewrite Hbd, Hba.
  rewrite two_gap_hour, (strptime_strftime _ Vg).
  cbn [mbind option_bind fmap option_fmap option_map].
  eexists _, _. split; [done|]. cbn [s_departure s_arrival schedule_id].
  unfold combine. rewrite (dt_time_seconds_of _ Vg).
  split; [done|]. split; [by apply strptime_strftime|].
  split; [apply strptime_strftime, dt_time_valid|done].
Qed.

Lemma additional_loop td first gaps acc :
  head (schedules td) = Some first →
  is_Some (strptime (s_departure first)) → is_Some (strptime (s_arrival first)) →
  Forall (λ g, g < 24) gaps →
  ∃ extra,
    foldl (λ acc gap_hour,
             additional ← acc;
             s ← gap_schedule td additional gap_hour;
             Some (additional ++ [s])) (Some acc) gaps = Some (acc ++ extra)
    ∧ added_for gaps extra.
Proof.
  intros Hf Hd Ha Hg. revert acc.
  induction Hg as [|g gaps Hg _ IH]; intros acc.
  - exists []. rewrite app_nil_r. split; [done|]. split; [done|]. split; [done|].
    by intros g []%elem_of_nil.
  - destruct (gap_schedule_spec td acc g first Hf Hd Ha Hg)
      as (s & arr & Hs & Hdep & Hpd & Hpa & _).
    cbn [foldl mbind option_bind]. rewrite Hs. cbn [mbind option_bind].
    destruct (IH (acc ++ [s])) as (extra & -> & Hdeps & Hall & Hmem).
    exists (s :: extra). rewrite <- app_assoc. split; [done|].
    split; [rewrite !fmap_cons; by rewrite Hdep, Hdeps|].
    split; [constructor; [rewrite Hpd, Hpa; eauto|done]|].
    intros g' [->|Hg']%elem_of_cons.
    + exists s. split; [left|done].
    + destruct (Hmem g' Hg') as (s' & Hin & Hs'). exists s'. split; [by right|done].
Qed.


Lemma coverage_from_parses l c c' :
  coverage_from (Some c) l = Some c' →
  Forall (λ t, is_Some (strptime (departure t)) ∧ is_Some (strptime (arrival t))) l.
Proof.
  revert c. induction l as [|t l IH]; intros c Hc; [constructor|].
  rewrite coverage_from_cons in Hc. cbn [mbind option_bind] in Hc.
  unfold mark_train in Hc.
  destruct (strptime (departure t)) as [td|] eqn:Hd; cbn [mbind option_bind] in Hc;
    [|by rewrite coverage_from_None in Hc].
  destruct (strptime (arrival t)) as [ta|] eqn:Ha; cbn [mbind option_bind] in Hc;
    [|by rewrite coverage_from_None in Hc].
  constructor; [rewrite Hd, Ha; split; by eexists|by eapply IH].
Qed.

Lemma coverage_from_total l c :
  Forall (λ t, is_Some (strptime (departure t)) ∧ is_Some (strptime (arrival t))) l →
  is_Some (coverage_from (Some c) l).
Proof.
  intros Hl. revert c. induction Hl as [|t l [[td Hd] [ta Ha]] _ IH]; intros c; [by eexists|].
  rewrite coverage_from_cons. cbn [mbind option_bind]. unfold mark_train.
  rewrite Hd, Ha. cbn [mbind option_bind]. apply IH.
Qed.

Lemma first_schedule_parses tws cov td first :
  hourly_coverage tws = Some cov → td ∈ tws → head (schedules td) = Some first →
  is_Some (strptime (s_departure first)) ∧ is_Some (strptime (s_arrival first)).
Proof.
  rewrite hourly_coverage_flat. intros Hc%coverage_from_parses Htd Hf.
  rewrite Forall_forall in Hc.
  apply (Hc (TrainEntry (s_departure first) (s_arrival first))).
  unfold all_entries. apply list_elem_of_bind. exists td. split; [|done].
  unfold published. apply list_elem_of_fmap. exists first. split; [done|].
  by apply head_Some_elem_of.
Qed.

(** [add_to_first_premium]: either no train of the list scores above
    140 and the list is returned as it is, or the first such train gets
    the schedules of the first two gap hours. *)
Lemma add_to_first_premium_spec trains gaps :
  Forall (λ td, ∃ first, head (schedules td) = Some first
                  ∧ is_Some (strptime (s_departure first))
                  ∧ is_Some (strptime (s_arrival first))) trains →
  Forall (λ g, g < 24) gaps →
  (Forall (λ td, (priority_score td ≤ 140)%Z) trains
   ∧ add_to_first_premium trains gaps = Some trains)
  ∨ ∃ pre td post extra,
      trains = pre ++ td :: post
      ∧ Forall (λ td, (priority_score td ≤ 140)%Z) pre
      ∧ (140 < priority_score td)%Z
      ∧ add_to_first_premium trains gaps
        = Some (pre ++ TrainData (schedules td ++ extra) (priority_score td) :: post)
      ∧ added_for (take 2 gaps) extra.
Proof.
  intros Htr Hg. induction Htr as [|td trains (first & Hf & Hd & Ha) _ IH].
  - left. split; [constructor|done].
  - cbn [add_to_first_premium]. destruct (140 <? priority_score td)%Z eqn:E.
    + right. apply Z.ltb_lt in E.
      destruct (additional_loop td first (take 2 gaps) [] Hf Hd Ha) as (extra & Hx & Hadd).
      { by apply Forall_take. }
      exists [], td, trains, extra. split; [done|]. split; [constructor|]. split; [done|].
      unfold additional_schedules. rewrite Hx. done.
    + apply Z.ltb_ge in E. destruct IH as [[Hall ->]|(pre & td' & post & extra & -> & Hpre & Hs & -> & Hadd)].
      * left. split; [by constructor|done].
      * right. exists (td :: pre), td', post, extra.
        split; [done|]. split; [by constructor|]. done.
Qed.

Lemma StronglySorted_lt_seq start n : StronglySorted lt (seq start n).
Proof.
  revert start. induction n as [|n IH]; intros start; simpl; constructor; [apply IH|].
  apply Forall_seq. intros j Hj. lia.
Qed.

Lemma StronglySorted_filter {A} (R : relation A) (P : A → Prop)
    `{!∀ x, Decision (P x)} l :
  StronglySorted R l → StronglySorted R (filter P l).
Proof.
  induction 1 as [|x l _ IH Hx]; [constructor|].
  rewrite filter_cons. case_decide; [|done].
  constructor; [done|]. apply Forall_forall. intros y [_ Hy]%list_elem_of_filter.
  rewrite Forall_forall in Hx. auto.
Qed.

Lemma gap_hours_sorted cov : StronglySorted lt (gap_hours_of cov).
Proof. apply StronglySorted_filter, StronglySorted_lt_seq. Qed.

Lemma gap_hours_spec cov h :
  h ∈ gap_hours_of cov ↔ h < 24 ∧ bucket cov h < min_coverage_needed.
Proof.
  unfold gap_hours_of. rewrite list_elem_of_filter, elem_of_seq. unfold bucket. lia.
Qed.

Lemma all_entries_app l1 l2 : all_entries (l1 ++ l2) = all_entries l1 ++ all_entries l2.
Proof. unfold all_entries. apply bind_app. Qed.

Lemma all_entries_extended pre td post extra :
  all_entries (pre ++ TrainData (schedules td ++ extra) (priority_score td) :: post)
  ≡ₚ all_entries (pre ++ td :: post) ++ published extra.
Proof.
  rewrite !all_entries_app. unfold all_entries at 2 4. rewrite !bind_cons.
  cbn [schedules]. unfold published at 1. rewrite fmap_app.
  fold (published (schedules td)). fold (published extra).
  rewrite <- !app_assoc. do 2 f_equiv. apply Permutation_app_comm.
Qed.

End BackfillFacts.

(** ** Additivity of the histogram *)

Module AdditivityClaim.
Import Clock Coverage Expansion Backfill Notions CoverageFacts BackfillFacts.

(** C7.  When the instances [L] are split in any way into two parts [A]
    and [B] (the parts together are a rearrangement of [L]), the
    histogram of [L] is the bucket-wise sum of the histograms of [A] and
    of [B]; a run that raises on one part raises on the whole.  The
    same holds for the nested loop of [ensure_24x7_coverage] over
    routes with their schedules. *)
Theorem histogram_additive (L A B : list train_entry) :
  L ≡ₚ A ++ B →
  check_coverage L = add_results (check_coverage A) (check_coverage B)
  ∧ ∀ TL TA TB : list train_data,
      all_entries TL = L → all_entries TA = A → all_entries TB = B →
      hourly_coverage TL = add_results (hourly_coverage TA) (hourly_coverage TB).
Proof.
  intros Hp.
  assert (check_coverage L = add_results (check_coverage A) (check_coverage B)) as Hadd.
  { unfold check_coverage at 1.
    rewrite (coverage_from_perm _ _ _ Hp). apply check_coverage_app. }
  split; [done|]. intros TL TA TB <- <- <-. by rewrite !hourly_coverage_flat.
Qed.

Lemma histogram_additive_witness :
  check_coverage [TrainEntry "06:00:00" "18:00:00"; TrainEntry "14:00:00" "02:00:00";
                  TrainEntry "22:00:00" "10:00:00"]
  = add_results (check_coverage [TrainEntry "14:00:00" "02:00:00"])
                (check_coverage [TrainEntry "06:00:00" "18:00:00";
                                 TrainEntry "22:00:00" "10:00:00"])
  ∧ hourly_coverage [TrainData [Schedule "06:00:00" "18:00:00" 1;
                                Schedule "14:00:00" "02:00:00" 2] 150;
                     TrainData [Schedule "22:00:00" "10:00:00" 1] 120]
    = add_results
        (hourly_coverage [TrainData [Schedule "14:00:00" "02:00:00" 2] 150])
        (hourly_coverage [TrainData [Schedule "06:00:00" "18:00:00" 1] 150;
                          TrainData [Schedule "22:00:00" "10:00:00" 1] 120]).
Proof.
  destruct (histogram_additive
              [TrainEntry "06:00:00" "18:00:00"; TrainEntry "14:00:00" "02:00:00";
               TrainEntry "22:00:00" "10:00:00"]
              [TrainEntry "14:00:00" "02:00:00"]
              [TrainEntry "06:00:00" "18:00:00"; TrainEntry "22:00:00" "10:00:00"])
    as [Hflat Hnested].
  - apply perm_swap.
  - split; [exact Hflat|]. apply Hnested; reflexivity.
Defined.

End AdditivityClaim.

Module BackfillClaims.
Import Clock ClockFacts RoundTrip Coverage Notions CoverageFacts Expansion
       ExpansionFacts Backfill BackfillFacts.

(** With a single route of score 150 every hour is a gap (no bucket
    reaches 15).  The backfill adds the schedules of hours 0 and 1 to
    that route and returns: the buckets stay below the threshold, the
    gap hours 2 to 23 get no schedule, and the returned list is all
    that is returned. *)
Lemma backfill_leaves_gaps :
  hourly_coverage [TrainData [Schedule "06:00:00" "18:00:00" 1] 150]
  = Some [0; 0; 0; 0; 0; 0; 1; 1; 1; 1; 1; 1; 1; 1; 1; 1; 1; 1; 1; 0; 0; 0; 0; 0]
  ∧ gap_hours_of [0; 0; 0; 0; 0; 0; 1; 1; 1; 1; 1; 1; 1; 1; 1; 1; 1; 1; 1; 0; 0; 0; 0; 0]
    = seq 0 24
  ∧ ensure_24x7_coverage [TrainData [Schedule "06:00:00" "18:00:00" 1] 150]
    = Some [TrainData [Schedule "06:00:00" "18:00:00" 1;
                       Schedule "00:00:00" "12:00:00" 2;
                       Schedule "01:00:00" "13:00:00" 3] 150]
  ∧ hourly_coverage [TrainData [Schedule "06:00:00" "18:00:00" 1;
                                Schedule "00:00:00" "12:00:00" 2;
                                Schedule "01:00:00" "13:00:00" 3] 150]
    = Some [1; 2; 2; 2; 2; 2; 3; 3; 3; 3; 3; 3; 3; 2; 1; 1; 1; 1; 1; 0; 0; 0; 0; 0]
  ∧ ensure_24x7_coverage [TrainData [Schedule "06:00:00" "18:00:00" 1] 100]
    = Some [TrainData [Schedule "06:00:00" "18:00:00" 1] 100]
  ∧ ¬ (∀ h, h ∈ seq 0 24 →
         min_coverage_needed
         ≤ bucket [1; 2; 2; 2; 2; 2; 3; 3; 3; 3; 3; 3; 3; 2; 1; 1; 1; 1; 1; 0; 0; 0; 0; 0] h).
Proof.
  repeat (split; [reflexivity|]). intros H.
  specialize (H 5 ltac:(apply elem_of_seq; lia)). vm_compute in H. lia.
Qed.

(** C6, as the code has it.  When the histogram has gap hours (listed
    in ascending order: the hours below 15), the backfill takes the
    first two of them and appends, to the first route among the first
    ten whose score exceeds 140, one schedule per such hour leaving at
    that hour sharp; when there is no gap or no such route the routes
    are returned as they are.  No schedule is removed: no bucket
    decreases, and the bucket of each of those two hours grows. *)
Theorem backfill_first_two_gaps tws cov :
  hourly_coverage tws = Some cov →
  Forall (λ td, schedules td ≠ []) tws →
  StronglySorted lt (gap_hours_of cov)
  ∧ (∀ h, h ∈ gap_hours_of cov ↔ h < 24 ∧ bucket cov h < min_coverage_needed)
  ∧ ∃ out cov',
      ensure_24x7_coverage tws = Some out
      ∧ hourly_coverage out = Some cov'
      ∧ (∀ h, bucket cov h ≤ bucket cov' h)
      ∧ ((out = tws
          ∧ (gap_hours_of cov = []
             ∨ Forall (λ td, (priority_score td ≤ 140)%Z) (take 10 tws)))
         ∨ ∃ pre td post extra,
             tws = pre ++ td :: post
             ∧ length pre < 10
             ∧ Forall (λ td, (priority_score td ≤ 140)%Z) pre
             ∧ (140 < priority_score td)%Z
             ∧ out = pre ++ TrainData (schedules td ++ extra) (priority_score td) :: post
             ∧ s_departure <$> extra
               = (λ g, (two g ++ ":00:00")%string) <$> take 2 (gap_hours_of cov)
             ∧ ∀ g, g ∈ take 2 (gap_hours_of cov) → bucket cov g < bucket cov' g).
Proof.
  intros Hcov Hne.
  split; [apply gap_hours_sorted|]. split; [apply gap_hours_spec|].
  unfold ensure_24x7_coverage. rewrite Hcov. cbn [mbind option_bind].
  destruct (gap_hours_of cov) as [|g0 gs] eqn:Hgaps.
  { exists tws, cov. eauto 10. }
  rewrite <- Hgaps.
  assert (Forall (λ g, g < 24) (gap_hours_of cov)) as Hg24.
  { apply Forall_forall. intros g Hg%gap_hours_spec. lia. }
  assert (Forall (λ td, ∃ first, head (schedules td) = Some first
                          ∧ is_Some (strptime (s_departure first))
                          ∧ is_Some (strptime (s_arrival first))) (take 10 tws)) as Hfirst.
  { apply Forall_forall. intros td Htd.
    assert (td ∈ tws) as Htd' by (eapply subseteq_take; done).
    rewrite Forall_forall in Hne. specialize (Hne td Htd').
    destruct (schedules td) as [|first ?] eqn:Hs; [done|].
    exists first. split; [done|].
    eapply first_schedule_parses; [done..|]. by rewrite Hs. }
  destruct (add_to_first_premium_spec _ _ Hfirst Hg24)
    as [[Hall ->]|(pre & td & post & extra & Htake & Hpre & Hs & -> & Hdeps & Hparse & Hmem)];
    cbn [mbind option_bind].
  { exists tws, cov. rewrite take_drop. eauto 10. }
  assert (tws = pre ++ td :: (post ++ drop 10 tws)) as Htws.
  { rewrite <- (take_drop 10 tws) at 1. rewrite Htake. by rewrite <- app_assoc. }
  rewrite <- app_assoc. cbn [app].
  set (out := pre ++ _ :: post ++ drop 10 tws).
  assert (check_coverage (all_entries out)
          = coverage_from (Some cov) (published extra)) as Hout.
  { unfold check_coverage, out.
    rewrite (coverage_from_perm _ _ _ (all_entries_extended _ _ _ _)).
    rewrite coverage_from_app, <- Htws.
    fold (check_coverage (all_entries tws)). by rewrite <- hourly_coverage_flat, Hcov. }
  destruct (coverage_from_total (published extra) cov) as [cov' Hcov'].
  { unfold published. apply Forall_fmap. eapply Forall_impl; [exact Hparse|]. done. }
  exists out, cov'. split; [done|].
  split; [by rewrite hourly_coverage_flat, Hout|].
  split; [intros h; by eapply coverage_from_mono|].
  right. exists pre, td, (post ++ drop 10 tws), extra.
  split; [done|]. split.
  { assert (length (take 10 tws) ≤ 10) as Hl by (rewrite length_take; lia).
    rewrite Htake, length_app in Hl. cbn [length] in Hl. lia. }
  split; [done|]. split; [done|]. split; [done|]. split; [done|].
  intros g Hg. destruct (Hmem g Hg) as (s & Hin & Hsd).
  rewrite Forall_forall in Hparse. destruct (Hparse s Hin) as [_ [ta Hta]].
  change g with (hour (Time g 0 0)).
  apply (coverage_from_member (published extra) cov cov'
           (TrainEntry (s_departure s) (s_arrival s)) _ ta); try done.
  - unfold published. apply list_elem_of_fmap. eauto.
  - simpl. rewrite (check_coverage_length (all_entries tws) cov).
    + assert (g ∈ gap_hours_of cov) as Hg' by (eapply subseteq_take; done).
      apply gap_hours_spec in Hg'. lia.
    + by rewrite <- hourly_coverage_flat.
Qed.

Lemma backfill_first_two_gaps_witness :
  StronglySorted lt
    (gap_hours_of [0; 0; 0; 0; 0; 0; 1; 1; 1; 1; 1; 1; 1; 1; 1; 1; 1; 1; 1; 0; 0; 0; 0; 0])
  ∧ ∃ out cov',
      ensure_24x7_coverage [TrainData [Schedule "06:00:00" "18:00:00" 1] 150] = Some out
      ∧ hourly_coverage out = Some cov'
      ∧ ∀ h, bucket [0; 0; 0; 0; 0; 0; 1; 1; 1; 1; 1; 1; 1; 1; 1; 1; 1; 1; 1; 0; 0; 0; 0; 0] h
             ≤ bucket cov' h.
Proof.
  destruct (backfill_first_two_gaps
              [TrainData [Schedule "06:00:00" "18:00:00" 1] 150]
              [0; 0; 0; 0; 0; 0; 1; 1; 1; 1; 1; 1; 1; 1; 1; 1; 1; 1; 1; 0; 0; 0; 0; 0])
    as (Hs & _ & out & cov' & Ho & Hc & Hm & _).
  - reflexivity.
  - repeat constructor. discriminate.
  - split; [exact Hs|]. exists out, cov'. auto.
Defined.

End BackfillClaims.

(** ** Coordinate reduction *)

Module ReductionClaims.
Import Reduction Notions.

Lemma every_nth_sublist {A} step skip (l : list A) :
  every_nth step skip l `sublist_of` l.
Proof.
  revert skip. induction l as [|x l IH]; intros skip; simpl; [constructor|].
  destruct skip; [apply sublist_skip|apply sublist_cons]; apply IH.
Qed.

Lemma every_nth_lookup {A} step skip (l : list A) i :
  1 ≤ step → every_nth step skip l !! i = l !! (skip + i * step).
Proof.
  intros Hstep. revert skip i. induction l as [|x l IH]; intros skip i; simpl.
  - by rewrite !lookup_nil.
  - destruct skip as [|skip].
    + destruct i as [|i]; [done|]. simpl. rewrite IH.
      replace (step + i * step) with (S (step - 1 + i * step)) by lia. done.
    + rewrite IH. done.
Qed.

Lemma slice_step_spec {A} step (l : list A) :
  1 ≤ step → ∃ out, slice_step step l = Some out ∧ stride_slice_of step l out.
Proof.
  intros Hstep. unfold slice_step.
  destruct (step =? 0) eqn:E; [apply Nat.eqb_eq in E; lia|].
  eexists. split; [done|]. split; [done|].
  split; [intros i; by rewrite every_nth_lookup|].
  split; [apply every_nth_sublist|]. by destruct l.
Qed.

Lemma reduce_coords_spec {A} cap k (coords : list A) :
  1 ≤ k → k ≤ cap → cap < length coords →
  ∃ out, reduce_coords cap k coords = Some out
         ∧ stride_slice_of (length coords / k) coords out.
Proof.
  intros Hk Hcap Hlen. unfold reduce_coords.
  destruct (cap <? length coords) eqn:E; [|apply Nat.ltb_ge in E; lia].
  apply slice_step_spec. apply Nat.div_le_lower_bound; lia.
Qed.

(** C10.  A route with more coordinates than the cap (15, 10 or 30) is
    published as the stride slice [coords[::step]] with
    [step = len(coords) // k] ([k] = 12, 8 or 25): element [i] of the
    result is element [i * step] of the route, so the result is a
    subsequence in the original order that starts with the first
    coordinate.  The last coordinate can be left out: it is for routes
    of 26, 18 and 52 coordinates. *)
Theorem reduced_route_is_stride_slice {A} (coords : list A) :
  (15 < length coords →
     ∃ out, ultra_route_coords coords = Some out
            ∧ stride_slice_of (length coords / 12) coords out)
  ∧ (10 < length coords →
       ∃ out, minimal_route_coords coords = Some out
              ∧ stride_slice_of (length coords / 8) coords out)
  ∧ (30 < length coords →
       ∃ out, optimized_route_coords coords = Some out
              ∧ stride_slice_of (length coords / 25) coords out)
  ∧ (∃ out, ultra_route_coords (seq 0 26) = Some out
            ∧ last (seq 0 26) = Some 25 ∧ 25 ∉ out)
  ∧ (∃ out, minimal_route_coords (seq 0 18) = Some out
            ∧ last (seq 0 18) = Some 17 ∧ 17 ∉ out)
  ∧ (∃ out, optimized_route_coords (seq 0 52) = Some out
            ∧ last (seq 0 52) = Some 51 ∧ 51 ∉ out).
Proof.
  split; [|split; [|split]].
  - intros H. apply reduce_coords_spec; lia.
  - intros H. apply reduce_coords_spec; lia.
  - intros H. apply reduce_coords_spec; lia.
  - repeat split; (eexists; split; [reflexivity|]; split; [reflexivity|]);
      apply (bool_decide_unpack _); vm_compute; exact I.
Qed.

Lemma reduced_route_is_stride_slice_witness :
  ∃ out, ultra_route_coords (seq 0 26) = Some out
         ∧ stride_slice_of 2 (seq 0 26) out.
Proof.
  destruct (reduced_route_is_stride_slice (seq 0 26)) as [H _].
  apply H. vm_compute. lia.
Defined.

End ReductionClaims.

(** ** The order of floats *)

Module FloatOrder.
Local Open Scope float_scope.

Lemma SFltb_trans a b c :
  SpecFloat.SFltb a b = true → SpecFloat.SFltb b c = true → SpecFloat.SFltb a c = true.
Proof.
  unfold SpecFloat.SFltb, SpecFloat.SFcompare.
  destruct a as [sa|sa| |sa ma ea], b as [sb|sb| |sb mb eb], c as [sc|sc| |sc mc ec];
    try destruct sa; try destruct sb; try destruct sc; try discriminate; try reflexivity;
    change (PosDef.Pos.compare_cont Eq) with Pos.compare;
    destruct (Z.compare_spec ea eb), (Z.compare_spec eb ec), (Z.compare_spec ea ec);
    try discriminate; try reflexivity; try lia; subst;
    destruct (Pos.compare_spec ma mb), (Pos.compare_spec mb mc), (Pos.compare_spec ma mc);
    cbn [CompOpp]; try discriminate; try reflexivity; lia.
Qed.

Lemma SFleb_ltb_trans a b c :
  SpecFloat.SFleb a b = true → SpecFloat.SFltb b c = true → SpecFloat.SFltb a c = true.
Proof.
  unfold SpecFloat.SFleb, SpecFloat.SFltb, SpecFloat.SFcompare.
  destruct a as [sa|sa| |sa ma ea], b as [sb|sb| |sb mb eb], c as [sc|sc| |sc mc ec];
    try destruct sa; try destruct sb; try destruct sc; try discriminate; try reflexivity;
    change (PosDef.Pos.compare_cont Eq) with Pos.compare;
    destruct (Z.compare_spec ea eb), (Z.compare_spec eb ec), (Z.compare_spec ea ec);
    try discriminate; try reflexivity; try lia; subst;
    destruct (Pos.compare_spec ma mb), (Pos.compare_spec mb mc), (Pos.compare_spec ma mc);
    cbn [CompOpp]; try discriminate; try reflexivity; lia.
Qed.

Lemma SFltb_irrefl a : SpecFloat.SFltb a a = false.
Proof.
  unfold SpecFloat.SFltb, SpecFloat.SFcompare.
  destruct a as [sa|sa| |sa ma ea]; try destruct sa; try reflexivity;
    change (PosDef.Pos.compare_cont Eq) with Pos.compare;
    rewrite Z.compare_refl, Pos.compare_refl; reflexivity.
Qed.

(** The comparison [<] of Python floats is transitive and irreflexive. *)
Lemma float_ltb_trans x y z : (x <? y) = true → (y <? z) = true → (x <? z) = true.
Proof. rewrite !FloatAxioms.ltb_spec. apply SFltb_trans. Qed.

Lemma float_ltb_irrefl x : (x <? x) = false.
Proof. rewrite FloatAxioms.ltb_spec. apply SFltb_irrefl. Qed.

(** What is at most a bound is below whatever the bound is below. *)
Lemma float_leb_ltb_trans x y z : (x <=? y) = true → (y <? z) = true → (x <? z) = true.
Proof. rewrite FloatAxioms.leb_spec, !FloatAxioms.ltb_spec. apply SFleb_ltb_trans. Qed.

(** A running minimum that moved from [m] down to [d] is still not
    above anything [m] was not above. *)
Lemma float_ltb_lower x d m : (x <? m) = false → (d <? m) = true → (x <? d) = false.
Proof.
  intros Hx Hd. destruct (x <? d) eqn:E; [|done].
  by rewrite (float_ltb_trans x d m E Hd) in Hx.
Qed.

End FloatOrder.

(** ** Loops that may raise *)

Module FoldFacts.
Import Geometry.

Lemma fold_opt_None {S X} (body : S → X → option S) l :
  foldl (λ acc x, st ← acc; body st x) None l = None.
Proof. induction l as [|x l IH]; [done|]. exact IH. Qed.

Lemma fold_opt_nil {S X} (body : S → X → option S) init :
  fold_opt body init [] = Some init.
Proof. done. Qed.

Lemma fold_opt_cons {S X} (body : S → X → option S) init x l :
  fold_opt body init (x :: l) = st ← body init x; fold_opt body st l.
Proof.
  unfold fold_opt. cbn [foldl mbind option_bind].
  destruct (body init x); [done|apply fold_opt_None].
Qed.

(** An invariant of the loop state holds when the loop returns. *)
Lemma fold_opt_ind {S X} (Inv : S → Prop) (body : S → X → option S) l init st :
  Inv init →
  (∀ s x s', x ∈ l → Inv s → body s x = Some s' → Inv s') →
  fold_opt body init l = Some st → Inv st.
Proof.
  revert init. induction l as [|x l IH]; intros init Hinit Hstep.
  - rewrite fold_opt_nil. by intros [= <-].
  - rewrite fold_opt_cons. destruct (body init x) as [s|] eqn:Hb; [|done].
    cbn [mbind option_bind]. apply IH.
    + eapply Hstep; [left|done..].
    + intros s0 x0 s' Hx0. apply Hstep. by right.
Qed.

(** The loop returns when no pass raises. *)
Lemma fold_opt_total {S X} (Inv : S → Prop) (body : S → X → option S) l init :
  Inv init →
  (∀ s x, x ∈ l → Inv s → ∃ s', body s x = Some s' ∧ Inv s') →
  ∃ st, fold_opt body init l = Some st ∧ Inv st.
Proof.
  revert init. induction l as [|x l IH]; intros init Hinit Hstep.
  - by exists init.
  - rewrite fold_opt_cons.
    destruct (Hstep init x) as (s & -> & Hs); [left|done|].
    cbn [mbind option_bind]. apply IH; [done|].
    intros s0 x0 Hx0. apply Hstep. by right.
Qed.

(** A loop that appends one output per input: the outputs are in the
    order of the inputs. *)
Lemma fold_opt_pointwise {X Y} (body : list Y → X → option (list Y))
    (Q : X → Y → Prop) l acc out :
  (∀ acc x acc', x ∈ l → body acc x = Some acc' → ∃ q, acc' = acc ++ [q] ∧ Q x q) →
  fold_opt body acc l = Some out →
  ∃ qs, out = acc ++ qs ∧ Forall2 Q l qs.
Proof.
  revert acc. induction l as [|x l IH]; intros acc Hstep.
  - rewrite fold_opt_nil. intros [= <-]. exists []. by rewrite app_nil_r.
  - rewrite fold_opt_cons. destruct (body acc x) as [acc'|] eqn:Hb; [|done].
    cbn [mbind option_bind]. intros Hout.
    destruct (Hstep acc x acc') as (q & -> & Hq); [left|done|].
    destruct (IH (acc ++ [q])) as (qs & -> & Hqs); [|done|].
    + intros acc0 x0 acc0' Hx0. apply Hstep. by right.
    + exists (q :: qs). rewrite <- app_assoc. split; [done|]. by constructor.
Qed.

Lemma fold_opt_app {S X} (body : S → X → option S) init l1 l2 :
  fold_opt body init (l1 ++ l2) = st ← fold_opt body init l1; fold_opt body st l2.
Proof.
  revert init. induction l1 as [|x l1 IH]; intros init; [done|].
  cbn [app]. rewrite !fold_opt_cons.
  destruct (body init x) as [s|]; [|done]. cbn [mbind option_bind]. apply IH.
Qed.

Lemma fold_opt_app_inv {S X} (body : S → X → option S) init l1 l2 st :
  fold_opt body init (l1 ++ l2) = Some st →
  ∃ s1, fold_opt body init l1 = Some s1 ∧ fold_opt body s1 l2 = Some st.
Proof.
  rewrite fold_opt_app. destruct (fold_opt body init l1) as [s1|]; [|done]. eauto.
Qed.

Lemma fold_opt_bind {S X Y} (body : S → Y → option S) (f : X → list Y) init l :
  fold_opt body init (l ≫= f) = fold_opt (λ st x, fold_opt body st (f x)) init l.
Proof.
  revert init. induction l as [|x l IH]; intros init; [done|].
  rewrite bind_cons, fold_opt_app, fold_opt_cons.
  destruct (fold_opt body init (f x)) as [s|]; [|done]. cbn [mbind option_bind]. apply IH.
Qed.

(** A pass that raises whatever the state makes the loop raise. *)
Lemma fold_opt_raises {S X} (body : S → X → option S) init l x :
  x ∈ l → (∀ s, body s x = None) → fold_opt body init l = None.
Proof.
  intros (l1 & l2 & ->)%list_elem_of_split Hx. rewrite fold_opt_app.
  destruct (fold_opt body init l1) as [s|]; [|done]. cbn [mbind option_bind].
  rewrite fold_opt_cons. by rewrite Hx.
Qed.

(** A property that every pass keeps and that the pass over [x]
    establishes holds after a loop that visits [x]. *)
Lemma fold_opt_establish {S X} (P : S → Prop) (body : S → X → option S) l init st x :
  x ∈ l →
  (∀ s y s', y ∈ l → P s → body s y = Some s' → P s') →
  (∀ s s', body s x = Some s' → P s') →
  fold_opt body init l = Some st → P st.
Proof.
  intros (l1 & l2 & ->)%list_elem_of_split Hkeep Hset Hfold.
  apply fold_opt_app_inv in Hfold as (s1 & _ & Hfold).
  rewrite fold_opt_cons in Hfold.
  destruct (body s1 x) as [s2|] eqn:Hx; [|done]. cbn [mbind option_bind] in Hfold.
  revert Hfold. apply fold_opt_ind; [by eapply Hset|].
  intros s y s' Hy. apply Hkeep. apply elem_of_app. right. by right.
Qed.

(** When a pass raises or not whatever the state, the loop returns
    exactly when no pass raises. *)
Lemma fold_opt_defined {S X} (body : S → X → option S) (D : X → Prop) l init :
  (∀ s x, is_Some (body s x) ↔ D x) →
  is_Some (fold_opt body init l) ↔ Forall D l.
Proof.
  intros Hbody. revert init. induction l as [|x l IH]; intros init.
  - rewrite fold_opt_nil. split; [constructor|by eexists].
  - rewrite fold_opt_cons, Forall_cons, <- (Hbody init x).
    destruct (body init x) as [s|]; cbn [mbind option_bind].
    + rewrite IH. split; [by split; [eexists|]|tauto].
    + split; [by intros ?%is_Some_None|by intros [?%is_Some_None _]].
Qed.

End FoldFacts.

(** ** Alignment *)

Module AlignmentFacts.
Import Geometry Notions FoldFacts FloatOrder.
Local Open Scope float_scope.

Lemma nearest_scan_spec {P} (dist : P → option float) max points nearest d :
  nearest_scan dist max points = Some (nearest, d) →
  match nearest with
  | Some p => p ∈ points ∧ dist p = Some d ∧ (d <=? max) = true
  | None => d = infinity
  end.
Proof.
  unfold nearest_scan.
  apply (fold_opt_ind
           (λ st, match st.1 with
                  | Some p => p ∈ points ∧ dist p = Some st.2 ∧ (st.2 <=? max) = true
                  | None => st.2 = infinity
                  end)); [done|].
  intros [nearest0 min_dist] point s' Hpoint Hinv.
  destruct (dist point) as [d0|] eqn:Hd; [|done]. cbn [mbind option_bind].
  destruct ((d0 <? min_dist) && (d0 <=? max)) eqn:E; intros [= <-]; [|done].
  apply andb_prop in E as [_ E]. done.
Qed.

(** The scan of the vertex scripts returns a minimum: no point within
    the radius is strictly nearer than the distance it returns. *)
Lemma nearest_scan_minimal {P} (dist : P → option float) max points nearest d q d' :
  nearest_scan dist max points = Some (nearest, d) →
  q ∈ points → dist q = Some d' → (d' <=? max) = true → (d' <? d) = false.
Proof.
  unfold nearest_scan. intros Hscan Hq Hd' Hmax.
  change d with (nearest, d).2. revert Hscan.
  apply (fold_opt_establish (λ st, (d' <? st.2) = false) _ points _ _ q Hq).
  - intros [n m] y s' _ Hm. cbn [snd] in Hm.
    destruct (dist y) as [dy|]; [|done]. cbn [mbind option_bind].
    destruct ((dy <? m) && (dy <=? max)) eqn:E; intros [= <-]; [|done].
    apply andb_prop in E as [E _]. cbn [snd]. by eapply float_ltb_lower.
  - intros [n m] s'. rewrite Hd'. cbn [mbind option_bind]. rewrite Hmax, andb_true_r.
    destruct (d' <? m) eqn:E; intros [= <-]; cbn [snd]; [apply float_ltb_irrefl|done].
Qed.

(** The scan returns no point only when no point lies within a finite
    radius. *)
Lemma nearest_scan_none {P} (dist : P → option float) max points d q d' :
  (max <? infinity) = true →
  nearest_scan dist max points = Some (None, d) →
  q ∈ points → dist q = Some d' → (d' <=? max) = false.
Proof.
  unfold nearest_scan. intros Hfin Hscan Hq Hd'.
  set (body := λ '(nearest, min_dist) point,
                 d ← dist point;
                 if (d <? min_dist) && (d <=? max)
                 then Some (Some point, d) else Some (nearest, min_dist)) in Hscan.
  assert (∀ n m y, body (n, m) y
                   = (dy ← dist y;
                      if (dy <? m) && (dy <=? max)
                      then Some (Some y, dy) else Some (n, m))) as Hbody by done.
  assert (∀ l n m st, n ≠ None → fold_opt body (n, m) l = Some st → st.1 ≠ None)
    as Hfound.
  { intros l n m st Hn. apply (fold_opt_ind (λ st, st.1 ≠ None)); [done|].
    intros [n0 m0] y s' _ Hn0. rewrite Hbody.
    destruct (dist y) as [dy|]; [|done]. cbn [mbind option_bind].
    by destruct ((dy <? m0) && (dy <=? max)); intros [= <-]. }
  assert (∀ l st, fold_opt body (None, infinity) l = Some st → st.1 = None →
                  q ∈ l → (d' <=? max) = false) as Hscan'.
  { induction l as [|y l IH]; intros st; [by intros _ _ ?%elem_of_nil|].
    rewrite fold_opt_cons, Hbody.
    destruct (dist y) as [dy|] eqn:Hdy; cbn [mbind option_bind]; [|done].
    destruct ((dy <? infinity) && (dy <=? max)) eqn:E; intros Hfold Hst.
    - by apply Hfound in Hfold.
    - intros [->|Hin]%elem_of_cons; [|by eapply IH].
      rewrite Hd' in Hdy. injection Hdy as <-.
      destruct (d' <=? max) eqn:Hle; [|done].
      by rewrite (float_leb_ltb_trans _ _ _ Hle Hfin) in E. }
  by apply (Hscan' points (None, d)).
Qed.

(** The scan returns exactly when no distance raises. *)
Lemma nearest_scan_defined {P} (dist : P → option float) max points :
  is_Some (nearest_scan dist max points) ↔ Forall (λ p, is_Some (dist p)) points.
Proof.
  unfold nearest_scan. apply fold_opt_defined. intros [n m] p.
  destruct (dist p) as [d|]; cbn [mbind option_bind].
  - by destruct ((d <? m) && (d <=? max)).
  - done.
Qed.



Section WithMath.
Context `{MathLib}.

Lemma nearest_vertex_spec lat lng points max nearest d :
  Alignment.find_nearest_railway_point lat lng points max = Some (nearest, d) →
  match nearest with
  | Some p => p ∈ points ∧ haversine_distance lat lng p.1 p.2 = Some d
              ∧ (d <=? max) = true
  | None => d = infinity
  end.
Proof.
  unfold Alignment.find_nearest_railway_point. destruct points as [|p0 points].
  - by intros [= <- <-].
  - apply (nearest_scan_spec (λ point, haversine_distance lat lng point.1 point.2)).
Qed.




End WithMath.
End AlignmentFacts.

(** ** Snapping onto the nearest segment *)

Module TrainAlignmentFacts.
Import Geometry Notions FoldFacts TrainAlignment.
Local Open Scope float_scope.


Lemma unpack2_Some c x y : unpack2 c = Some (x, y) ↔ c = [x; y].
Proof.
  unfold unpack2. destruct c as [|a [|b [|? ?]]]; split; try done; by intros [= -> ->].
Qed.

Lemma unpack2_length (c : lonlat) : two_components c → ∃ x y, c = [x; y].
Proof. unfold two_components. destruct c as [|a [|b [|? ?]]]; try done. eauto. Qed.

Lemma unpack2_None (c : lonlat) : ¬ two_components c → unpack2 c = None.
Proof. unfold two_components. by destruct c as [|a [|b [|? ?]]]. Qed.

Lemma multiline_segments_intro lines line seg railway_lines :
  MultiLineString lines ∈ railway_lines → line ∈ lines → seg ∈ segments_of line →
  seg ∈ multiline_segments railway_lines.
Proof.
  intros Hf Hl Hs. unfold multiline_segments. apply list_elem_of_bind.
  exists (MultiLineString lines). split; [|done]. apply list_elem_of_bind. eauto.
Qed.

Lemma multiline_segments_elim seg railway_lines :
  seg ∈ multiline_segments railway_lines →
  ∃ lines line, MultiLineString lines ∈ railway_lines ∧ line ∈ lines
                ∧ seg ∈ segments_of line.
Proof.
  unfold multiline_segments. intros (geom & Hin & Hgeom)%list_elem_of_bind.
  destruct geom as [coords|lines|ty]; try by apply elem_of_nil in Hin.
  apply list_elem_of_bind in Hin as (line & Hs & Hl). eauto.
Qed.

Section WithMath.
Context `{MathLib}.


(** The closest point is computed whenever the distance is: it takes
    the same two squares. *)
Lemma closest_on_segment_defined x0 y0 s e :
  is_Some (distance_point_to_line [x0; y0] s e) →
  is_Some (closest_on_segment x0 y0 s e).
Proof.
  unfold distance_point_to_line, closest_on_segment.
  change (unpack2 [x0; y0]) with (Some (x0, y0)). cbn [mbind option_bind].
  destruct (unpack2 s) as [[x1 y1]|]; cbn [mbind option_bind];
    [|by intros ?%is_Some_None].
  destruct (unpack2 e) as [[x2 y2]|]; cbn [mbind option_bind];
    [|by intros ?%is_Some_None].
  destruct (squared_length (x2 - x1) (y2 - y1)) as [l|]; cbn [mbind option_bind];
    [|by intros ?%is_Some_None].
  intros _. by destruct (l =? 0).
Qed.

(** One pass of the scan raises exactly when its distance does. *)
Lemma visit_segment_defined lon lat st seg :
  is_Some (visit_segment lon lat st seg)
  ↔ is_Some (distance_point_to_line [lon; lat] seg.1 seg.2).
Proof.
  unfold visit_segment. destruct st as [m best], seg as [s e]. cbn [fst snd].
  split.
  - destruct (distance_point_to_line _ _ _); cbn [mbind option_bind];
      [by eexists|by intros ?%is_Some_None].
  - intros Hd. destruct (closest_on_segment_defined _ _ _ _ Hd) as [q Hq].
    destruct Hd as [d ->]. cbn [mbind option_bind].
    destruct (d <? m); [|by eexists]. rewrite Hq. by eexists.
Qed.

(** The scan of [fix_train_alignment.py] is a scan of the segments of
    the [MultiLineString] features. *)
Lemma visit_features_flat lon lat st railway_lines :
  fold_opt (visit_feature lon lat) st railway_lines
  = fold_opt (visit_segment lon lat) st (multiline_segments railway_lines).
Proof.
  unfold multiline_segments. rewrite fold_opt_bind.
  revert st. induction railway_lines as [|feature l IH]; intros st; [done|].
  rewrite !fold_opt_cons.
  assert (visit_feature lon lat st feature
          = fold_opt (visit_segment lon lat) st
              match feature with
              | MultiLineString lines => lines ≫= segments_of
              | _ => []
              end) as ->.
  { destruct feature as [coords|lines|ty]; [done| |done].
    cbn [visit_feature]. by rewrite fold_opt_bind. }
  destruct (fold_opt _ st _) as [s|]; [|done]. cbn [mbind option_bind]. apply IH.
Qed.

Section Scan.
Variables (p : lonlat) (lon lat : float) (railway_lines : list geometry).


End Scan.


(** The scan returns exactly when the train point has two components
    and no distance to a segment raises. *)
Lemma nearest_segment_point_defined p railway_lines :
  is_Some (find_nearest_railway_point p railway_lines)
  ↔ two_components p ∧ segment_distances_defined railway_lines p.
Proof.
  unfold find_nearest_railway_point, segment_distances_defined.
  destruct (unpack2 p) as [[lon lat]|] eqn:Hp.
  - apply unpack2_Some in Hp as ->. cbn [mbind option_bind].
    rewrite fmap_is_Some, visit_features_flat.
    rewrite (fold_opt_defined _
               (λ seg, is_Some (distance_point_to_line [lon; lat] seg.1 seg.2)))
      by (intros s seg; apply visit_segment_defined).
    unfold two_components. cbn [length]. tauto.
  - cbn [mbind option_bind]. split; [by intros ?%is_Some_None|].
    intros [(x & y & ->)%unpack2_length _]. done.
Qed.

(** [aligned_route] on coordinates of at least two components: when
    it returns, it returns one output per input, in order. *)
Lemma aligned_route_spec route railway_lines out :
  Forall well_formed route →
  aligned_route route railway_lines = Some out →
  Forall2 (λ coord q, find_nearest_railway_point coord railway_lines = Some q)
          route out.
Proof.
  intros Hroute. unfold aligned_route.
  destruct route as [|c0 route0] eqn:Hr; [intros [= <-]; constructor|].
  rewrite <- Hr in *.
  destruct (fold_opt _ _ _) as [aligned|] eqn:Hloop; [|done].
  cbn [mbind option_bind].
  apply fold_opt_pointwise
    with (Q := λ coord q, find_nearest_railway_point coord railway_lines = Some q)
    in Hloop as (qs & -> & Hqs).
  - cbn [app]. destruct qs as [|q qs]; intros [= <-]; [|done].
    apply Forall2_nil_inv_r in Hqs. by rewrite Hr in Hqs.
  - intros acc coord acc' Hcoord. rewrite Forall_forall in Hroute.
    specialize (Hroute coord Hcoord). unfold well_formed in Hroute.
    destruct (2 <=? length coord)%nat eqn:E; [|apply Nat.leb_gt in E; lia].
    destruct (find_nearest_railway_point coord railway_lines) as [q|]; [|done].
    intros [= <-]. eauto.
Qed.

(** It returns when the coordinates have two components and no
    distance to a segment raises. *)
Lemma aligned_route_total route railway_lines :
  Forall two_components route →
  Forall (segment_distances_defined railway_lines) route →
  is_Some (aligned_route route railway_lines).
Proof.
  intros Hroute Hdef. unfold aligned_route.
  destruct route as [|c0 route0] eqn:Hr; [by eexists|]. rewrite <- Hr in *. clear Hr.
  rewrite Forall_forall in Hroute. rewrite Forall_forall in Hdef.
  match goal with |- context [fold_opt ?body ?init route] =>
    destruct (fold_opt_total (λ _, True) body route init) as (st & -> & _); [done|..]
  end.
  - intros acc coord Hcoord _.
    destruct (proj2 (nearest_segment_point_defined coord railway_lines)) as [q ->];
      [by auto|].
    destruct (2 <=? length coord)%nat; eauto.
  - cbn [mbind option_bind]. by destruct st; eexists.
Qed.

End WithMath.
End TrainAlignmentFacts.

(** ** Densifying and snapping onto track points *)

Module TrainRoutesFacts.
Import Geometry Notions FoldFacts AlignmentFacts TrainRoutes.
Local Open Scope float_scope.

Section WithMath.
Context `{MathLib}.

(** What [find_nearest_track_point] returns for a finite radius: a
    nearest track point within the radius, or nothing when no track
    point lies within the radius. *)
Lemma find_nearest_track_point_spec lat0 lon0 tracks radius nearest d :
  (radius <? infinity) = true →
  find_nearest_track_point lat0 lon0 tracks radius = Some (nearest, d) →
  match nearest with
  | Some tp => nearest_track tracks radius lat0 lon0 tp d
  | None => no_track_within tracks radius lat0 lon0
  end.
Proof.
  unfold find_nearest_track_point. intros Hfin Hn.
  pose proof (nearest_scan_spec _ _ _ _ _ Hn) as Hspec.
  destruct nearest as [tp|].
  - destruct Hspec as (Hin & Hd & Hmax). repeat (split; [done|]).
    intros tp' d' Htp' Hd' Hmax'.
    by apply (nearest_scan_minimal _ _ _ _ _ tp' d' Hn).
  - intros tp' d' Htp' Hd'. by apply (nearest_scan_none _ _ _ _ tp' d' Hfin Hn).
Qed.

(** It returns exactly when no distance to a track point raises. *)
Lemma find_nearest_track_point_defined lat0 lon0 tracks radius :
  is_Some (find_nearest_track_point lat0 lon0 tracks radius)
  ↔ Forall (λ tp, is_Some (track_distance lat0 lon0 tp)) tracks.
Proof. apply nearest_scan_defined. Qed.

Lemma snap_coord_spec tracks acc coord acc' :
  well_formed coord → snap_coord tracks acc coord = Some acc' →
  ∃ q, acc' = acc ++ [q] ∧ snapped_to_track tracks 20 coord q.
Proof.
  unfold well_formed, snap_coord. intros Hwf.
  destruct coord as [|lon0 [|lat0 rest]]; [simpl in Hwf; lia..|].
  destruct (find_nearest_track_point lat0 lon0 tracks 20) as [[nearest d]|] eqn:Hn;
    [|done].
  apply find_nearest_track_point_spec in Hn; [|reflexivity].
  destruct nearest as [tp|]; intros [= <-]; eexists; (split; [done|]);
    exists lon0, lat0, rest; (split; [done|]); [left|right]; eauto.
Qed.

(** One pass of the snap raises exactly when a distance from its
    coordinate does. *)
Lemma snap_coord_defined tracks acc coord :
  is_Some (snap_coord tracks acc coord) ↔ distances_defined tracks coord.
Proof.
  unfold snap_coord, distances_defined.
  destruct coord as [|lon0 [|lat0 rest]]; [by split; [|eexists]..|].
  rewrite <- (find_nearest_track_point_defined lat0 lon0 tracks 20).
  destruct (find_nearest_track_point lat0 lon0 tracks 20) as [[[tp|] d]|];
    split; try done; by eexists.
Qed.

(** [snap_route_to_tracks] on well-formed coordinates: one output per
    input, in order. *)
Lemma snap_route_to_tracks_spec route tracks out :
  Forall well_formed route → snap_route_to_tracks route tracks = Some out →
  Forall2 (snapped_to_track tracks 20) route out.
Proof.
  intros Hwf Hout. rewrite Forall_forall in Hwf.
  apply fold_opt_pointwise with (Q := snapped_to_track tracks 20) in Hout
    as (qs & -> & Hqs); [done|].
  intros acc x acc' Hx. apply snap_coord_spec. auto.
Qed.

(** It returns exactly when no distance from a coordinate of the route
    to a track point raises. *)
Lemma snap_route_to_tracks_defined route tracks :
  is_Some (snap_route_to_tracks route tracks)
  ↔ Forall (distances_defined tracks) route.
Proof. apply fold_opt_defined. intros acc coord. apply snap_coord_defined. Qed.

Lemma interpolate_spec start_lat start_lon end_lat end_lon num_points i ilon ilat :
  interpolate start_lat start_lon end_lat end_lon num_points i = Some (ilon, ilat) ↔
  interpolated start_lat start_lon end_lat end_lon num_points i ilon ilat.
Proof.
  unfold interpolate, interpolated. cbv zeta.
  destruct (math_sin _) as [s|]; cbn [mbind option_bind]; split.
  - intros [= <- <-]. eauto.
  - intros (s' & [= <-] & -> & ->). done.
  - done.
  - by intros (s' & ? & _).
Qed.

Lemma intermediate_point_spec start_lat start_lon r1 end_lat end_lon r2 tracks n i q :
  intermediate_point start_lat start_lon end_lat end_lon tracks n i = Some q →
  synthesized (start_lon :: start_lat :: r1) (end_lon :: end_lat :: r2) tracks n i q
  ∧ two_components q.
Proof.
  unfold intermediate_point.
  destruct (interpolate _ _ _ _ _ _) as [[ilon ilat]|] eqn:Hi; [|done].
  apply interpolate_spec in Hi.
  destruct (find_nearest_track_point ilat ilon tracks 15) as [[nearest d]|] eqn:Hn;
    [|done].
  apply find_nearest_track_point_spec in Hn; [|reflexivity].
  destruct nearest as [tp|]; intros [= <-]; (split; [|done]);
    exists start_lon, start_lat, r1, end_lon, end_lat, r2, ilon, ilat;
    (split; [done|]); (split; [done|]); (split; [done|]);
    exists ilon, ilat, []; (split; [done|]); [left|right]; eauto.
Qed.

(** The intermediate point of a step is computed when its interpolated
    point is and the distances from that point are defined; it is that
    point or a track point. *)
Lemma intermediate_point_total start_lat start_lon end_lat end_lon tracks n i ilon ilat :
  interpolate start_lat start_lon end_lat end_lon n i = Some (ilon, ilat) →
  distances_defined tracks [ilon; ilat] →
  ∃ q, intermediate_point start_lat start_lon end_lat end_lon tracks n i = Some q
       ∧ (q = [ilon; ilat] ∨ ∃ tp, tp ∈ tracks ∧ q = [lon tp; lat tp]).
Proof.
  intros Hi Hdef. unfold intermediate_point. rewrite Hi.
  apply (find_nearest_track_point_defined ilat ilon tracks 15) in Hdef
    as [[nearest d] Hn].
  rewrite Hn. apply nearest_scan_spec in Hn.
  destruct nearest as [tp|]; eexists; (split; [done|]); [right|by left].
  exists tp. tauto.
Qed.

(** The intermediate points: one per step 1, ..., [num_points], in order. *)
Lemma create_realistic_intermediate_points_spec start_coord end_coord tracks n pts :
  well_formed start_coord → well_formed end_coord →
  create_realistic_intermediate_points start_coord end_coord tracks n = Some pts →
  Forall2 (λ i q, synthesized start_coord end_coord tracks n i q ∧ two_components q)
          (seq 1 n) pts.
Proof.
  unfold well_formed, create_realistic_intermediate_points. intros Hs He.
  destruct start_coord as [|start_lon [|start_lat r1]]; [simpl in Hs; lia..|].
  destruct end_coord as [|end_lon [|end_lat r2]]; [simpl in He; lia..|].
  intros Hout.
  eapply fold_opt_pointwise in Hout as (qs & -> & Hqs); [done|].
  intros acc i acc' _.
  destruct (intermediate_point _ _ _ _ _ _ _) as [q|] eqn:Hq; [|done].
  intros [= <-]. exists q. split; [done|]. by eapply intermediate_point_spec.
Qed.

(** The six intermediate points are computed when nothing raises, and
    the distances from each of them are defined. *)
Lemma create_realistic_intermediate_points_total start_coord end_coord tracks :
  densify_defined start_coord end_coord tracks →
  ∃ pts, create_realistic_intermediate_points start_coord end_coord tracks 6 = Some pts
         ∧ Forall (distances_defined tracks) pts.
Proof.
  intros (_ & _ & Htracks & Hsteps). unfold create_realistic_intermediate_points.
  destruct start_coord as [|start_lon [|start_lat r1]]; [by exists []..|].
  destruct end_coord as [|end_lon [|end_lat r2]]; [by exists []..|].
  rewrite Forall_forall in Hsteps. rewrite Forall_forall in Htracks.
  apply (fold_opt_total (Forall (distances_defined tracks))); [constructor|].
  intros acc i Hi Hacc. destruct (Hsteps i Hi) as (ilon & ilat & Hint & Hdef).
  destruct (intermediate_point_total _ _ _ _ _ _ _ _ _ Hint Hdef)
    as (q & -> & [->|(tp & Htp & ->)]); cbn [mbind option_bind];
    (eexists; split; [done|]); apply Forall_app; (split; [done|]);
    constructor; auto.
Qed.

End WithMath.
End TrainRoutesFacts.

(** ** The alignment and densification claims *)

Module RouteClaims.
Import Geometry Notions FoldFacts AlignmentFacts TrainAlignmentFacts TrainRoutesFacts.
Local Open Scope float_scope.

Lemma two_components_well_formed c : two_components c → well_formed c.
Proof. unfold two_components, well_formed. lia. Qed.

Lemma head_well_formed (route : list lonlat) s :
  Forall well_formed route → head route = Some s → well_formed s.
Proof.
  intros Hwf Hs. rewrite Forall_forall in Hwf. apply Hwf.
  by apply head_Some_elem_of.
Qed.

Lemma last_well_formed (route : list lonlat) e :
  Forall well_formed route → last route = Some e → well_formed e.
Proof.
  intros Hwf He. rewrite Forall_forall in Hwf. apply Hwf.
  apply last_Some in He as [l' ->]. apply elem_of_app. right. by left.
Qed.

Section WithMath.
Context `{MathLib}.

(** A sparse route: the result is the snap of first, six synthesized
    points, last. *)
Lemma fix_route_sparse route tracks s e out :
  (2 ≤ length route)%nat → (length route < 8)%nat →
  head route = Some s → last route = Some e →
  well_formed s → well_formed e →
  TrainRoutes.fix_route route tracks = Some out →
  ∃ mid, length mid = 6%nat
         ∧ Forall2 (synthesized s e tracks 6) (seq 1 6) mid
         ∧ Forall2 (snapped_to_track tracks 20) (s :: mid ++ [e]) out
         ∧ length out = 8%nat.
Proof.
  intros H2 H8 Hs He Ws We. unfold TrainRoutes.fix_route.
  destruct (length route <? 2)%nat eqn:E2; [apply Nat.ltb_lt in E2; lia|].
  destruct (length route <? 8)%nat eqn:E8; [|apply Nat.ltb_ge in E8; lia].
  rewrite Hs, He.
  destruct (TrainRoutes.create_realistic_intermediate_points s e tracks 6)
    as [mid|] eqn:Hmid; [|done].
  cbn [mbind option_bind]. intros Hout.
  apply create_realistic_intermediate_points_spec in Hmid; [|done..].
  assert (length mid = 6%nat) as Hlen.
  { apply Forall2_length in Hmid. by rewrite length_seq in Hmid. }
  apply snap_route_to_tracks_spec in Hout.
  - exists mid. split; [done|]. split.
    + eapply Forall2_impl; [exact Hmid|]. by intros i q [? _].
    + split; [done|]. apply Forall2_length in Hout. rewrite <- Hout.
      cbn [length app]. rewrite length_app, Hlen. done.
  - cbn [app]. constructor; [done|]. apply Forall_app. split.
    + apply Forall2_Forall_r with (Q := well_formed) in Hmid; [done|].
      apply Forall_forall. intros i _ q [_ Hq]. by apply two_components_well_formed.
    + by constructor.
Qed.

(** A sparse route is densified when nothing raises on the way. *)
Lemma fix_route_total route tracks s e :
  (length route < 8)%nat → head route = Some s → last route = Some e →
  densify_defined s e tracks →
  is_Some (TrainRoutes.fix_route route tracks).
Proof.
  intros H8 Hs He Hdef. unfold TrainRoutes.fix_route.
  destruct (length route <? 2)%nat eqn:E2; [by eexists|].
  destruct (length route <? 8)%nat eqn:E8; [|apply Nat.ltb_ge in E8; lia].
  rewrite Hs, He.
  destruct (create_realistic_intermediate_points_total s e tracks Hdef)
    as (mid & -> & Hmid).
  cbn [mbind option_bind]. apply snap_route_to_tracks_defined.
  destruct Hdef as (Ds & De & _).
  cbn [app]. constructor; [done|]. apply Forall_app. split; [done|]. by constructor.
Qed.



(** C5, as the code has it.  On a route whose coordinates are well
    formed (at least two components) alignment returns exactly as many
    points as it was given, the i-th output being the snap of the i-th
    input: for [fix_train_alignment.py] whenever it returns, which it
    does when the coordinates have two components and no distance to a
    segment raises; for the snap of [fix_train_routes.py] whenever it
    returns, which it does exactly when no distance from a coordinate
    of the route to a track point raises.  Densification of a route of
    at least two well-formed points never returns fewer points than
    given and keeps the order: a route of 8 points or more is snapped
    point by point; a sparser route is replaced by 8 points, the snaps
    of its first point, of the six points synthesized between its first
    and its last point and of its last point, in that order.  It
    returns when nothing raises on the way. *)
Theorem alignment_keeps_order :
  (∀ route railway_lines out,
     Forall well_formed route →
     TrainAlignment.aligned_route route railway_lines = Some out →
     length out = length route
     ∧ Forall2 (λ coord q,
                  TrainAlignment.find_nearest_railway_point coord railway_lines
                  = Some q) route out)
  ∧ (∀ route railway_lines,
       Forall two_components route →
       Forall (segment_distances_defined railway_lines) route →
       is_Some (TrainAlignment.aligned_route route railway_lines))
  ∧ (∀ route tracks out,
       Forall well_formed route →
       TrainRoutes.snap_route_to_tracks route tracks = Some out →
       length out = length route
       ∧ Forall2 (snapped_to_track tracks 20) route out)
  ∧ (∀ route tracks,
       is_Some (TrainRoutes.snap_route_to_tracks route tracks)
       ↔ Forall (distances_defined tracks) route)
  ∧ (∀ route tracks out,
       (2 ≤ length route)%nat → Forall well_formed route →
       TrainRoutes.fix_route route tracks = Some out →
       (length route ≤ length out)%nat
       ∧ (((8 ≤ length route)%nat ∧ Forall2 (snapped_to_track tracks 20) route out)
          ∨ ((length route < 8)%nat
             ∧ ∃ s e mid, head route = Some s ∧ last route = Some e
                 ∧ length out = 8%nat
                 ∧ Forall2 (synthesized s e tracks 6) (seq 1 6) mid
                 ∧ Forall2 (snapped_to_track tracks 20) (s :: mid ++ [e]) out)))
  ∧ (∀ route tracks,
       ((8 ≤ length route)%nat → Forall (distances_defined tracks) route →
        is_Some (TrainRoutes.fix_route route tracks))
       ∧ (∀ s e, (length route < 8)%nat →
                 head route = Some s → last route = Some e →
                 densify_defined s e tracks →
                 is_Some (TrainRoutes.fix_route route tracks))).
Proof.
  split; [|split; [|split; [|split; [|split]]]].
  - intros route railway_lines out Hwf Ho.
    pose proof (aligned_route_spec _ _ _ Hwf Ho) as HF.
    split; [|done]. symmetry. by eapply Forall2_length.
  - apply aligned_route_total.
  - intros route tracks out Hwf Ho.
    pose proof (snap_route_to_tracks_spec _ _ _ Hwf Ho) as HF.
    split; [|done]. symmetry. by eapply Forall2_length.
  - apply snap_route_to_tracks_defined.
  - intros route tracks out H2 Hwf Ho.
    destruct (decide (length route < 8)%nat) as [H8|H8].
    + destruct route as [|s route'] eqn:Hr; [simpl in H2; lia|]. rewrite <- Hr in *.
      assert (head route = Some s) as Hs by by rewrite Hr.
      destruct (last route) as [e|] eqn:He; [|apply last_None in He; by subst].
      destruct (fix_route_sparse route tracks s e out H2 H8 Hs He)
        as (mid & Hm & Hsyn & HF & Hlen); [by eapply head_well_formed|
                                           by eapply last_well_formed|done|].
      split; [lia|]. right. split; [done|]. exists s, e, mid. done.
    + unfold TrainRoutes.fix_route in Ho.
      destruct (length route <? 2)%nat eqn:E2; [apply Nat.ltb_lt in E2; lia|].
      destruct (length route <? 8)%nat eqn:E8; [apply Nat.ltb_lt in E8; lia|].
      pose proof (snap_route_to_tracks_spec _ _ _ Hwf Ho) as HF.
      apply Forall2_length in HF as Hl. split; [lia|]. left. split; [lia|done].
  - intros route tracks. split.
    + intros H8 Hdef. unfold TrainRoutes.fix_route.
      destruct (length route <? 2)%nat eqn:E2; [apply Nat.ltb_lt in E2; lia|].
      destruct (length route <? 8)%nat eqn:E8; [apply Nat.ltb_lt in E8; lia|].
      by apply snap_route_to_tracks_defined.
    + intros s e. apply fix_route_total.
Qed.

End WithMath.
End RouteClaims.

(** ** The route claims on examples *)

Module RouteExamples.
Import Geometry Notions RouteClaims.
Local Open Scope float_scope.

(** A computation of the example instance that returns. *)
Ltac returns := vm_compute; eexists; reflexivity.


(** A segment so far away that the square of the difference is out of
    range makes the search raise. *)
Lemma square_out_of_range_raises :
  TrainAlignment.find_nearest_railway_point
    [0; 0] [MultiLineString [[[0x1p600; 0]; [0x1p600; 4]]]] = None.
Proof. reflexivity. Qed.


(** A coordinate with one component is dropped by both alignments, so
    two points come back as one; and densifying a route of three points
    keeps none of the interior point (50, 50): all 8 points returned
    have a longitude below 4. *)
Lemma malformed_coordinate_dropped :
  TrainAlignment.aligned_route [[1; 2]; [3]] [] = Some [[1; 2]]
  ∧ TrainRoutes.snap_route_to_tracks [[1; 2]; [3]] [] = Some [[1; 2]]
  ∧ ∃ out, TrainRoutes.fix_route [[1; 2]; [50; 50]; [3; 4]] [] = Some out
           ∧ length out = 8%nat
           ∧ Forall (λ q, match q with
                          | x :: _ => (x <? 4) = true
                          | [] => False
                          end) out.
Proof.
  split; [reflexivity|]. split; [reflexivity|].
  eexists. split; [vm_compute; reflexivity|]. split; [reflexivity|].
  repeat constructor.
Qed.

Lemma alignment_keeps_order_witness :
  (∃ out, TrainAlignment.aligned_route [[0; 1]; [2; 5]] [MultiLineString [[[3; 0]; [3; 4]]]]
          = Some out
          ∧ length out = 2%nat
          ∧ Forall2 (λ coord q,
                       TrainAlignment.find_nearest_railway_point
                         coord [MultiLineString [[[3; 0]; [3; 4]]]] = Some q)
                    [[0; 1]; [2; 5]] out)
  ∧ (∃ out,
       TrainRoutes.snap_route_to_tracks
         [[77; 28]; [77.3; 28.3]; [78; 29]]
         [TrainRoutes.TrackPoint 28 77.001; TrainRoutes.TrackPoint 28.5 77.5]
       = Some out
       ∧ length out = 3%nat
       ∧ Forall2 (snapped_to_track
                    [TrainRoutes.TrackPoint 28 77.001; TrainRoutes.TrackPoint 28.5 77.5]
                    20)
                 [[77; 28]; [77.3; 28.3]; [78; 29]] out)
  ∧ (∃ out s e mid,
       TrainRoutes.fix_route
         [[77; 28]; [77.3; 28.3]; [78; 29]]
         [TrainRoutes.TrackPoint 28 77.001; TrainRoutes.TrackPoint 28.5 77.5]
       = Some out
       ∧ (3 ≤ length out)%nat
       ∧ head [[77; 28]; [77.3; 28.3]; [78; 29]] = Some s
       ∧ last [[77; 28]; [77.3; 28.3]; [78; 29]] = Some e
       ∧ length out = 8%nat
       ∧ Forall2 (synthesized s e
                    [TrainRoutes.TrackPoint 28 77.001; TrainRoutes.TrackPoint 28.5 77.5]
                    6) (seq 1 6) mid
       ∧ Forall2 (snapped_to_track
                    [TrainRoutes.TrackPoint 28 77.001; TrainRoutes.TrackPoint 28.5 77.5]
                    20) (s :: mid ++ [e]) out).
Proof.
  destruct (@alignment_keeps_order series_math)
    as (Halign & Haligns & Hsnap & Hsnaps & Hdense & Hdenses).
  split; [|split].
  - destruct (Haligns [[0; 1]; [2; 5]] [MultiLineString [[[3; 0]; [3; 4]]]])
      as [out Hout].
    + repeat constructor.
    + repeat constructor; returns.
    + exists out. split; [exact Hout|].
      apply (Halign [[0; 1]; [2; 5]] [MultiLineString [[[3; 0]; [3; 4]]]] out);
        [|exact Hout].
      repeat constructor; unfold well_formed; cbn [length]; lia.
  - destruct (proj2 (Hsnaps [[77; 28]; [77.3; 28.3]; [78; 29]]
                       [TrainRoutes.TrackPoint 28 77.001; TrainRoutes.TrackPoint 28.5 77.5]))
      as [out Hout].
    + repeat constructor; returns.
    + exists out. split; [exact Hout|].
      apply (Hsnap [[77; 28]; [77.3; 28.3]; [78; 29]]
               [TrainRoutes.TrackPoint 28 77.001; TrainRoutes.TrackPoint 28.5 77.5] out);
        [|exact Hout].
      repeat constructor; unfold well_formed; cbn [length]; lia.
  - destruct (Hdenses [[77; 28]; [77.3; 28.3]; [78; 29]]
                [TrainRoutes.TrackPoint 28 77.001; TrainRoutes.TrackPoint 28.5 77.5])
      as [_ Hsparse].
    destruct (Hsparse [77; 28] [78; 29]) as [out Hout].
    + cbn [length]. lia.
    + reflexivity.
    + reflexivity.
    + repeat split; repeat constructor;
        try (eexists _, _; split; [vm_compute; reflexivity|]);
        repeat constructor; returns.
    + destruct (Hdense [[77; 28]; [77.3; 28.3]; [78; 29]]
                  [TrainRoutes.TrackPoint 28 77.001; TrainRoutes.TrackPoint 28.5 77.5] out)
        as [Hle [[H8 _]|(_ & s & e & mid & Hs & He & Hlen & Hsyn & Hpoints)]];
        [cbn [length]; lia
        |repeat constructor; unfold well_formed; cbn [length]; lia
        |exact Hout
        |cbn [length] in H8; lia|].
      exists out, s, e, mid. done.
Defined.



End RouteExamples.

(** ** The default time on an example *)

Module ExpansionExamples.
Import Clock Expansion ExpansionClaims.


End ExpansionExamples.

(** * Further properties of the scripts *)

(** ** Journey duration and the two ways of shifting a trip *)

Module JourneyFacts.
Import Clock ClockFacts RoundTrip Coverage Notions MoreNotions Expansion ExpansionFacts.

Lemma dt_time_congr x y : (x mod 86400 = y mod 86400)%Z → dt_time x = dt_time y.
Proof. unfold dt_time. by intros ->. Qed.

Lemma seconds_of_range t : valid_time t → (0 ≤ seconds_of t < 86400)%Z.
Proof. intros (Hh & Hm & Hx). unfold seconds_of. lia. Qed.

Lemma seconds_of_inj t1 t2 :
  valid_time t1 → valid_time t2 → seconds_of t1 = seconds_of t2 → t1 = t2.
Proof.
  intros V1 V2 Heq. rewrite <- (dt_time_seconds_of t1), <- (dt_time_seconds_of t2) by done.
  by rewrite Heq.
Qed.

Lemma journey_bounds base_departure base_arrival :
  ∃ td duration,
    valid_time td
    ∧ journey base_departure base_arrival = Some (seconds_of td, duration)
    ∧ (0 < duration ≤ 86400)%Z.
Proof.
  destruct (journey_total base_departure base_arrival)
    as (td & ta & _ & _ & Vd & Va & Hj).
  exists td. eexists. split; [done|]. split; [exact Hj|].
  pose proof (seconds_of_range _ Vd). pose proof (seconds_of_range _ Va).
  destruct (seconds_of ta <=? seconds_of td)%Z eqn:E;
    [apply Z.leb_le in E|apply Z.leb_gt in E]; lia.
Qed.

(** X1.  The journey duration computed by the timing functions is
    positive and at most 24 hours, is the arrival minus the departure
    up to a whole day, and is exactly 24 hours when (and only when) the
    two parsed times are equal. *)
Theorem journey_duration_range (base_departure base_arrival : string) :
  ∃ td ta duration,
    parse_time base_departure = Some td ∧ parse_time base_arrival = Some ta
    ∧ journey base_departure base_arrival = Some (seconds_of td, duration)
    ∧ (0 < duration ≤ 86400)%Z
    ∧ (duration = seconds_of ta - seconds_of td
       ∨ duration = seconds_of ta - seconds_of td + 86400)%Z
    ∧ (duration = 86400%Z ↔ ta = td).
Proof.
  destruct (journey_total base_departure base_arrival)
    as (td & ta & Hd & Ha & Vd & Va & Hj).
  exists td, ta. eexists. split; [done|]. split; [done|]. split; [exact Hj|].
  pose proof (seconds_of_range _ Vd). pose proof (seconds_of_range _ Va).
  destruct (seconds_of ta <=? seconds_of td)%Z eqn:E;
    [apply Z.leb_le in E|apply Z.leb_gt in E].
  - split; [lia|]. split; [right; lia|]. split.
    + intros Heq. apply seconds_of_inj; [done..|lia].
    + intros ->. lia.
  - split; [lia|]. split; [left; lia|]. split; [lia|]. intros ->. lia.
Qed.

(** X2.  [create_continuous_schedule] shifts the departure and the
    arrival separately and computes no duration; the times it prints
    are nevertheless those of the duration-based expansion of the other
    optimizers, for every base trip and every list of offsets. *)
Theorem continuous_schedule_agrees (base_departure base_arrival : string)
    (intervals : list Z) :
  ∃ dep_dt duration,
    journey base_departure base_arrival = Some (dep_dt, duration)
    ∧ create_continuous_schedule base_departure base_arrival intervals
      = Some ((λ s, (s_departure s, s_arrival s)) <$> expand dep_dt duration intervals).
Proof.
  destruct (journey_total base_departure base_arrival)
    as (td & ta & Hd & Ha & Vd & Va & Hj).
  eexists _, _. split; [exact Hj|].
  unfold create_continuous_schedule. rewrite Hd, Ha. cbn [mbind option_bind].
  f_equal. apply list_eq. intros i. unfold expand.
  rewrite !list_lookup_fmap, list_lookup_imap.
  destruct (intervals !! i) as [offset|]; [|done]. cbn [fmap option_fmap option_map].
  f_equal. unfold combine, hours. cbn [s_departure s_arrival]. f_equal. f_equal.
  apply dt_time_congr.
  destruct (seconds_of ta <=? seconds_of td)%Z.
  - replace (seconds_of td + offset * 3600 + (seconds_of ta + 86400 - seconds_of td))%Z
      with (seconds_of ta + offset * 3600 + 1 * 86400)%Z by lia.
    by rewrite Z.mod_add by lia.
  - f_equal. lia.
Qed.

(** The entries published for an expansion parse. *)
Lemma published_expand_parses dep_dt duration intervals :
  Forall (λ t, is_Some (strptime (departure t)) ∧ is_Some (strptime (arrival t)))
         (published (expand dep_dt duration intervals)).
Proof.
  apply Forall_forall. intros t (s & -> & Hs)%list_elem_of_fmap.
  apply list_elem_of_lookup in Hs as [i Hi]. unfold expand in Hi.
  rewrite list_lookup_imap in Hi. destruct (intervals !! i) as [offset|]; [|done].
  injection Hi as <-. cbn [departure arrival s_departure s_arrival].
  rewrite !strptime_strftime by apply dt_time_valid. split; by eexists.
Qed.

Lemma coverage_from_bound l c c' h :
  coverage_from (Some c) l = Some c' → bucket c' h ≤ bucket c h + 2 * length l.
Proof.
  revert c. induction l as [|t l IH]; intros c.
  - intros [= ->]. cbn [length]. lia.
  - rewrite CoverageFacts.coverage_from_cons. cbn [mbind option_bind]. unfold mark_train.
    destruct (strptime (departure t)) as [td|]; cbn [mbind option_bind];
      [|by rewrite CoverageFacts.coverage_from_None].
    destruct (strptime (arrival t)) as [ta|]; cbn [mbind option_bind];
      [|by rewrite CoverageFacts.coverage_from_None].
    intros H%IH. cbn [length]. etrans; [exact H|].
    unfold bucket. rewrite CoverageFacts.mark_hours_lookup.
    pose proof (CoverageFacts.hits_le_2 (hour td) (hour ta) h).
    destruct (c !! h); simpl; lia.
Qed.

Lemma expand_is_checkable dep_dt duration intervals :
  ∃ cov, check_coverage (published (expand dep_dt duration intervals)) = Some cov
         ∧ length cov = 24
         ∧ ∀ h, bucket cov h ≤ 2 * length (expand dep_dt duration intervals).
Proof.
  destruct (BackfillFacts.coverage_from_total _ zeros
              (published_expand_parses dep_dt duration intervals)) as [cov Hcov].
  exists cov. split; [exact Hcov|].
  split; [by eapply CoverageFacts.check_coverage_length|].
  intros h. pose proof (coverage_from_bound _ _ _ h Hcov) as Hb.
  unfold published in Hb. rewrite length_fmap in Hb.
  replace (bucket zeros h) with 0 in Hb; [lia|].
  unfold bucket, zeros. destruct (decide (h < 24)).
  - by rewrite lookup_replicate_2.
  - rewrite lookup_ge_None_2; [done|]. rewrite length_replicate. lia.
Qed.

(** X3.  Whatever the base trip and the tier, the entries each of the
    three optimizers publishes for a route are accepted by the coverage
    checkers: the histogram is computed (no time fails to parse), has 24
    buckets, and no bucket exceeds twice the number of schedules. *)
Theorem expansion_is_checkable (base_departure base_arrival tier : string) :
  (∃ schedules cov,
     create_minimal_timing_strategy base_departure base_arrival tier = Some schedules
     ∧ check_coverage (published schedules) = Some cov
     ∧ length cov = 24 ∧ ∀ h, bucket cov h ≤ 2 * length schedules)
  ∧ (∃ schedules cov,
       create_smart_timing base_departure base_arrival tier = Some schedules
       ∧ check_coverage (published schedules) = Some cov
       ∧ length cov = 24 ∧ ∀ h, bucket cov h ≤ 2 * length schedules)
  ∧ (∃ schedules cov,
       create_continuous_timing base_departure base_arrival tier = Some schedules
       ∧ check_coverage (published schedules) = Some cov
       ∧ length cov = 24 ∧ ∀ h, bucket cov h ≤ 2 * length schedules).
Proof.
  destruct (journey_total base_departure base_arrival)
    as (td & ta & Hd & Ha & Vd & Va & Hj).
  unfold create_minimal_timing_strategy, create_smart_timing, create_continuous_timing.
  rewrite Hj. cbn [mbind option_bind].
  repeat split;
    match goal with
    | |- ∃ schedules cov, Some (expand ?d ?u ?i) = Some schedules ∧ _ =>
        destruct (expand_is_checkable d u i) as (cov & Hc & Hl & Hb);
        exists (expand d u i), cov; done
    end.
Qed.

End JourneyFacts.

(** ** A trip at least as long as the spacing of its tier covers the day *)

(** ** A long trip covers the day *)

Module DayCoverage.
Import Clock ClockFacts RoundTrip Coverage Notions MoreNotions Expansion ExpansionFacts
       CoverageFacts JourneyFacts.

Lemma hour_dt_time x :
  (0 ≤ x)%Z → Z.of_nat (hour (dt_time x)) = ((x / 3600) mod 24)%Z.
Proof.
  intros Hx. unfold dt_time. cbn [hour].
  rewrite Z2Nat.id by (apply Z.div_pos; [apply Z.mod_pos_bound|]; lia).
  change 86400%Z with (3600 * 24)%Z. rewrite Z.rem_mul_r by lia.
  rewrite (Z.mul_comm 3600), Z.div_add by lia.
  rewrite Z.div_small by (apply Z.mod_pos_bound; lia). lia.
Qed.

Lemma coverage_from_hit l c c' t td ta h :
  coverage_from (Some c) l = Some c' → t ∈ l →
  strptime (departure t) = Some td → strptime (arrival t) = Some ta →
  h < length c → 0 < hits (hour td) (hour ta) h → bucket c h < bucket c' h.
Proof.
  revert c. induction l as [|t' l IH]; intros c Hc Hin Hd Ha Hlen Hhit.
  - by apply elem_of_nil in Hin.
  - rewrite coverage_from_cons in Hc. cbn [mbind option_bind] in Hc.
    unfold mark_train in Hc.
    destruct (strptime (departure t')) as [td'|] eqn:Hd'; cbn [mbind option_bind] in Hc;
      [|by rewrite coverage_from_None in Hc].
    destruct (strptime (arrival t')) as [ta'|] eqn:Ha'; cbn [mbind option_bind] in Hc;
      [|by rewrite coverage_from_None in Hc].
    apply elem_of_cons in Hin as [->|Hin].
    + rewrite Hd in Hd'. rewrite Ha in Ha'. injection Hd' as <-. injection Ha' as <-.
      eapply Nat.lt_le_trans; [|by eapply BackfillFacts.coverage_from_mono].
      rewrite bucket_mark_hours by done. lia.
    + eapply Nat.le_lt_trans; [|eapply (IH _ Hc Hin Hd Ha)]; [|by rewrite mark_hours_length|done].
      rewrite bucket_mark_hours by done. lia.
Qed.

(** The hours of the instance of offset [o]. *)
Lemma expand_hours (td : time) (duration o : Z) :
  valid_time td → (0 ≤ o)%Z → (0 ≤ duration)%Z →
  hour (dt_time (seconds_of td + hours o)%Z) = (hour td + Z.to_nat o) mod 24
  ∧ hour (dt_time (seconds_of td + hours o + duration)%Z)
    = (Z.to_nat ((seconds_of td + duration) / 3600) + Z.to_nat o) mod 24.
Proof.
  intros Vd Ho Hdur. pose proof (seconds_of_range _ Vd) as Hs.
  assert (seconds_of td / 3600 = Z.of_nat (hour td))%Z as HH.
  { destruct Vd as (Hh & Hm & Hx). unfold seconds_of. symmetry.
    apply (Z.div_unique _ 3600 _ (Z.of_nat (minute td) * 60 + Z.of_nat (second td))); lia. }
  unfold hours. split; apply Nat2Z.inj; rewrite hour_dt_time by lia.
  - rewrite Z.div_add by lia. rewrite HH, Nat2Z.inj_mod, Nat2Z.inj_add, Z2Nat.id by lia.
    done.
  - replace (seconds_of td + o * 3600 + duration)%Z
      with (seconds_of td + duration + o * 3600)%Z by lia.
    rewrite Z.div_add by lia.
    rewrite Nat2Z.inj_mod, Nat2Z.inj_add, !Z2Nat.id; [done|lia|].
    apply Z.div_pos; lia.
Qed.

Lemma day_covered_tiers :
  Forall (λ intervals, day_covered intervals = true)
         [[0; 4; 8; 12; 16; 20]; [0; 6; 12; 18]; [0; 8; 16]; [0; 12]; [0]]%Z.
Proof. repeat constructor; vm_compute; reflexivity. Qed.

Lemma day_covered_spec intervals H e h :
  day_covered intervals = true → H < 24 → spacing_of intervals ≤ e → e ≤ 24 → h < 24 →
  ∃ o, o ∈ intervals ∧ 0 < hits ((H + Z.to_nat o) mod 24) ((H + e + Z.to_nat o) mod 24) h.
Proof.
  unfold day_covered. intros Hc HH He1 He2 Hh.
  rewrite forallb_forall in Hc. specialize (Hc H). rewrite <- list_elem_of_In, elem_of_seq in Hc.
  specialize (Hc ltac:(lia)).
  rewrite forallb_forall in Hc. specialize (Hc e). rewrite <- list_elem_of_In, elem_of_seq in Hc.
  specialize (Hc ltac:(lia)).
  rewrite forallb_forall in Hc. specialize (Hc h). rewrite <- list_elem_of_In, elem_of_seq in Hc.
  specialize (Hc ltac:(lia)).
  apply existsb_exists in Hc as (o' & Hin & Ho').
  rewrite <- list_elem_of_In in Hin. apply list_elem_of_fmap in Hin as (o & -> & Hin).
  exists o. split; [done|]. by apply Nat.ltb_lt in Ho'.
Qed.

(** The expansion with offsets [intervals] of a trip lasting at least
    the spacing covers every hour. *)
Lemma expand_covers_day (td : time) duration intervals cov :
  valid_time td → day_covered intervals = true → Forall (λ o, 0 ≤ o)%Z intervals →
  (Z.of_nat (spacing_of intervals) * 3600 ≤ duration ≤ 86400)%Z →
  check_coverage (published (expand (seconds_of td) duration intervals)) = Some cov →
  ∀ h, h < 24 → 1 ≤ bucket cov h.
Proof.
  intros Vd Hcov Hpos [Hlo Hhi] Hc h Hh.
  pose proof (seconds_of_range _ Vd) as Hs.
  assert (seconds_of td / 3600 = Z.of_nat (hour td))%Z as HH.
  { pose proof Vd as (Hh' & Hm & Hx). unfold seconds_of. symmetry.
    apply (Z.div_unique _ 3600 _ (Z.of_nat (minute td) * 60 + Z.of_nat (second td))); lia. }
  set (A0 := Z.to_nat ((seconds_of td + duration) / 3600)).
  assert (hour td + spacing_of intervals ≤ A0 ∧ A0 ≤ hour td + 24) as [HA1 HA2].
  { unfold A0. split.
    - apply Nat2Z.inj_le. rewrite Z2Nat.id by (apply Z.div_pos; lia).
      apply Z.div_le_lower_bound; [lia|].
      pose proof (Z.mul_div_le (seconds_of td) 3600 ltac:(lia)). lia.
    - apply Nat2Z.inj_le. rewrite Z2Nat.id by (apply Z.div_pos; lia).
      apply Z.lt_succ_r. apply Z.div_lt_upper_bound; [lia|].
      pose proof (Z.mod_pos_bound (seconds_of td) 3600 ltac:(lia)).
      pose proof (Z.div_mod (seconds_of td) 3600 ltac:(lia)). lia. }
  pose proof Vd as (HhourV & _).
  destruct (day_covered_spec intervals (hour td) (A0 - hour td) h Hcov)
    as (o & Ho & Hhit); [lia..|].
  replace (hour td + (A0 - hour td)) with A0 in Hhit by lia.
  rewrite Forall_forall in Hpos. specialize (Hpos o Ho).
  apply list_elem_of_lookup in Ho as [i Hi].
  destruct (expand_hours td duration o Vd Hpos ltac:(lia)) as [Hdh Hah].
  assert (bucket zeros h < bucket cov h); [|lia].
  eapply (coverage_from_hit _ zeros cov
            (TrainEntry (strftime (dt_time (seconds_of td + hours o)%Z))
                        (strftime (dt_time (seconds_of td + hours o + duration)%Z)))).
  - exact Hc.
  - unfold published. apply list_elem_of_fmap. eexists. split; [|eapply list_elem_of_lookup_2].
    2:{ unfold expand. rewrite list_lookup_imap, Hi. done. }
    done.
  - cbn [departure]. apply strptime_strftime, dt_time_valid.
  - cbn [arrival]. apply strptime_strftime, dt_time_valid.
  - done.
  - rewrite Hdh, Hah. exact Hhit.
Qed.

Lemma tier_intervals_covered tier :
  Forall (λ intervals, day_covered intervals = true ∧ Forall (λ o, 0 ≤ o)%Z intervals)
         [minimal_intervals tier; smart_intervals tier; continuous_intervals tier].
Proof.
  assert (∀ intervals,
            intervals ∈ [[0; 4; 8; 12; 16; 20]; [0; 6; 12; 18]; [0; 8; 16]; [0; 12]; [0]]%Z →
            day_covered intervals = true ∧ Forall (λ o, 0 ≤ o)%Z intervals) as Hall.
  { intros intervals Hin. split.
    - pose proof day_covered_tiers as Hc. rewrite Forall_forall in Hc. by apply Hc.
    - repeat (apply elem_of_cons in Hin as [->|Hin]);
        [..|by apply elem_of_nil in Hin]; repeat constructor; lia. }
  unfold minimal_intervals, smart_intervals, continuous_intervals.
  repeat constructor; apply Hall; repeat case_match; apply list_elem_of_In; cbn [In]; tauto.
Qed.

(** X4.  A base trip whose journey lasts at least the spacing of its
    tier (24 hours over the number of daily departures) is active in
    every hour of the day through its own instances alone: the
    histogram of the entries published for that one route has every
    bucket at least 1.  This holds for the tiers of the three
    optimizers. *)
Theorem long_trip_covers_day (base_departure base_arrival tier : string)
    (dep_dt : datetime) (duration : timedelta) :
  journey base_departure base_arrival = Some (dep_dt, duration) →
  ((Z.of_nat (spacing_of (minimal_intervals tier)) * 3600 ≤ duration)%Z →
   ∃ schedules cov,
     create_minimal_timing_strategy base_departure base_arrival tier = Some schedules
     ∧ check_coverage (published schedules) = Some cov
     ∧ ∀ h, h < 24 → 1 ≤ bucket cov h)
  ∧ ((Z.of_nat (spacing_of (smart_intervals tier)) * 3600 ≤ duration)%Z →
     ∃ schedules cov,
       create_smart_timing base_departure base_arrival tier = Some schedules
       ∧ check_coverage (published schedules) = Some cov
       ∧ ∀ h, h < 24 → 1 ≤ bucket cov h)
  ∧ ((Z.of_nat (spacing_of (continuous_intervals tier)) * 3600 ≤ duration)%Z →
     ∃ schedules cov,
       create_continuous_timing base_departure base_arrival tier = Some schedules
       ∧ check_coverage (published schedules) = Some cov
       ∧ ∀ h, h < 24 → 1 ≤ bucket cov h).
Proof.
  intros Hj.
  destruct (journey_bounds base_departure base_arrival)
    as (td & dur & Vd & Hj' & [Hlo Hhi]).
  rewrite Hj in Hj'. injection Hj' as -> ->.
  pose proof (tier_intervals_covered tier) as Htiers.
  apply Forall_cons in Htiers as [[Hc1 Hp1] Htiers].
  apply Forall_cons in Htiers as [[Hc2 Hp2] Htiers].
  apply Forall_cons in Htiers as [[Hc3 Hp3] _].
  unfold create_minimal_timing_strategy, create_smart_timing, create_continuous_timing.
  rewrite Hj. cbn [mbind option_bind].
  repeat split; intros Hlong;
    match goal with
    | |- ∃ schedules cov, Some (expand ?d ?u ?i) = Some schedules ∧ _ =>
        destruct (expand_is_checkable d u i) as (cov & Hc & _);
        exists (expand d u i), cov; split; [done|]; split; [exact Hc|];
        apply (expand_covers_day td u i cov Vd); [assumption|assumption|lia|exact Hc]
    end.
Qed.

Lemma long_trip_covers_day_witness :
  journey "06:10:00" "14:20:00" = Some (22200%Z, 29400%Z)
  ∧ ∃ schedules cov,
      create_minimal_timing_strategy "06:10:00" "14:20:00" "medium" = Some schedules
      ∧ check_coverage (published schedules) = Some cov
      ∧ ∀ h, h < 24 → 1 ≤ bucket cov h.
Proof.
  split; [reflexivity|].
  destruct (long_trip_covers_day "06:10:00" "14:20:00" "medium" 22200%Z 29400%Z)
    as [Hminimal _]; [reflexivity|].
  apply Hminimal. vm_compute. discriminate.
Defined.

End DayCoverage.

(** ** The total of the histogram *)

Module HistogramTotal.
Import Clock ClockFacts Coverage CoverageFacts Notions MoreNotions.

Lemma sum_list_alter_S h (cov : list nat) :
  h < length cov → sum_list (alter S h cov) = S (sum_list cov).
Proof.
  revert h. induction cov as [|v cov IH]; intros [|h] Hh; simpl in *; try lia.
  change (list_alter S h cov) with (alter S h cov). rewrite IH by lia. lia.
Qed.

Lemma sum_list_for_range start stop cov :
  start ≤ stop → stop ≤ length cov →
  sum_list (for_range start stop cov) = sum_list cov + (stop - start).
Proof.
  unfold for_range. intros Hle Hstop.
  assert (start + (stop - start) ≤ length cov) as Hb by lia. clear Hle Hstop.
  revert Hb. generalize (stop - start) as n. intros n. revert start cov.
  induction n as [|n IH]; intros start cov Hb; cbn [seq foldl]; [lia|].
  rewrite IH by (unfold incr; rewrite length_alter; lia).
  unfold incr. rewrite sum_list_alter_S by lia. lia.
Qed.

Lemma sum_list_mark_hours d a cov :
  length cov = 24 → d < 24 → a < 24 →
  sum_list (mark_hours d a cov) = sum_list cov + span_length d a.
Proof.
  intros Hc Hd Ha. unfold mark_hours, span_length. destruct (a <=? d) eqn:E.
  - rewrite !sum_list_for_range; try lia.
    assert (length (for_range d 24 cov) = length cov) as ->; [|lia].
    pose proof (mark_hours_length d d cov) as Hl. unfold mark_hours in Hl.
    rewrite Nat.leb_refl in Hl. unfold for_range in *.
    clear -Hc. generalize (seq d (24 - d)). intros l. revert cov Hc.
    induction l as [|k l IH]; intros cov Hc; simpl; [done|].
    rewrite IH; unfold incr; rewrite length_alter; done.
  - apply Nat.leb_gt in E. rewrite sum_list_for_range; lia.
Qed.

Lemma span_length_range d a : d < 24 → a < 24 → 2 ≤ span_length d a ≤ 25.
Proof. intros. unfold span_length. destruct (a <=? d) eqn:E; [apply Nat.leb_le in E|apply Nat.leb_gt in E]; lia. Qed.

Lemma coverage_from_sum trains c cov :
  length c = 24 → coverage_from (Some c) trains = Some cov →
  sum_list cov = sum_list c + sum_list (entry_span <$> trains)
  ∧ 2 * length trains ≤ sum_list (entry_span <$> trains) ≤ 25 * length trains.
Proof.
  revert c. induction trains as [|t l IH]; intros c Hc.
  - intros [= ->]. simpl. lia.
  - rewrite coverage_from_cons. cbn [mbind option_bind]. unfold mark_train.
    rewrite fmap_cons.
    change (sum_list (entry_span t :: (entry_span <$> l)))
      with (entry_span t + sum_list (entry_span <$> l)).
    change (length (t :: l)) with (S (length l)).
    destruct (strptime (departure t)) as [td|] eqn:Ed; cbn [mbind option_bind];
      [|by rewrite (coverage_from_None l)].
    destruct (strptime (arrival t)) as [ta|] eqn:Ea; cbn [mbind option_bind];
      [|by rewrite (coverage_from_None l)].
    assert (entry_span t = span_length (hour td) (hour ta)) as ->.
    { unfold entry_span. by rewrite Ed, Ea. }
    intros Hcov. apply strptime_valid in Ed as (Hd & _), Ea as (Ha & _).
    apply IH in Hcov as [-> Hb]; [|by rewrite mark_hours_length].
    rewrite sum_list_mark_hours by done.
    pose proof (span_length_range (hour td) (hour ta) Hd Ha). lia.
Qed.

(** X5.  The total the checkers average, [sum(hourly_coverage)], is
    the sum over the entries of the length of their hour span: the
    hours [d..a] when the arrival hour is later, else the hours
    [d..23] and [0..a], the departure hour counted twice when both
    hours are the same.  Every entry adds between 2 and 25 counts, so
    the printed average of trains per hour can exceed the number of
    entries. *)
Theorem histogram_total (trains : list train_entry) (cov : list nat) :
  check_coverage trains = Some cov →
  coverage_total cov = sum_list (entry_span <$> trains)
  ∧ 2 * length trains ≤ coverage_total cov ≤ 25 * length trains
  ∧ ∀ t td ta, t ∈ trains →
      strptime (departure t) = Some td → strptime (arrival t) = Some ta →
      (entry_span t = 25 ↔ hour td = hour ta).
Proof.
  intros Hcov. unfold coverage_total.
  destruct (coverage_from_sum trains zeros cov) as [Hs Hb]; [done|exact Hcov|].
  change (sum_list zeros) with 0 in Hs. rewrite Hs. repeat split; try lia.
  - intros He. unfold entry_span in He. rewrite H0, H1 in He.
    apply strptime_valid in H0 as (Hd & _), H1 as (Ha & _).
    unfold span_length in He.
    destruct (hour ta <=? hour td) eqn:E;
      [apply Nat.leb_le in E|apply Nat.leb_gt in E]; lia.
  - intros He. unfold entry_span. rewrite H0, H1. unfold span_length.
    rewrite He, Nat.leb_refl. apply strptime_valid in H1 as (Ha & _). lia.
Qed.

Lemma histogram_total_witness :
  ∃ cov, check_coverage [TrainEntry "05:10:00" "05:50:00"] = Some cov
         ∧ coverage_total cov = 25.
Proof.
  exists (mark_hours 5 5 zeros). split; [reflexivity|].
  destruct (histogram_total [TrainEntry "05:10:00" "05:50:00"]
              (mark_hours 5 5 zeros) eq_refl) as (Hsum & _).
  rewrite Hsum. reflexivity.
Defined.

End HistogramTotal.

(** ** The size of a reduced route *)

Module ReductionSize.
Import Reduction Notions ReductionClaims.

Lemma every_nth_one {A} (l : list A) : every_nth 1 0 l = l.
Proof.
  apply list_eq. intros i. rewrite every_nth_lookup by lia. f_equal. lia.
Qed.

Lemma reduce_coords_size {A} cap k (coords : list A) :
  1 ≤ k → k ≤ cap → cap ≤ 2 * k - 1 →
  ∃ out, reduce_coords cap k coords = Some out
         ∧ length out ≤ 2 * k - 1
         ∧ (length coords ≤ 2 * k - 1 → out = coords)
         ∧ (cap < length coords → k ≤ length out).
Proof.
  intros Hk Hcap Hcap2. unfold reduce_coords.
  destruct (cap <? length coords) eqn:E;
    [apply Nat.ltb_lt in E|apply Nat.ltb_ge in E].
  - set (step := length coords / k).
    assert (step * k ≤ length coords) as Hlo.
    { unfold step. rewrite Nat.mul_comm. apply Nat.Div0.mul_div_le. }
    assert (length coords < (step + 1) * k) as Hhi.
    { unfold step. rewrite Nat.mul_comm.
      pose proof (Nat.mul_succ_div_gt (length coords) k ltac:(lia)). lia. }
    assert (1 ≤ step) as Hstep by (apply Nat.div_le_lower_bound; lia).
    unfold slice_step. destruct (step =? 0) eqn:E0; [apply Nat.eqb_eq in E0; lia|].
    eexists. split; [done|]. split; [|split].
    + apply Nat.le_ngt. intros Hlt%lookup_lt_is_Some_2.
      rewrite every_nth_lookup in Hlt by done.
      apply lookup_lt_is_Some_1 in Hlt. nia.
    + intros Hlen. assert (step = 1) as -> by nia. apply every_nth_one.
    + intros _. destruct k as [|k']; [lia|].
      apply (lookup_lt_is_Some_1 _ k'). rewrite every_nth_lookup by done.
      apply lookup_lt_is_Some_2. nia.
  - eexists. split; [done|]. repeat split; [lia|lia].
Qed.

(** X6.  The size of a published route.  The ultra optimizer publishes
    at most 23 coordinates, a route of up to 23 coordinates unchanged,
    and at least 12 of a route of more than 15; the minimal optimizer
    at most 15, up to 15 unchanged, at least 8 of more than 10; the
    first optimizer at most 49, up to 49 unchanged, at least 25 of
    more than 30.  None of the three raises for a zero step. *)
Theorem reduced_route_size {A} (coords : list A) :
  (∃ out, ultra_route_coords coords = Some out
          ∧ length out ≤ 23
          ∧ (length coords ≤ 23 → out = coords)
          ∧ (15 < length coords → 12 ≤ length out))
  ∧ (∃ out, minimal_route_coords coords = Some out
            ∧ length out ≤ 15
            ∧ (length coords ≤ 15 → out = coords)
            ∧ (10 < length coords → 8 ≤ length out))
  ∧ (∃ out, optimized_route_coords coords = Some out
            ∧ length out ≤ 49
            ∧ (length coords ≤ 49 → out = coords)
            ∧ (30 < length coords → 25 ≤ length out)).
Proof.
  repeat split.
  - apply (reduce_coords_size 15 12); lia.
  - apply (reduce_coords_size 10 8); lia.
  - apply (reduce_coords_size 30 25); lia.
Qed.

End ReductionSize.

(** ** The nearest-point searches *)

Module NearestFacts.
Import Geometry Notions MoreNotions FoldFacts FloatOrder AlignmentFacts TrainAlignment TrainAlignmentFacts.
Local Open Scope float_scope.

Section WithMath.
Context `{MathLib}.

Section SegmentScan.
Variables (lon lat : float).

(** The running minimum never rises. *)
Lemma visit_segment_keeps d' st seg st' :
  (d' <? st.1) = false → visit_segment lon lat st seg = Some st' →
  (d' <? st'.1) = false.
Proof.
  unfold visit_segment. destruct st as [m best], seg as [s e]. cbn [fst].
  intros Hm. destruct (distance_point_to_line _ _ _) as [d|]; [|done].
  cbn [mbind option_bind]. destruct (d <? m) eqn:E; [|by intros [= <-]].
  destruct (closest_on_segment lon lat s e); [|done]. intros [= <-]. cbn [fst].
  by eapply float_ltb_lower.
Qed.

Lemma visit_feature_keeps d' st feature st' :
  (d' <? st.1) = false → visit_feature lon lat st feature = Some st' →
  (d' <? st'.1) = false.
Proof.
  intros Hm. unfold visit_feature.
  destruct feature as [coords|lines|ty]; try (by intros [= <-]).
  apply (fold_opt_ind (λ st, (d' <? st.1) = false)); [done|]. intros s line s' _ Hs.
  apply (fold_opt_ind (λ st, (d' <? st.1) = false)); [done|]. intros s0 seg s0' _ Hs0.
  by apply visit_segment_keeps.
Qed.

Lemma visit_segment_sets d' st seg st' :
  distance_point_to_line [lon; lat] seg.1 seg.2 = Some d' →
  visit_segment lon lat st seg = Some st' → (d' <? st'.1) = false.
Proof.
  unfold visit_segment. destruct st as [m best], seg as [s e]. cbn [fst snd].
  intros ->. cbn [mbind option_bind]. destruct (d' <? m) eqn:E; [|by intros [= <-]].
  destruct (closest_on_segment lon lat s e); [|done]. intros [= <-]. cbn [fst].
  apply float_ltb_irrefl.
Qed.

Lemma visit_feature_state p railway_lines st feature st' :
  feature ∈ railway_lines → scan_state lon lat p railway_lines st →
  visit_feature lon lat st feature = Some st' → scan_state lon lat p railway_lines st'.
Proof.
  intros Hf Hinv. unfold visit_feature.
  destruct feature as [coords|lines|ty]; try (by intros [= <-]).
  apply fold_opt_ind; [done|]. intros s line s' Hline Hs.
  apply fold_opt_ind; [done|]. intros [m best] [sp ep] s0' Hseg Hs0.
  unfold visit_segment.
  destruct (distance_point_to_line _ _ _) as [d|] eqn:Hd; [|done].
  cbn [mbind option_bind]. destruct (d <? m); [|by intros [= <-]].
  destruct (closest_on_segment lon lat sp ep) as [q|] eqn:Hq; [|done].
  intros [= <-]. right. exists (sp, ep).
  eauto using multiline_segments_intro.
Qed.

End SegmentScan.

Lemma segment_scan_minimal lon lat init railway_lines st seg d' :
  fold_opt (visit_feature lon lat) init railway_lines = Some st →
  seg ∈ multiline_segments railway_lines →
  distance_point_to_line [lon; lat] seg.1 seg.2 = Some d' →
  (d' <? st.1) = false.
Proof.
  intros Hfold (lines & line & Hf & Hl & Hs)%multiline_segments_elim Hd'.
  revert Hfold.
  apply (fold_opt_establish (λ st, (d' <? st.1) = false) _ _ _ _ _ Hf).
  { intros s y s' _. apply visit_feature_keeps. }
  intros s s'. cbn [visit_feature].
  apply (fold_opt_establish (λ st, (d' <? st.1) = false) _ _ _ _ _ Hl).
  { intros s0 y s0' _ Hs0.
    apply (fold_opt_ind (λ st, (d' <? st.1) = false)); [done|].
    intros s1 sg s1' _ Hs1. by apply visit_segment_keeps. }
  intros s0 s0'.
  apply (fold_opt_establish (λ st, (d' <? st.1) = false) _ _ _ _ _ Hs).
  { intros s1 sg s1' _ Hs1. by apply visit_segment_keeps. }
  intros s1 s1'. by apply visit_segment_sets.
Qed.

(** X7.  The three nearest-point searches return a nearest point.  In
    [fix_alignment.py] and [fix_train_routes.py] no vertex within the
    search radius is strictly nearer to the target than the distance
    returned, and the point returned, when there is one, is a vertex at
    exactly that distance.  In [fix_train_alignment.py] the point
    returned is the train point itself when no segment was at a
    distance below infinity, and else the closest point of a segment
    of the network than which no segment is strictly nearer. *)
Theorem nearest_search_is_nearest :
  (∀ lat lng points max nearest d,
     Alignment.find_nearest_railway_point lat lng points max = Some (nearest, d) →
     (∀ q d', q ∈ points → haversine_distance lat lng q.1 q.2 = Some d' →
              (d' <=? max) = true → (d' <? d) = false)
     ∧ (∀ p, nearest = Some p →
             p ∈ points ∧ haversine_distance lat lng p.1 p.2 = Some d))
  ∧ (∀ lat lon points max nearest d,
       TrainRoutes.find_nearest_track_point lat lon points max = Some (nearest, d) →
       (∀ q d', q ∈ points →
                haversine_distance lat lon (TrainRoutes.lat q) (TrainRoutes.lon q) = Some d' →
                (d' <=? max) = true → (d' <? d) = false)
       ∧ (∀ p, nearest = Some p →
               p ∈ points
               ∧ haversine_distance lat lon (TrainRoutes.lat p) (TrainRoutes.lon p) = Some d))
  ∧ (∀ lon lat railway_lines q,
       find_nearest_railway_point [lon; lat] railway_lines = Some q →
       ∃ m, (∀ seg d', seg ∈ multiline_segments railway_lines →
                       distance_point_to_line [lon; lat] seg.1 seg.2 = Some d' →
                       (d' <? m) = false)
            ∧ ((m = infinity ∧ q = [lon; lat])
               ∨ ∃ seg, seg ∈ multiline_segments railway_lines
                        ∧ distance_point_to_line [lon; lat] seg.1 seg.2 = Some m
                        ∧ closest_on_segment lon lat seg.1 seg.2 = Some q)).
Proof.
  split; [|split].
  - intros lat lng points max nearest d Hn. split.
    + intros q d' Hq Hd' Hmax. unfold Alignment.find_nearest_railway_point in Hn.
      destruct points as [|p0 points]; [by apply elem_of_nil in Hq|].
      by eapply (nearest_scan_minimal
                   (λ point, haversine_distance lat lng point.1 point.2)).
    + intros p ->. apply nearest_vertex_spec in Hn. tauto.
  - intros lat lon points max nearest d Hn. unfold TrainRoutes.find_nearest_track_point in Hn.
    split.
    + intros q d' Hq Hd' Hmax.
      by eapply (nearest_scan_minimal
                   (λ tp, haversine_distance lat lon (TrainRoutes.lat tp) (TrainRoutes.lon tp))).
    + intros p ->. apply nearest_scan_spec in Hn. tauto.
  - intros lon lat railway_lines q. unfold find_nearest_railway_point.
    cbn [unpack2 mbind option_bind].
    destruct (fold_opt _ _ _) as [[m best]|] eqn:Hfold; [|done]. intros [= <-].
    exists m. split.
    + intros seg d' Hseg Hd'.
      by apply (segment_scan_minimal lon lat _ _ _ _ _ Hfold Hseg Hd').
    + assert (scan_state lon lat [lon; lat] railway_lines (m, best)) as [[= -> ->]|Hst].
      { revert Hfold. apply fold_opt_ind; [by left|].
        intros s feature s' Hf. by apply visit_feature_state. }
      * by left.
      * by right.
Qed.

End WithMath.
End NearestFacts.

(** ** Edge cases of the alignment scripts *)

Module AlignmentEdges.
Import Geometry Notions MoreNotions FoldFacts AlignmentFacts TrainAlignmentFacts
       TrainRoutesFacts NearestFacts.
Local Open Scope float_scope.

Section WithMath.
Context `{MathLib}.

Lemma aligned_loop_ext railway_lines railway_lines' route acc :
  (∀ p, TrainAlignment.find_nearest_railway_point p railway_lines
        = TrainAlignment.find_nearest_railway_point p railway_lines') →
  fold_opt (λ aligned_coords coord,
              if (2 <=? length coord)%nat then
                aligned_point ← TrainAlignment.find_nearest_railway_point coord railway_lines;
                Some (aligned_coords ++ [aligned_point])
              else Some aligned_coords) acc route
  = fold_opt (λ aligned_coords coord,
                if (2 <=? length coord)%nat then
                  aligned_point ← TrainAlignment.find_nearest_railway_point coord railway_lines';
                  Some (aligned_coords ++ [aligned_point])
                else Some aligned_coords) acc route.
Proof.
  intros Hp. revert acc. induction route as [|c route IH]; intros acc; [done|].
  rewrite !fold_opt_cons, Hp.
  destruct (if (2 <=? length c)%nat then _ else _) as [s|]; [|done].
  cbn [mbind option_bind]. apply IH.
Qed.

(** X8.  [fix_train_alignment.py] reads the [MultiLineString]
    features of the network only: two networks with the same segments
    of [MultiLineString] lines give the same snapped point and the
    same aligned route, and on a network without such segments (one
    made of [LineString] features, say) every point of two components
    is returned as it is and every route of such points is left
    unaligned. *)
Theorem alignment_reads_multilines_only :
  (∀ railway_lines railway_lines' p route,
     multiline_segments railway_lines = multiline_segments railway_lines' →
     TrainAlignment.find_nearest_railway_point p railway_lines
     = TrainAlignment.find_nearest_railway_point p railway_lines'
     ∧ TrainAlignment.aligned_route route railway_lines
       = TrainAlignment.aligned_route route railway_lines')
  ∧ (∀ railway_lines p route,
       multiline_segments railway_lines = [] →
       (two_components p →
        TrainAlignment.find_nearest_railway_point p railway_lines = Some p)
       ∧ (Forall two_components route →
          TrainAlignment.aligned_route route railway_lines = Some route)).
Proof.
  assert (∀ railway_lines railway_lines' p,
            multiline_segments railway_lines = multiline_segments railway_lines' →
            TrainAlignment.find_nearest_railway_point p railway_lines
            = TrainAlignment.find_nearest_railway_point p railway_lines') as Hpoint.
  { intros railway_lines railway_lines' p Hseg.
    unfold TrainAlignment.find_nearest_railway_point.
    destruct (TrainAlignment.unpack2 p) as [[lon lat]|]; [|done].
    cbn [mbind option_bind]. by rewrite !visit_features_flat, Hseg. }
  assert (∀ railway_lines p,
            multiline_segments railway_lines = [] → two_components p →
            TrainAlignment.find_nearest_railway_point p railway_lines = Some p) as Hnone.
  { intros railway_lines p Hseg (lon & lat & ->)%unpack2_length.
    unfold TrainAlignment.find_nearest_railway_point.
    cbn [TrainAlignment.unpack2 mbind option_bind].
    by rewrite visit_features_flat, Hseg. }
  split.
  - intros railway_lines railway_lines' p route Hseg. split; [by apply Hpoint|].
    unfold TrainAlignment.aligned_route. destruct route as [|c route]; [done|].
    by rewrite (aligned_loop_ext railway_lines railway_lines') by (intros; by apply Hpoint).
  - intros railway_lines p route Hseg. split; [by apply Hnone|].
    intros Hroute.
    destruct (aligned_route_total route railway_lines Hroute) as [out Hout].
    { apply Forall_forall. intros c _. unfold segment_distances_defined.
      rewrite Hseg. constructor. }
    rewrite Hout. apply aligned_route_spec in Hout as HF.
    2:{ eapply Forall_impl; [exact Hroute|]. unfold two_components, well_formed.
        intros c Hc. lia. }
    f_equal. apply Forall2_same_length_lookup in HF as [Hlen HF].
    apply list_eq_same_length with (length route); [done|done|].
    intros i q c Hi Hq Hc. specialize (HF i c q Hc Hq).
    rewrite Forall_forall in Hroute.
    rewrite Hnone in HF; [congruence|done|].
    apply Hroute. by eapply list_elem_of_lookup_2.
Qed.

(** X9.  A coordinate of three components or more (one that carries
    an elevation, say) makes [fix_train_alignment.py] raise: the
    unpacking [lon, lat = train_point] fails, so no route is aligned
    and the script returns [False]. *)
Theorem long_coordinate_raises (route : list lonlat) (railway_lines : list geometry)
    (coord : lonlat) :
  coord ∈ route → (3 ≤ length coord)%nat →
  TrainAlignment.aligned_route route railway_lines = None.
Proof.
  intros Hin Hlen. unfold TrainAlignment.aligned_route.
  destruct route as [|c0 route0] eqn:Hr; [by apply elem_of_nil in Hin|].
  rewrite <- Hr in *.
  rewrite (fold_opt_raises _ _ _ coord Hin); [done|].
  intros s. destruct (2 <=? length coord)%nat eqn:E; [|apply Nat.leb_gt in E; lia].
  unfold TrainAlignment.find_nearest_railway_point.
  by destruct coord as [|a [|b [|c' rest]]]; [simpl in Hlen; lia..|].
Qed.

Lemma improved_inv railway_points route acc imp out imp' :
  (imp = true →
   ∃ lng lat rest p d,
     (lng :: lat :: rest) ∈ route ∧ p ∈ railway_points ∧ [p.2; p.1] ∈ acc
     ∧ haversine_distance lat lng p.1 p.2 = Some d
     ∧ (0.1 <? d) = true ∧ (d <? Alignment.snap_threshold_km) = true) →
  ∀ l, l ⊆ route →
  fold_opt (Alignment.align_coord railway_points) (acc, imp) l = Some (out, imp') →
  imp' = true →
  ∃ lng lat rest p d,
    (lng :: lat :: rest) ∈ route ∧ p ∈ railway_points ∧ [p.2; p.1] ∈ out
    ∧ haversine_distance lat lng p.1 p.2 = Some d
    ∧ (0.1 <? d) = true ∧ (d <? Alignment.snap_threshold_km) = true.
Proof.
  intros Hinit l Hl. revert acc imp Hinit.
  induction l as [|coord l IH]; intros acc imp Hinit.
  - rewrite fold_opt_nil. intros [= <- <-]. done.
  - rewrite fold_opt_cons.
    destruct (Alignment.align_coord _ (acc, imp) coord) as [[acc1 imp1]|] eqn:Hb; [|done].
    cbn [mbind option_bind]. apply IH; [intros x Hx; apply Hl; by right|].
    intros Himp1. unfold Alignment.align_coord in Hb.
    assert (∀ q, acc1 = acc ++ [q] → imp1 = imp →
                 ∃ lng lat rest p d,
                   (lng :: lat :: rest) ∈ route ∧ p ∈ railway_points ∧ [p.2; p.1] ∈ acc1
                   ∧ haversine_distance lat lng p.1 p.2 = Some d
                   ∧ (0.1 <? d) = true ∧ (d <? Alignment.snap_threshold_km) = true)
      as Hkeep.
    { intros q -> ->. destruct (Hinit Himp1) as (lng & lat & rest & p & d & ? & ? & ? & ?).
      exists lng, lat, rest, p, d. rewrite elem_of_app. tauto. }
    destruct coord as [|lng [|lat rest]].
    + injection Hb as <- <-. destruct (Hinit Himp1) as (? & ? & ? & ? & ? & ?); eauto 10.
    + injection Hb as <- <-. destruct (Hinit Himp1) as (? & ? & ? & ? & ? & ?); eauto 10.
    + destruct (Alignment.find_nearest_railway_point _ _ _ _) as [[nearest d]|] eqn:Hn;
        [|done].
      cbn [mbind option_bind] in Hb. apply nearest_vertex_spec in Hn.
      destruct nearest as [p|]; [|injection Hb as <- <-; by eapply Hkeep].
      destruct Hn as (Hin & Hd & _).
      destruct (d <? Alignment.snap_threshold_km) eqn:Hthr;
        [|injection Hb as <- <-; by eapply Hkeep].
      destruct (0.1 <? d) eqn:Hfar; [|injection Hb as <- <-; by eapply Hkeep].
      injection Hb as <- _. exists lng, lat, rest, p, d.
      split; [apply Hl; by left|]. split; [done|].
      split; [apply elem_of_app; right; by left|done].
Qed.

(** X10.  [fix_alignment.py] writes a route back only when some point
    moved by more than 0.1 km: the route returned is the route given,
    untouched, unless some coordinate of it was snapped to a vertex
    whose distance from it is above 0.1 km and below the 2.0 km
    threshold, a vertex that is then part of the result. *)
Theorem route_written_back_if_improved (railway_points : list (float * float))
    (route_coords out : list lonlat) :
  Alignment.align_train_route railway_points route_coords = Some out →
  out = route_coords
  ∨ ∃ lng lat rest p d,
      (lng :: lat :: rest) ∈ route_coords ∧ p ∈ railway_points ∧ [p.2; p.1] ∈ out
      ∧ haversine_distance lat lng p.1 p.2 = Some d
      ∧ (0.1 <? d) = true ∧ (d <? Alignment.snap_threshold_km) = true.
Proof.
  unfold Alignment.align_train_route.
  destruct route_coords as [|c route] eqn:Hr; [intros [= <-]; by left|].
  rewrite <- Hr. clear Hr c route. unfold Alignment.aligned_coords_of.
  destruct (fold_opt _ _ _) as [[aligned imp]|] eqn:Hloop; [|done].
  destruct imp; intros [= <-]; [|by left]. right.
  eapply improved_inv; [|reflexivity|exact Hloop|done]. done.
Qed.

(** X11.  A sparse route (2 to 7 points) of [fix_train_routes.py]
    whose first or last coordinate has fewer than two components is
    not densified: no point is synthesized, the malformed end is
    dropped, and at most one point is left of the route. *)
Theorem malformed_end_collapses_route (route out : list lonlat)
    (tracks : list TrainRoutes.track_point) (s e : lonlat) :
  (2 ≤ length route)%nat → (length route < 8)%nat →
  head route = Some s → last route = Some e →
  ¬ well_formed s ∨ ¬ well_formed e →
  TrainRoutes.fix_route route tracks = Some out →
  TrainRoutes.snap_route_to_tracks [s; e] tracks = Some out
  ∧ (length out ≤ 1)%nat.
Proof.
  intros H2 H8 Hs He Hbad. unfold TrainRoutes.fix_route.
  destruct (length route <? 2)%nat eqn:E2; [apply Nat.ltb_lt in E2; lia|].
  destruct (length route <? 8)%nat eqn:E8; [|apply Nat.ltb_ge in E8; lia].
  rewrite Hs, He.
  assert (TrainRoutes.create_realistic_intermediate_points s e tracks 6 = Some [])
    as ->.
  { unfold TrainRoutes.create_realistic_intermediate_points, well_formed in *.
    destruct s as [|? [|? ?]], e as [|? [|? ?]]; try done; simpl in Hbad; lia. }
  cbn [mbind option_bind app]. intros Hout. split; [done|].
  unfold TrainRoutes.snap_route_to_tracks in Hout.
  rewrite fold_opt_cons in Hout.
  unfold well_formed in Hbad.
  assert (∀ acc c q, TrainRoutes.snap_coord tracks acc c = Some q →
                     (length q ≤ length acc + 1)%nat
                     ∧ ((length c < 2)%nat → q = acc)) as Hstep.
  { intros acc c q. unfold TrainRoutes.snap_coord.
    destruct c as [|a [|b rest]]; [intros [= <-]; split; [lia|done]..|].
    destruct (TrainRoutes.find_nearest_track_point _ _ _ _) as [[[tp|] ?]|]; [| |done];
      intros [= <-]; rewrite length_app; cbn [length]; split; [lia| |lia|];
      intros; lia. }
  destruct (TrainRoutes.snap_coord tracks [] s) as [q1|] eqn:H1; [|done].
  cbn [mbind option_bind] in Hout. rewrite fold_opt_cons in Hout.
  destruct (TrainRoutes.snap_coord tracks q1 e) as [q2|] eqn:H2'; [|done].
  cbn [mbind option_bind] in Hout. rewrite fold_opt_nil in Hout. injection Hout as <-.
  destruct (Hstep _ _ _ H1) as [L1 B1], (Hstep _ _ _ H2') as [L2 B2].
  cbn [length] in L1.
  destruct Hbad as [Hbad|Hbad].
  - rewrite B1 in L2 by lia. cbn [length] in L2. lia.
  - rewrite B2 by lia. lia.
Qed.

End WithMath.

Lemma alignment_reads_multilines_only_witness :
  TrainAlignment.aligned_route [[77.2; 28.6]; [72.8; 19.0]]
    [LineString [[77.0; 28.0]; [73.0; 19.0]]]
  = Some [[77.2; 28.6]; [72.8; 19.0]].
Proof.
  destruct (@alignment_reads_multilines_only series_math) as [_ Hnone].
  apply (Hnone [LineString [[77.0; 28.0]; [73.0; 19.0]]] []); [reflexivity|].
  repeat constructor.
Defined.

Lemma long_coordinate_raises_witness :
  TrainAlignment.aligned_route [[77.2; 28.6]; [72.8; 19.0; 14.0]] [] = None.
Proof.
  apply (@long_coordinate_raises series_math _ _ [72.8; 19.0; 14.0]).
  - apply list_elem_of_In. cbn [In]. tauto.
  - cbn [length]. lia.
Defined.

Lemma malformed_end_collapses_route_witness :
  ∃ out, TrainRoutes.snap_route_to_tracks [[77.2]; [72.8; 19.0]] [] = Some out
         ∧ (length out ≤ 1)%nat.
Proof.
  exists [[72.8; 19.0]].
  apply (malformed_end_collapses_route
           [[77.2]; [75.0; 23.0]; [72.8; 19.0]] [[72.8; 19.0]] [] [77.2] [72.8; 19.0]).
  - cbn [length]. lia.
  - cbn [length]. lia.
  - reflexivity.
  - reflexivity.
  - left. unfold well_formed. cbn [length]. lia.
  - reflexivity.
Defined.

Lemma route_written_back_if_improved_witness :
  Alignment.align_train_route [(28.6, 77.21)] [[77.2; 28.6]; [80; 30]]
  = Some [[77.21; 28.6]; [80; 30]]
  ∧ (∃ d, haversine_distance 28.6 77.2 28.6 77.21 = Some d
          ∧ (0.1 <? d) = true ∧ (d <? Alignment.snap_threshold_km) = true)
  ∧ [[77.21; 28.6]; [80; 30]] ≠ [[77.2; 28.6]; [80; 30]]
  ∧ ([[77.21; 28.6]; [80; 30]] = [[77.2; 28.6]; [80; 30]]
     ∨ ∃ lng lat rest p d,
         (lng :: lat :: rest) ∈ [[77.2; 28.6]; [80; 30]] ∧ p ∈ [(28.6, 77.21)]
         ∧ [p.2; p.1] ∈ [[77.21; 28.6]; [80; 30]]
         ∧ haversine_distance lat lng p.1 p.2 = Some d
         ∧ (0.1 <? d) = true ∧ (d <? Alignment.snap_threshold_km) = true).
Proof.
  split; [vm_compute; reflexivity|].
  split; [eexists; split; [vm_compute; reflexivity|]; split; reflexivity|]. split.
  - intros Heq.
    apply (f_equal (λ l, match l with (x :: _) :: _ => x =? 77.2 | _ => true end)) in Heq.
    vm_compute in Heq. discriminate.
  - apply (route_written_back_if_improved
             [(28.6, 77.21)] [[77.2; 28.6]; [80; 30]] [[77.21; 28.6]; [80; 30]]).
    vm_compute. reflexivity.
Defined.

(** X12.  The network loaders of [fix_alignment.py] and
    [fix_train_routes.py] read the same vertices in the same order:
    the [[lat, lng]] pairs of the first are the [lat] and [lon] fields
    of the track points of the second. *)
Theorem network_loaders_agree (features : list geometry) :
  Alignment.load_railway_network features
  = (λ tp, (TrainRoutes.lat tp, TrainRoutes.lon tp))
      <$> TrainRoutes.load_railway_network features.
Proof.
  assert (∀ coords : list lonlat,
            coords ≫= Alignment.vertex
            = (λ tp, (TrainRoutes.lat tp, TrainRoutes.lon tp))
                <$> (coords ≫= TrainRoutes.track_vertex)) as Hcoords.
  { induction coords as [|c coords IH]; [done|].
    rewrite !bind_cons, fmap_app, IH. f_equal.
    by destruct c as [|a [|b rest]]. }
  unfold Alignment.load_railway_network, TrainRoutes.load_railway_network.
  induction features as [|geom features IH]; [done|].
  rewrite !bind_cons, fmap_app, IH. f_equal.
  destruct geom as [coords|lines|ty]; [apply Hcoords| |done].
  induction lines as [|line lines IHl]; [done|].
  by rewrite !bind_cons, fmap_app, IHl, Hcoords.
Qed.

End AlignmentEdges.

(** ** The ultra priority score *)

Module ScoreFacts.
Import Selection Notions MoreNotions.










End ScoreFacts.

(** ** Duplicate removal, selection and entry ids *)

Module SelectionFacts.
Import Selection Notions MoreNotions.

Lemma unique_fold (l acc : list train) :
  NoDup (train_number <$> acc) →
  ∃ added,
    foldl (λ trains_dict train,
             if bool_decide (train_number train ∈ train_number <$> trains_dict)
             then trains_dict else trains_dict ++ [train]) acc l
    = acc ++ added
    ∧ NoDup (train_number <$> (acc ++ added))
    ∧ added `sublist_of` l
    ∧ (∀ t, t ∈ l → train_number t ∈ train_number <$> (acc ++ added))
    ∧ (∀ u, u ∈ added →
         ∃ l1 l2, l = l1 ++ u :: l2 ∧ train_number u ∉ train_number <$> (acc ++ l1)).
Proof.
  revert acc. induction l as [|t l IH]; intros acc Hacc.
  - exists []. rewrite app_nil_r. repeat split; [done|constructor| |].
    + by intros t Ht%elem_of_nil.
    + by intros u Hu%elem_of_nil.
  - cbn [foldl]. case_bool_decide as Hmem.
    + destruct (IH acc Hacc) as (added & -> & Hnd & Hsub & Hall & Hfirst).
      exists added. split; [done|]. split; [done|]. split; [by apply sublist_cons|].
      split.
      * intros t' [->|Ht']%elem_of_cons; [|by apply Hall].
        rewrite fmap_app, elem_of_app. by left.
      * intros u Hu. destruct (Hfirst u Hu) as (l1 & l2 & -> & Hnot).
        exists (t :: l1), l2. split; [done|].
        rewrite fmap_app, elem_of_app in Hnot.
        rewrite fmap_app, fmap_cons, elem_of_app, elem_of_cons.
        intros [?|[Heq|?]]; [tauto| |tauto]. rewrite Heq in Hnot. tauto.
    + destruct (IH (acc ++ [t])) as (added & -> & Hnd & Hsub & Hall & Hfirst).
      { rewrite fmap_app. apply NoDup_app. split; [done|]. split.
        - intros x Hx [->|[]%elem_of_nil]%elem_of_cons. done.
        - apply NoDup_singleton. }
      exists (t :: added). rewrite <- app_assoc. cbn [app].
      split; [done|]. rewrite <- app_assoc in Hnd, Hall. cbn [app] in Hnd, Hall.
      split; [done|]. split; [by apply sublist_skip|]. split.
      * intros t' [->|Ht']%elem_of_cons; [|by apply Hall].
        rewrite fmap_app, fmap_cons, elem_of_app, elem_of_cons. tauto.
      * intros u [->|Hu]%elem_of_cons.
        -- exists [], l. split; [done|]. by rewrite app_nil_r.
        -- destruct (Hfirst u Hu) as (l1 & l2 & -> & Hnot).
           exists (t :: l1), l2. split; [done|].
           by rewrite <- app_assoc in Hnot.
Qed.

(** X14.  "Get unique trains" keeps, for every train number of the
    input, the first entry that carries it and no other: the numbers
    of the result are pairwise different, the result is a subsequence
    of the input in the input's order, every number of the input is
    present, and no earlier entry of the input has the number of an
    entry that was kept. *)
Theorem unique_trains_first_seen (trains : list train) :
  NoDup (train_number <$> unique_trains trains)
  ∧ unique_trains trains `sublist_of` trains
  ∧ (∀ t, t ∈ trains → train_number t ∈ train_number <$> unique_trains trains)
  ∧ (∀ u, u ∈ unique_trains trains →
       ∃ l1 l2, trains = l1 ++ u :: l2 ∧ train_number u ∉ train_number <$> l1).
Proof.
  unfold unique_trains.
  destruct (unique_fold trains []) as (added & -> & Hnd & Hsub & Hall & Hfirst);
    [constructor|].
  cbn [app] in *. done.
Qed.

Lemma scored_trains_elem score threshold trains s t :
  (s, t) ∈ scored_trains score threshold trains
  ↔ t ∈ trains ∧ s = score t ∧ (threshold ≤ s)%Z.
Proof.
  unfold scored_trains. rewrite list_elem_of_bind. split.
  - intros (t' & Hin & Ht'). cbn zeta in Hin.
    destruct (Z.leb_spec threshold (score t')); [|by apply elem_of_nil in Hin].
    apply list_elem_of_singleton in Hin as [= -> ->]. done.
  - intros (Ht & -> & Hs). exists t. split; [|done]. cbn zeta.
    destruct (Z.leb_spec threshold (score t)); [|lia]. by left.
Qed.

Lemma scored_trains_sublist score threshold trains :
  (snd <$> scored_trains score threshold trains) `sublist_of` trains.
Proof.
  unfold scored_trains. induction trains as [|t l IH]; [constructor|].
  rewrite bind_cons, fmap_app. cbn zeta.
  destruct (threshold <=? score t)%Z; [by apply sublist_skip|by apply sublist_cons].
Qed.

Lemma insert_by_score_perm x l : insert_by_score x l ≡ₚ x :: l.
Proof.
  induction l as [|y l IH]; [done|]. cbn [insert_by_score].
  destruct (x.1 <? y.1)%Z; [|done]. rewrite IH. apply Permutation_swap.
Qed.

Lemma sort_by_score_perm l : sort_by_score l ≡ₚ l.
Proof.
  induction l as [|x l IH]; [done|]. cbn [sort_by_score foldr].
  rewrite insert_by_score_perm. by constructor.
Qed.

Lemma insert_by_score_descending x l :
  descending l → descending (insert_by_score x l).
Proof.
  unfold descending. induction 1 as [|y l Hl IH Hy]; cbn [insert_by_score].
  - repeat constructor.
  - destruct (Z.ltb_spec x.1 y.1).
    + constructor; [done|]. rewrite insert_by_score_perm. constructor; [lia|done].
    + constructor; [by constructor|]. constructor; [lia|].
      eapply Forall_impl; [exact Hy|]. intros z Hz. cbn beta in *. lia.
Qed.

Lemma sort_by_score_descending l : descending (sort_by_score l).
Proof.
  induction l as [|x l IH]; [constructor|]. by apply insert_by_score_descending.
Qed.

(** X15.  The selection of the optimizers (score, keep the scores at or
    above the threshold, sort by descending score, take the first [n]):
    at most [n] trains are selected, in descending order of score,
    each with its own score, which reaches the threshold; no train is
    selected more often than it occurs in the input; and a train
    that reaches the threshold is left out only when [n] trains were
    selected, all of them scoring at least as much. *)
Theorem top_trains_best (score : train → Z) (threshold : Z) (n : nat)
    (trains : list train) :
  length (top_trains score threshold n trains) ≤ n
  ∧ descending (top_trains score threshold n trains)
  ∧ (∀ s t, (s, t) ∈ top_trains score threshold n trains →
            t ∈ trains ∧ s = score t ∧ (threshold ≤ s)%Z)
  ∧ snd <$> top_trains score threshold n trains ⊆+ trains
  ∧ (∀ t, t ∈ trains → (threshold ≤ score t)%Z →
          (score t, t) ∉ top_trains score threshold n trains →
          length (top_trains score threshold n trains) = n
          ∧ ∀ s u, (s, u) ∈ top_trains score threshold n trains → (score t ≤ s)%Z).
Proof.
  unfold top_trains.
  set (sorted := sort_by_score (scored_trains score threshold trains)).
  assert (sorted ≡ₚ scored_trains score threshold trains) as Hperm
    by apply sort_by_score_perm.
  assert (descending sorted) as Hdesc by apply sort_by_score_descending.
  split; [rewrite length_take; lia|]. split.
  { unfold descending in *. rewrite <- (take_drop n sorted) in Hdesc.
    by apply StronglySorted_app_1_l in Hdesc. }
  split.
  { intros s t Hin%subseteq_take. rewrite Hperm in Hin.
    by apply scored_trains_elem in Hin. }
  split.
  { rewrite fmap_take. etrans; [apply submseteq_take|].
    rewrite Hperm. apply sublist_submseteq, scored_trains_sublist. }
  intros t Ht Hs Hout.
  assert ((score t, t) ∈ sorted) as Hin.
  { rewrite Hperm. by apply scored_trains_elem. }
  rewrite <- (take_drop n sorted) in Hin. apply elem_of_app in Hin as [?|Hin]; [done|].
  split.
  - rewrite length_take. apply list_elem_of_lookup in Hin as [i Hi].
    apply lookup_lt_Some in Hi. rewrite length_drop in Hi. lia.
  - intros s u Hu. unfold descending in Hdesc.
    rewrite <- (take_drop n sorted) in Hdesc.
    apply (StronglySorted_app_1_elem_of _ _ _ _ _ Hdesc Hu Hin).
Qed.

Lemma sort_take_submseteq (l : list (Z * train)) n :
  snd <$> take n (sort_by_score l) ⊆+ snd <$> l.
Proof.
  rewrite fmap_take. etrans; [apply submseteq_take|].
  by rewrite sort_by_score_perm.
Qed.

Lemma sort_take_descending (l : list (Z * train)) n :
  descending (take n (sort_by_score l)).
Proof.
  pose proof (sort_by_score_descending l) as Hdesc. unfold descending in *.
  rewrite <- (take_drop n (sort_by_score l)) in Hdesc.
  by apply StronglySorted_app_1_l in Hdesc.
Qed.

Lemma entry_ids_sublist (f : nat → nat → string) (ids : list (list nat)) b o m :
  length ids ≤ m →
  Forall (λ l, ∃ n, n ≤ b ∧ l = seq 1 n) ids →
  mjoin (imap (λ i l, f (o + i) <$> l) ids)
    `sublist_of` mjoin ((λ i, f i <$> seq 1 b) <$> seq o m).
Proof.
  intros Hlen Hids. revert o m Hlen.
  induction Hids as [|l ids (n & Hn & ->) _ IH]; intros o m Hlen.
  - apply sublist_nil_l.
  - destruct m as [|m]; [cbn [length] in Hlen; lia|].
    rewrite imap_cons. change (seq o (S m)) with (o :: seq (S o) m).
    rewrite fmap_cons. cbn [mjoin list_join]. apply sublist_app.
    + rewrite Nat.add_0_r. apply fmap_sublist.
      replace b with (n + (b - n)) by lia. rewrite seq_app.
      by apply sublist_inserts_r.
    + rewrite (imap_ext _ (λ i l, f (S o + i) <$> l)).
      * apply IH. cbn [length] in Hlen. lia.
      * intros i l' _. cbn [compose]. do 2 f_equal. lia.
Qed.

Lemma append_nil_r (s : string) : (s ++ "")%string = s.
Proof. induction s as [|c s IH]; [done|]. cbn [append]. by rewrite IH. Qed.

Lemma append_same_length (s1 s2 r1 r2 : string) :
  String.length s1 = String.length s2 →
  (s1 ++ r1)%string = (s2 ++ r2)%string → s1 = s2 ∧ r1 = r2.
Proof.
  revert s2. induction s1 as [|c s1 IH]; intros [|c' s2]; cbn [String.length append];
    try done.
  intros [= Hlen] [= -> Heq]. destruct (IH s2 Hlen Heq) as [-> ->]. done.
Qed.

Lemma entry_id_suffix train_id schedule_id :
  entry_id train_id schedule_id = (train_id ++ id_suffix schedule_id)%string.
Proof.
  unfold entry_id, id_suffix. destruct (1 <? schedule_id); [done|].
  by rewrite append_nil_r.
Qed.

(** Train ids of one length that differ, and suffixes that differ, give
    entry ids that differ. *)
Lemma possible_ids_NoDup (train_id : nat → string) (m b L : nat) :
  Forall (λ i, String.length (train_id i) = L) (seq 0 m) →
  NoDup (train_id <$> seq 0 m) →
  NoDup (id_suffix <$> seq 1 b) →
  NoDup (possible_ids train_id m b).
Proof.
  intros Hlen Htid Hsuf. unfold possible_ids. rewrite Forall_forall in Hlen.
  assert (∀ i j k l, i ∈ seq 0 m → j ∈ seq 0 m → k ∈ seq 1 b → l ∈ seq 1 b →
                     entry_id (train_id i) k = entry_id (train_id j) l →
                     i = j ∧ k = l) as Hinj.
  { intros i j k l Hi Hj Hk Hl. rewrite !entry_id_suffix.
    intros [Ht Hs]%append_same_length; [|by rewrite !Hlen].
    split.
    - apply list_elem_of_lookup in Hi as [a Ha], Hj as [a' Ha'].
      assert (a = a'); [|congruence].
      eapply NoDup_lookup; [exact Htid|..]; rewrite list_lookup_fmap.
      + by rewrite Ha.
      + rewrite Ha'. cbn. by rewrite Ht.
    - apply list_elem_of_lookup in Hk as [a Ha], Hl as [a' Ha'].
      assert (a = a'); [|congruence].
      eapply NoDup_lookup; [exact Hsuf|..]; rewrite list_lookup_fmap.
      + by rewrite Ha.
      + rewrite Ha'. cbn. by rewrite Hs. }
  assert (∀ (g : nat → list string) l, mjoin (g <$> l) = l ≫= g) as ->.
  { intros g l. induction l as [|x l IH]; [done|].
    rewrite fmap_cons, bind_cons. cbn [mjoin list_join]. by f_equal. }
  apply NoDup_bind.
  - intros i j y Hi Hj (k & -> & Hk)%list_elem_of_fmap (l & Heq & Hl)%list_elem_of_fmap.
    by destruct (Hinj i j k l).
  - intros i Hi. apply NoDup_fmap_2_strong; [|apply NoDup_seq].
    intros k l Hk Hl Heq. by destruct (Hinj i i k l).
  - apply NoDup_seq.
Qed.

(** The ids of a file whose routes have their schedules numbered
    1, 2, ... are pairwise different. *)
Lemma train_ids_NoDup (train_id : nat → string) (m b L : nat) (ids : list (list nat)) :
  Forall (λ i, String.length (train_id i) = L) (seq 0 m) →
  NoDup (train_id <$> seq 0 m) →
  NoDup (id_suffix <$> seq 1 b) →
  length ids ≤ m →
  Forall (λ l, length l ≤ b ∧ l = seq 1 (length l)) ids →
  NoDup (mjoin (imap (λ i l, entry_id (train_id i) <$> l) ids)).
Proof.
  intros Hlen Htid Hsuf Hm Hids.
  eapply sublist_NoDup; [by eapply possible_ids_NoDup|].
  apply (entry_ids_sublist (λ i, entry_id (train_id i)) ids b 0 m Hm).
  eapply Forall_impl; [exact Hids|]. intros l [? ?]. eauto.
Qed.



Lemma optimized_ids_distinct :
  Forall (λ i, String.length (optimized_train_id i) = 6) (seq 0 150)
  ∧ NoDup (optimized_train_id <$> seq 0 150).
Proof. split; apply (bool_decide_unpack _); vm_compute; exact I. Qed.

Lemma always_ids_distinct :
  Forall (λ i, String.length (always_train_id i) = 4) (seq 0 200)
  ∧ NoDup (always_train_id <$> seq 0 200).
Proof. split; apply (bool_decide_unpack _); vm_compute; exact I. Qed.

Lemma id_suffix_distinct : NoDup (id_suffix <$> seq 1 12).
Proof. apply (bool_decide_unpack _); vm_compute; exact I. Qed.

Lemma id_suffix_distinct_6 : NoDup (id_suffix <$> seq 1 6).
Proof. apply (bool_decide_unpack _); vm_compute; exact I. Qed.



End SelectionFacts.

(** ** The pipeline of the ultra optimizer *)

Module PipelineFacts.
Import Clock ClockFacts Coverage CoverageFacts Expansion ExpansionFacts Backfill
       BackfillFacts Selection Notions MoreNotions JourneyFacts SelectionFacts.







Lemma expand_ids dep_dt duration intervals :
  schedule_id <$> expand dep_dt duration intervals
  = seq 1 (length (expand dep_dt duration intervals)).
Proof.
  rewrite expand_length. apply list_eq. intros i. unfold expand.
  rewrite list_lookup_fmap, list_lookup_imap.
  destruct (intervals !! i) as [o|] eqn:Hi; cbn [fmap option_fmap option_map].
  - apply lookup_lt_Some in Hi. rewrite lookup_seq_lt by done.
    cbn [schedule_id]. f_equal. lia.
  - apply lookup_ge_None in Hi. by rewrite lookup_seq_ge.
Qed.







End PipelineFacts.

(** ** The bounding-box verifier *)

Module VerifyFacts.
Import Geometry Notions MoreNotions FloatOrder VerifyAlignment.
Local Open Scope float_scope.

Lemma float_ltb_upper x d m : (m <? x) = false → (m <? d) = true → (d <? x) = false.
Proof.
  intros Hx Hd. destruct (d <? x) eqn:E; [|done].
  by rewrite (float_ltb_trans m d x Hd E) in Hx.
Qed.

Lemma py_min_keeps x m d : (x <? m) = false → (x <? py_min m d) = false.
Proof.
  intros Hx. unfold py_min. destruct (d <? m) eqn:E; [|done]. by eapply float_ltb_lower.
Qed.

Lemma py_max_keeps x m d : (m <? x) = false → (py_max m d <? x) = false.
Proof.
  intros Hx. unfold py_max. destruct (m <? d) eqn:E; [|done]. by eapply float_ltb_upper.
Qed.

Lemma py_min_sets m d : (d <? py_min m d) = false.
Proof. unfold py_min. destruct (d <? m) eqn:E; [apply float_ltb_irrefl|done]. Qed.

Lemma py_max_sets m d : (py_max m d <? d) = false.
Proof. unfold py_max. destruct (m <? d) eqn:E; [apply float_ltb_irrefl|done]. Qed.

(** A property every pass keeps and the pass over [x] establishes
    holds after a loop that visits [x]. *)
Lemma foldl_establish {S X} (P : S → Prop) (f : S → X → S) l init x :
  x ∈ l → (∀ s y, P s → P (f s y)) → (∀ s, P (f s x)) → P (foldl f init l).
Proof.
  intros (l1 & l2 & ->)%list_elem_of_split Hkeep Hset.
  rewrite foldl_app. cbn [foldl].
  generalize (Hset (foldl f init l1)). generalize (f (foldl f init l1) x).
  induction l2 as [|y l2 IH]; intros s Hs; [done|]. cbn [foldl]. by apply IH, Hkeep.
Qed.

Lemma foldl_keeps {S X} (P : S → Prop) (f : S → X → S) l init :
  (∀ s y, P s → P (f s y)) → P init → P (foldl f init l).
Proof.
  intros Hkeep. revert init. induction l as [|y l IH]; intros init Hinit; [done|].
  cbn [foldl]. by apply IH, Hkeep.
Qed.

Lemma visit_coord_keeps lng lat b coord :
  inside lng lat b → inside lng lat (visit_coord b coord).
Proof.
  intros (H1 & H2 & H3 & H4). unfold visit_coord.
  destruct coord as [|lng' [|lat' rest]]; [done..|].
  unfold inside. cbn [min_lat max_lat min_lng max_lng].
  auto using py_min_keeps, py_max_keeps.
Qed.

Lemma visit_coord_sets lng lat rest b : inside lng lat (visit_coord b (lng :: lat :: rest)).
Proof.
  unfold inside. cbn [visit_coord min_lat max_lat min_lng max_lng].
  auto using py_min_sets, py_max_sets.
Qed.

Lemma visit_geometry_keeps lng lat b geom :
  inside lng lat b → inside lng lat (visit_geometry b geom).
Proof.
  intros Hb. destruct geom as [coords|lines|ty]; cbn [visit_geometry]; [| |done].
  - apply foldl_keeps; [|done]. intros. by apply visit_coord_keeps.
  - apply foldl_keeps; [|done]. intros s line Hs.
    apply foldl_keeps; [|done]. intros. by apply visit_coord_keeps.
Qed.

(** Every vertex of the network lies within the bounds. *)
Lemma railway_bounds_inside features lng lat :
  network_vertex features lng lat → inside lng lat (railway_bounds features).
Proof.
  intros (line & rest & Hline & Hc). unfold network_lines in Hline.
  apply list_elem_of_bind in Hline as (geom & Hline & Hgeom).
  unfold railway_bounds.
  apply (foldl_establish _ _ _ _ geom Hgeom).
  { intros. by apply visit_geometry_keeps. }
  intros s. destruct geom as [coords|lines|ty]; cbn [visit_geometry].
  - apply list_elem_of_singleton in Hline as ->.
    apply (foldl_establish _ _ _ _ _ Hc).
    + intros. by apply visit_coord_keeps.
    + intros. apply visit_coord_sets.
  - apply (foldl_establish _ _ _ _ line Hline).
    + intros s0 y Hs0. apply foldl_keeps; [|done]. intros. by apply visit_coord_keeps.
    + intros s0. apply (foldl_establish _ _ _ _ _ Hc).
      * intros. by apply visit_coord_keeps.
      * intros. apply visit_coord_sets.
  - by apply elem_of_nil in Hline.
Qed.

Lemma inside_not_off lng lat b : inside lng lat b → off_bounds b lng lat = false.
Proof. intros (H1 & H2 & H3 & H4). unfold off_bounds. by rewrite H1, H2, H3, H4. Qed.

Lemma off_track_points_le b route n :
  foldl (λ off_track_points coord,
           match coord with
           | lng :: lat :: _ =>
               if off_bounds b lng lat then (off_track_points + 1)%nat
               else off_track_points
           | _ => off_track_points
           end) n route ≤ (n + length route)%nat.
Proof.
  revert n. induction route as [|c route IH]; intros n; cbn [foldl length]; [lia|].
  etrans; [apply IH|]. destruct c as [|lng [|lat rest]]; try lia.
  destruct (off_bounds b lng lat); lia.
Qed.

Lemma total_points_vertices features :
  total_points (railway_bounds features)
  = length (Alignment.load_railway_network features).
Proof.
  assert (∀ coords b, total_points (foldl visit_coord b coords)
                      = (total_points b + length (coords ≫= Alignment.vertex))%nat)
    as Hcoords.
  { induction coords as [|c coords IH]; intros b; cbn [foldl]; [cbn; lia|].
    rewrite IH, bind_cons, length_app.
    destruct c as [|lng [|lat rest]]; cbn; lia. }
  assert (∀ (lines : list (list lonlat)) b,
            total_points (foldl (λ b line, foldl visit_coord b line) b lines)
            = (total_points b + length (lines ≫= λ line, line ≫= Alignment.vertex))%nat)
    as Hlines.
  { induction lines as [|line lines IH]; intros b; cbn [foldl]; [cbn; lia|].
    rewrite IH, Hcoords, bind_cons, length_app. lia. }
  assert (∀ b, total_points (foldl visit_geometry b features)
               = (total_points b + length (Alignment.load_railway_network features))%nat)
    as Hall.
  { unfold Alignment.load_railway_network.
    induction features as [|geom features IH]; intros b; cbn [foldl]; [cbn; lia|].
    rewrite IH, bind_cons, length_app.
    destruct geom as [coords|lines|ty]; cbn [visit_geometry];
      rewrite ?Hcoords, ?Hlines; cbn [length]; lia. }
  unfold railway_bounds. by rewrite Hall.
Qed.

(** X17.  The verifier [Mapverify_alignment.py].  A route whose
    coordinates all start like vertices of the network (or have fewer
    than two components) has no point counted outside the bounds, so
    the train is not reported; a reported train has at least one point
    outside, never more than it has points, so its percentage is
    computed without a division by zero; and the total of railway
    points is the number of vertices [fix_alignment.py] loads. *)
Theorem verifier_accepts_network_routes (features : list geometry)
    (trains : list (list lonlat)) :
  (∀ route_coords,
     Forall (on_network features) route_coords →
     off_track_points (railway_bounds features) route_coords = 0%nat)
  ∧ (∀ r, r ∈ off_track_trains (railway_bounds features) trains →
          (1 ≤ off_track r ≤ total r)%nat ∧ is_Some (percentage r)
          ∧ ∃ route_coords, route_coords ∈ take 10 trains
               ∧ ¬ Forall (on_network features) route_coords
               ∧ total r = length route_coords)
  ∧ total_points (railway_bounds features)
    = length (Alignment.load_railway_network features).
Proof.
  assert (∀ route_coords,
            Forall (on_network features) route_coords →
            off_track_points (railway_bounds features) route_coords = 0%nat) as Hzero.
  { intros route_coords Hroute. unfold off_track_points.
    assert (∀ n, foldl (λ off_track_points coord,
                          match coord with
                          | lng :: lat :: _ =>
                              if off_bounds (railway_bounds features) lng lat
                              then (off_track_points + 1)%nat
                              else off_track_points
                          | _ => off_track_points
                          end) n route_coords = n) as Hn; [|apply Hn].
    induction Hroute as [|c route Hc _ IH]; intros n; cbn [foldl]; [done|].
    etrans; [|apply (IH n)]. f_equal.
    destruct Hc as [Hbad|(lng & lat & rest & -> & Hv)].
    - unfold well_formed in Hbad. destruct c as [|? [|? ?]]; try done.
      cbn [length] in Hbad. lia.
    - by rewrite (inside_not_off _ _ _ (railway_bounds_inside _ _ _ Hv)). }
  split; [exact Hzero|]. split; [|apply total_points_vertices].
  intros r Hr. unfold off_track_trains in Hr.
  apply list_elem_of_bind in Hr as (route & Hr & Hroute).
  destruct route as [|c0 route0] eqn:Eroute; [by apply elem_of_nil in Hr|].
  rewrite <- Eroute in *. cbn zeta in Hr.
  destruct (Nat.ltb_spec 0 (off_track_points (railway_bounds features) route));
    [|by apply elem_of_nil in Hr].
  apply list_elem_of_singleton in Hr as ->. cbn [off_track total].
  pose proof (off_track_points_le (railway_bounds features) route 0) as Hle.
  fold (off_track_points (railway_bounds features) route) in Hle.
  split; [lia|]. split.
  - unfold percentage. cbn [total off_track].
    destruct (Nat.eqb_spec (length route) 0); [lia|by eexists].
  - exists route. split; [done|]. split; [|done].
    intros Hall%Hzero. lia.
Qed.

End VerifyFacts.

(** ** The pipeline of the minimal optimizer *)

Module MinimalFacts.
Import Clock Coverage Expansion ExpansionFacts Selection Notions MoreNotions
       JourneyFacts SelectionFacts.










End MinimalFacts.

(** ** Grouping stops by train *)

Module BuildRoutesFacts.
Import Selection BuildRoutes Notions MoreNotions.

Lemma first_seen_elem x l : x ∈ first_seen l ↔ x ∈ l.
Proof.
  induction l as [|y l IH]; [done|]. cbn [first_seen].
  rewrite !elem_of_cons, list_elem_of_filter, IH.
  destruct (decide (x = y)); tauto.
Qed.

Lemma first_seen_snoc l x :
  first_seen (l ++ [x])
  = if bool_decide (x ∈ l) then first_seen l else first_seen l ++ [x].
Proof.
  induction l as [|y l IH]; [done|]. cbn [app first_seen]. rewrite IH.
  destruct (decide (x = y)) as [->|Hne].
  - rewrite (bool_decide_eq_true_2 (y ∈ y :: l)) by left.
    case_bool_decide; [done|]. rewrite filter_app, filter_cons_False, filter_nil by tauto.
    by rewrite app_nil_r.
  - case_bool_decide as Hin.
    + by rewrite (bool_decide_eq_true_2 (x ∈ y :: l)) by (by right).
    + rewrite (bool_decide_eq_false_2 (x ∈ y :: l))
        by (rewrite elem_of_cons; tauto).
      by rewrite filter_app, filter_cons_True, filter_nil by done.
Qed.

Lemma stops_of_fresh tn p : tn ∉ train_numbers p → stops_of tn p = [].
Proof.
  intros Hnot. unfold stops_of. induction p as [|s p IH]; [done|].
  unfold train_numbers in *. cbn [omap list_omap] in Hnot.
  rewrite filter_cons. case_decide as Hs.
  - rewrite Hs in Hnot. exfalso. apply Hnot. by left.
  - apply IH. intros Hin. apply Hnot.
    destruct (truthy (stop_train_number s)); [by right|done].
Qed.

Lemma names_get_snoc train_names tn' n tn :
  names_get (train_names ++ [(tn', n)]) tn
  = match names_get train_names tn with
    | Some v => Some v
    | None => if bool_decide (tn' = tn) then Some n else None
    end.
Proof.
  unfold names_get. rewrite filter_app.
  destruct (filter _ train_names) as [|kv l]; cbn [app head fmap option_fmap option_map];
    [|done].
  rewrite filter_cons. cbn [fst]. case_decide; case_bool_decide; done.
Qed.

Lemma routes_append_spec (f : string → list stop_data) keys tn sd :
  NoDup keys →
  (routes_append ((λ k, (k, f k)) <$> keys) tn sd
   = (λ k, (k, if bool_decide (k = tn) then f k ++ [sd] else f k))
       <$> (if bool_decide (tn ∈ keys) then keys else keys ++ [tn]))
  ∨ ((tn ∉ keys) ∧ (f tn ≠ [])).
Proof.
  intros Hnd. unfold routes_append.
  rewrite <- list_fmap_compose.
  replace (fst ∘ (λ k, (k, f k))) with (@id string) by done. rewrite list_fmap_id.
  case_bool_decide as Hin.
  - left. rewrite <- list_fmap_compose. apply list_fmap_ext. intros i k _.
    cbn [compose fst snd]. by case_bool_decide.
  - destruct (f tn) as [|? ?] eqn:Hf; [|by right].
    left. rewrite fmap_app. f_equal.
    + apply list_fmap_ext. intros i k Hk. case_bool_decide as Heq; [|done].
      subst k. exfalso. apply Hin. by eapply list_elem_of_lookup_2.
    + cbn. rewrite bool_decide_eq_true_2 by done. by rewrite Hf.
Qed.

Lemma first_seen_NoDup l : NoDup (first_seen l).
Proof.
  induction l as [|x l IH]; [constructor|]. cbn [first_seen]. constructor.
  - rewrite list_elem_of_filter. tauto.
  - by apply NoDup_filter.
Qed.

Lemma visit_stops_spec stations schedules :
  foldl (visit_stop stations) ([], []) schedules
  = ((λ tn, (tn, stop_data_of stations <$> stops_of tn schedules))
       <$> first_seen (train_numbers schedules),
     (foldl (visit_stop stations) ([], []) schedules).2)
  ∧ ∀ tn, names_get (foldl (visit_stop stations) ([], []) schedules).2 tn
          = first_name tn schedules.
Proof.
  induction schedules as [|s p IH] using rev_ind; [done|].
  rewrite foldl_app. cbn [foldl]. destruct IH as [IHr IHn].
  destruct (foldl (visit_stop stations) ([], []) p) as [routes train_names].
  cbn [snd] in *. injection IHr as ->.
  unfold visit_stop, train_numbers, first_name, stops_of in *.
  rewrite omap_app. cbn [omap list_omap].
  destruct (truthy (stop_train_number s)) as [tn|] eqn:Htn.
  - cbn [snd]. split.
    + f_equal.
      destruct (routes_append_spec
                  (λ tn, stop_data_of stations
                           <$> filter (λ s0, truthy (stop_train_number s0) = Some tn) p)
                  (first_seen (omap (λ s0, truthy (stop_train_number s0)) p))
                  tn (stop_data_of stations s) (first_seen_NoDup _))
        as [->|[Hnot Hne]].
      * rewrite first_seen_snoc.
        rewrite (bool_decide_ext (tn ∈ first_seen _) (tn ∈ omap _ p))
          by apply first_seen_elem.
        apply list_fmap_ext. intros i k _. f_equal.
        rewrite filter_app, fmap_app, filter_cons, filter_nil.
        case_bool_decide as Hk.
        -- subst k. by rewrite decide_True by done.
        -- rewrite decide_False by congruence. by rewrite app_nil_r.
      * exfalso. apply Hne. rewrite first_seen_elem in Hnot.
        fold (train_numbers p) in Hnot. fold (stops_of tn p).
        by rewrite (stops_of_fresh tn p Hnot).
    + intros tn'. rewrite filter_app, omap_app, filter_cons, filter_nil.
      specialize (IHn tn').
      assert (names_get
                match names_get train_names tn, truthy (stop_train_name s) with
                | None, Some n => train_names ++ [(tn, n)]
                | _, _ => train_names
                end tn'
              = match names_get train_names tn' with
                | Some v => Some v
                | None => if bool_decide (tn = tn')
                          then truthy (stop_train_name s) else None
                end) as ->.
      { destruct (names_get train_names tn) as [v|] eqn:Hv,
                 (truthy (stop_train_name s)) as [n|] eqn:Hn;
          rewrite ?names_get_snoc; destruct (names_get train_names tn') eqn:Hv';
          try done; case_bool_decide; try done; congruence. }
      rewrite IHn.
      destruct (head (omap _ (filter _ p))) as [v|] eqn:Hhead.
      * destruct (omap _ (filter _ p)); [done|]. done.
      * destruct (omap _ (filter _ p)) as [|? ?] eqn:Hom; [|done]. cbn [app].
        case_bool_decide as Heq.
        -- subst tn'. rewrite decide_True by done. cbn [omap list_omap app].
           by destruct (truthy (stop_train_name s)).
        -- rewrite decide_False by congruence. done.
  - rewrite app_nil_r. cbn [snd]. split.
    + f_equal. apply list_fmap_ext. intros i k _. f_equal.
      rewrite filter_app, filter_cons, filter_nil, decide_False by congruence.
      by rewrite app_nil_r.
    + intros tn'. rewrite filter_app, filter_cons, filter_nil, decide_False by congruence.
      rewrite app_nil_r. apply IHn.
Qed.

(** X19.  [build_routes.py] groups the stops by train: its output has
    one entry per train number, in the order in which the numbers
    first occur among the stops (those without a number are dropped);
    the route of a train is the list of its stops, each once and in
    the order of the input; and its name is the first name one of its
    stops gives it, [Unknown] when none does. *)
Theorem build_routes_groups (stations : list station) (schedules : list stop) :
  build_routes stations schedules
  = (λ tn, Route tn (default "Unknown"%string (first_name tn schedules))
                 (stop_data_of stations <$> stops_of tn schedules))
      <$> first_seen (train_numbers schedules).
Proof.
  unfold build_routes. destruct (visit_stops_spec stations schedules) as [Hr Hn].
  destruct (foldl (visit_stop stations) ([], []) schedules) as [routes train_names].
  cbn [snd] in *. injection Hr as ->.
  rewrite <- list_fmap_compose. apply list_fmap_ext. intros i tn _.
  cbn [compose fst snd]. by rewrite Hn.
Qed.

End BuildRoutesFacts.

(** ** The first optimizer and the always-running file *)

Module OtherPipelines.
Import Clock Coverage Expansion ExpansionFacts Selection Notions MoreNotions
       JourneyFacts SelectionFacts.

Lemma rescored (score : train → Z) (l : list (Z * train)) :
  Forall (λ st, st.1 = score st.2) l → (λ t, (score t, t)) <$> (snd <$> l) = l.
Proof.
  induction 1 as [|[s t] l Hs _ IH]; [done|].
  rewrite !fmap_cons, IH. cbn [fst snd] in *. by rewrite Hs.
Qed.

Lemma sum_lengths_bound {A B} (f : A → list B) (b : nat) (l : list A) :
  Forall (λ x, length (f x) ≤ b) l → sum_list (length ∘ f <$> l) ≤ b * length l.
Proof.
  induction 1 as [|x l Hx _ IH]; [cbn; lia|].
  rewrite fmap_cons. cbn [sum_list sum_list_with length compose].
  change (sum_list_with id ?l) with (sum_list l). unfold id, compose in *. lia.
Qed.

Lemma route_score_range (t : train) : (0 ≤ calculate_route_score t ≤ 190)%Z.
Proof.
  unfold calculate_route_score.
  destruct (existsb _ _);
    (destruct (any_in _ _);
      [|destruct (any_in _ _);
        [|destruct (_ || _);
          [|destruct (contains _ _);
            [|destruct (any_in _ _); [|destruct (any_in _ _)]]]]]);
    (destruct (1000 <? default 0 (distance t))%Z;
      [|destruct (500 <? default 0 (distance t))%Z;
        [|destruct (200 <? default 0 (distance t))%Z]]);
    (destruct (15 <? length (stations t));
      [|destruct (10 <? length (stations t)); [|destruct (5 <? length (stations t))]]);
    (destruct (20 <? length (route_coordinates t));
      [|destruct (10 <? length (route_coordinates t));
        [|destruct (5 <? length (route_coordinates t))]]); lia.
Qed.

Lemma train_priority_range (t : train) : (0 ≤ get_train_priority t ≤ 135)%Z.
Proof.
  unfold get_train_priority.
  destruct (5 <? length (route_coordinates t));
    (destruct (any_in _ _);
      [|destruct (any_in _ _);
        [|destruct (contains _ _);
          [|destruct (any_in _ _); [|destruct (any_in _ _)]]]]);
    (destruct (10 <? length (stations t)); [|destruct (5 <? length (stations t))]);
    lia.
Qed.

Lemma optimized_schedule_spec t :
  ∃ dep_dt duration,
    optimized_schedule t
    = Some (t, expand dep_dt duration
                 (continuous_intervals (optimized_frequency (upper (train_name t))))).
Proof.
  unfold optimized_schedule, create_continuous_timing.
  destruct (journey_total (default "06:00:00"%string (train_departure t))
              (default "18:00:00"%string (train_arrival t)))
    as (td & ta & _ & _ & _ & _ & ->).
  cbn [mbind option_bind]. eauto.
Qed.

Lemma optimized_tier_size name :
  length (continuous_intervals (optimized_frequency name)) ∈ [1; 3; 6].
Proof.
  unfold optimized_frequency.
  destruct (any_in _ _); [vm_compute; apply list_elem_of_In; cbn; tauto|].
  destruct (any_in _ _); vm_compute; apply list_elem_of_In; cbn; tauto.
Qed.

Lemma mapM_fst {A B} (f : A → option (A * B)) l out :
  (∀ x y, f x = Some y → y.1 = x) → mapM f l = Some out → fst <$> out = l.
Proof.
  intros Hf Hout%mapM_Some_1. induction Hout as [|x y l out Hxy _ IH]; [done|].
  rewrite fmap_cons, IH. f_equal. by apply Hf.
Qed.

(** X20.  [calculate_route_score] lies between 0 and 190.
    [create_optimized_trains] always reaches its output loop, with at
    most 150 routes in descending order of score, each a train of the
    input (none more often than the input has it) that scores 70 or
    more, each with 1, 3 or 6 schedules numbered 1, 2, ...: the file
    holds at most 900 entries, no two of them with the same id. *)
Theorem optimized_pipeline_counts (trains : list train) :
  (∀ t, (0 ≤ calculate_route_score t ≤ 190)%Z)
  ∧ ∃ out, optimized_routes trains = Some out
           ∧ length out ≤ 150
           ∧ fst <$> out ⊆+ trains
           ∧ descending ((λ route, (calculate_route_score route.1, route.1)) <$> out)
           ∧ Forall (λ route, (70 ≤ calculate_route_score route.1)%Z
                              ∧ length route.2 ∈ [1; 3; 6]
                              ∧ schedule_id <$> route.2 = seq 1 (length route.2)) out
           ∧ sum_list (length ∘ snd <$> out) ≤ 900
           ∧ NoDup (optimized_train_ids out).
Proof.
  split; [apply route_score_range|].
  unfold optimized_routes, top_trains.
  set (top := take 150 (sort_by_score (scored_trains calculate_route_score 70 trains))).
  assert (length top ≤ 150) as Hlen by (unfold top; rewrite length_take; lia).
  assert (Forall (λ st, st.1 = calculate_route_score st.2 ∧ (70 ≤ st.1)%Z) top) as Htop.
  { apply Forall_forall. intros [s t] Hin%subseteq_take.
    rewrite sort_by_score_perm in Hin. apply scored_trains_elem in Hin. tauto. }
  destruct (mapM_is_Some_2 optimized_schedule (snd <$> top)) as [out Hout].
  { apply Forall_forall. intros t _. cbn [compose].
    destruct (optimized_schedule_spec t) as (? & ? & ->). by eexists. }
  exists out. split; [done|].
  assert (fst <$> out = snd <$> top) as Hfst.
  { apply (mapM_fst optimized_schedule); [|done].
    intros t y. destruct (optimized_schedule_spec t) as (? & ? & ->). by intros [= <-]. }
  assert (length out ≤ 150) as Hlen'.
  { rewrite <- (length_fmap fst), Hfst, length_fmap. done. }
  split; [done|]. split.
  { rewrite Hfst. etrans; [apply sort_take_submseteq|].
    apply sublist_submseteq, scored_trains_sublist. }
  split.
  { replace ((λ route : train * list schedule,
                 (calculate_route_score route.1, route.1)) <$> out)
      with ((λ t, (calculate_route_score t, t)) <$> (fst <$> out))
      by (by rewrite <- list_fmap_compose).
    rewrite Hfst, (rescored calculate_route_score top).
    - apply sort_take_descending.
    - eapply Forall_impl; [exact Htop|]. by intros st [? _]. }
  assert (Forall (λ route, (70 ≤ calculate_route_score route.1)%Z
                           ∧ length route.2 ∈ [1; 3; 6]
                           ∧ schedule_id <$> route.2 = seq 1 (length route.2)) out)
    as Hall.
  { apply mapM_Some_1 in Hout. apply (Forall2_Forall_r _ _ _ _ Hout).
    apply Forall_fmap. eapply Forall_impl; [exact Htop|].
    intros [s t] [Hs H70] route. cbn [compose fst snd] in *.
    destruct (optimized_schedule_spec t) as (d & u & ->). intros [= <-].
    cbn [fst snd]. split; [lia|]. split; [|apply PipelineFacts.expand_ids].
    rewrite expand_length. apply optimized_tier_size. }
  split; [exact Hall|].
  assert (Forall (λ route : train * list schedule, length route.2 ≤ 6) out) as Hsix.
  { eapply Forall_impl; [exact Hall|]. intros route (_ & Hsz & _).
    apply list_elem_of_In in Hsz. cbn [In] in Hsz. lia. }
  split.
  { pose proof (sum_lengths_bound snd 6 out Hsix). lia. }
  unfold optimized_train_ids.
  replace (imap (λ i (route : train * list schedule),
                   (λ schedule, entry_id (optimized_train_id i) (schedule_id schedule))
                     <$> route.2) out)
    with (imap (λ i (l : list nat), entry_id (optimized_train_id i) <$> l)
               ((λ route : train * list schedule, schedule_id <$> route.2) <$> out)).
  2:{ rewrite imap_fmap. apply imap_ext. intros i route _. cbn [compose].
      by rewrite <- list_fmap_compose. }
  destruct optimized_ids_distinct as [Hl Hd].
  apply (train_ids_NoDup optimized_train_id 150 6 6 _ Hl Hd id_suffix_distinct_6);
    [by rewrite length_fmap|].
  apply Forall_fmap. eapply Forall_impl; [exact Hall|].
  intros route (_ & Hsz & Hs). cbn [compose]. rewrite length_fmap.
  split; [|by rewrite <- Hs].
  apply list_elem_of_In in Hsz. cbn [In] in Hsz. lia.
Qed.

Lemma always_schedule_spec t :
  ∃ times, always_schedule t = Some (t, times)
           ∧ length times = length (always_intervals (upper (train_name t))).
Proof.
  unfold always_schedule, create_continuous_schedule.
  destruct (parse_time_total (default "06:00:00"%string (train_departure t)))
    as (td & -> & _).
  destruct (parse_time_total (default "18:00:00"%string (train_arrival t)))
    as (ta & -> & _).
  cbn [mbind option_bind]. eexists. split; [done|]. by rewrite length_fmap.
Qed.

Lemma always_tier_size name : length (always_intervals name) ∈ [1; 2; 12].
Proof.
  unfold always_intervals.
  destruct (any_in _ _); [vm_compute; apply list_elem_of_In; cbn; tauto|].
  destruct (any_in _ _); vm_compute; apply list_elem_of_In; cbn; tauto.
Qed.

Lemma imap_index_ids {A} (f : nat → string) (l : list A) :
  imap (λ j _, f (j + 1)) l = f <$> seq 1 (length l).
Proof.
  apply list_eq. intros i. rewrite list_lookup_imap, list_lookup_fmap.
  destruct (l !! i) as [x|] eqn:Hi; cbn [fmap option_fmap option_map].
  - apply lookup_lt_Some in Hi. rewrite lookup_seq_lt by done. cbn. f_equal. f_equal. lia.
  - apply lookup_ge_None in Hi. by rewrite lookup_seq_ge.
Qed.

(** X21.  [get_train_priority] lies between 0 and 135.
    [create_always_running_trains] always reaches its output, with the
    200 first trains of the input sorted by descending priority (all
    of them when the input has no more than 200), each with 1, 2 or
    12 entries: the file holds at most 2400 entries, no two of them
    with the same id. *)
Theorem always_running_counts (trains : list train) :
  (∀ t, (0 ≤ get_train_priority t ≤ 135)%Z)
  ∧ ∃ out, always_running trains = Some out
           ∧ length out = min 200 (length trains)
           ∧ fst <$> out ⊆+ trains
           ∧ (length trains ≤ 200 → fst <$> out ≡ₚ trains)
           ∧ descending ((λ route, (get_train_priority route.1, route.1)) <$> out)
           ∧ Forall (λ route, length route.2 ∈ [1; 2; 12]) out
           ∧ sum_list (length ∘ snd <$> out) ≤ 2400
           ∧ NoDup (always_ids out).
Proof.
  split; [apply train_priority_range|].
  unfold always_running.
  set (scored := (λ t, (get_train_priority t, t)) <$> trains).
  set (top := take 200 (sort_by_score scored)).
  assert (snd <$> scored = trains) as Hsnd.
  { unfold scored. rewrite <- list_fmap_compose. apply list_fmap_id. }
  assert (length (sort_by_score scored) = length trains) as Hsorted.
  { rewrite sort_by_score_perm. unfold scored. by rewrite length_fmap. }
  assert (Forall (λ st, st.1 = get_train_priority st.2) top) as Htop.
  { apply Forall_forall. intros [s t] Hin%subseteq_take.
    rewrite sort_by_score_perm in Hin. unfold scored in Hin.
    by apply list_elem_of_fmap in Hin as (t' & [= -> ->] & _). }
  destruct (mapM_is_Some_2 always_schedule (snd <$> top)) as [out Hout].
  { apply Forall_forall. intros t _. cbn [compose].
    destruct (always_schedule_spec t) as (? & -> & _). by eexists. }
  exists out. split; [done|].
  assert (fst <$> out = snd <$> top) as Hfst.
  { apply (mapM_fst always_schedule); [|done].
    intros t y. destruct (always_schedule_spec t) as (? & -> & _). by intros [= <-]. }
  assert (length out = min 200 (length trains)) as Hlen.
  { rewrite <- (length_fmap fst), Hfst, length_fmap. unfold top.
    rewrite length_take, Hsorted. done. }
  split; [done|]. split.
  { rewrite Hfst. etrans; [apply sort_take_submseteq|]. by rewrite Hsnd. }
  split.
  { intros Hfew. rewrite Hfst. unfold top.
    rewrite take_ge by lia. by rewrite sort_by_score_perm, Hsnd. }
  split.
  { replace ((λ route : train * list (string * string),
                 (get_train_priority route.1, route.1)) <$> out)
      with ((λ t, (get_train_priority t, t)) <$> (fst <$> out))
      by (by rewrite <- list_fmap_compose).
    rewrite Hfst, (rescored get_train_priority top Htop). apply sort_take_descending. }
  assert (Forall (λ route : train * list (string * string),
                    length route.2 ∈ [1; 2; 12]) out) as Hall.
  { apply mapM_Some_1 in Hout. apply (Forall2_Forall_r _ _ _ _ Hout).
    apply Forall_forall. intros t _ route.
    destruct (always_schedule_spec t) as (times & -> & Hl). intros [= <-].
    cbn [snd]. rewrite Hl. apply always_tier_size. }
  split; [exact Hall|].
  assert (Forall (λ route : train * list (string * string), length route.2 ≤ 12) out)
    as Htwelve.
  { eapply Forall_impl; [exact Hall|]. intros route Hsz.
    apply list_elem_of_In in Hsz. cbn [In] in Hsz. lia. }
  split.
  { pose proof (sum_lengths_bound snd 12 out Htwelve). lia. }
  unfold always_ids.
  replace (imap (λ i (route : train * list (string * string)),
                   imap (λ j _, entry_id (always_train_id i) (j + 1)) route.2) out)
    with (imap (λ i (l : list nat), entry_id (always_train_id i) <$> l)
               ((λ route : train * list (string * string),
                   seq 1 (length route.2)) <$> out)).
  2:{ rewrite imap_fmap. apply imap_ext. intros i route _. cbn [compose].
      by rewrite imap_index_ids. }
  destruct always_ids_distinct as [Hl Hd].
  apply (train_ids_NoDup always_train_id 200 12 4 _ Hl Hd id_suffix_distinct);
    [rewrite length_fmap; lia|].
  apply Forall_fmap. eapply Forall_impl; [exact Htwelve|].
  intros route Hsz. cbn [compose]. by rewrite length_seq.
Qed.

End OtherPipelines.
